(** * Batch job orchestration: a shallow embedding of the processing pipeline

    The development follows the JavaScript sources module by module:

    - [Json], [Store] : the JSON reader used by the repositories and the
                        corruption-recovery read path of getAllDocuments / getAllJobs
    - [Document]      : src/domain/entities/Document.js (size test, chunking loop)
    - [Js], [Output], [Job] : array slicing and padding, LocalOutputService's
                        sharding and file naming, src/domain/entities/Job.js
    - [Runtime]       : outcomes of asynchronous code, the configuration, the
                        state of the stores and of the disk
    - [JobRepository], [DocumentRepository], [OutputService] : the adapters
    - [ProcessJobUseCase] : the use case
    - [Response], [JobController] : src/utils/response.js and the handler
                        that runs the use case
    - [OutputScan], [OutputInfo] : LocalOutputService's directory scan and
                        getOutputInfo
    - [Observe], [Written], [Vocabulary], [Samples] : what the statements are
                        written with

    The facts come after the definitions, one module per subject.

    JavaScript numbers that hold character positions, counters and sizes are
    integers; they are modelled by [Z] (positions can become negative in the
    chunking loop) or [nat] (list lengths).  Strings are Stdlib strings, one
    [ascii] per code unit: the texts covered are those whose code units
    lie below 256. *)

From Stdlib Require Import ZArith Lia Bool.
From Stdlib Require Import Strings.String Strings.Ascii.
From Stdlib Require Import Numbers.DecimalString Numbers.DecimalNat.
From stdpp Require Import base option list strings gmap.

#[local] Open Scope Z_scope.
#[local] Set Warnings "-register-all".

(* ===================================================================== *)
(** * JSON.parse                                                         *)
(* ===================================================================== *)

(** The repositories read their collection files with [JSON.parse].  The
    reader below accepts the JSON grammar: a scanner cuts the text into
    tokens, a stack machine assembles the value.  Numbers and strings are
    kept as they are written (the digits of a number, the characters
    between the quotes of a string, escapes included); object members are
    kept in source order. *)

Module Json.

Inductive value :=
  | JNull
  | JBool (b : bool)
  | JNum (lexeme : string)
  | JStr (raw : string)
  | JArr (items : list value)
  | JObj (members : list (string * value)).

Inductive token :=
  | TOpenObj | TCloseObj | TOpenArr | TCloseArr | TColon | TComma
  | TStr (raw : string)
  | TPrim (v : value).

(** ** Scanner *)

Definition code (c : ascii) : Z := Z.of_N (N_of_ascii c).

Definition is_digit (c : ascii) : bool := (48 <=? code c) && (code c <=? 57).
Definition is_digit19 (c : ascii) : bool := (49 <=? code c) && (code c <=? 57).
Definition is_hex (c : ascii) : bool :=
  is_digit c || ((65 <=? code c) && (code c <=? 70))
             || ((97 <=? code c) && (code c <=? 102)).
Definition is_e (c : ascii) : bool := (code c =? 69) || (code c =? 101).
Definition is_sign (c : ascii) : bool := (code c =? 43) || (code c =? 45).
(** JSON white space: tab, line feed, carriage return, space. *)
Definition is_json_ws (c : ascii) : bool :=
  (code c =? 9) || (code c =? 10) || (code c =? 13) || (code c =? 32).

Definition snoc (s : string) (c : ascii) : string := s +:+ String c EmptyString.

Inductive numstate :=
  | NMinus | NZero | NInt | NDot | NFrac | NExp | NExpSign | NExpDigits.

Inductive strstate := SPlain | SEscape | SHex (remaining : nat).

Inductive mode :=
  | MStart
  | MLit (expected : string) (v : value)
  | MNum (st : numstate) (acc : string)
  | MStr (st : strstate) (acc : string).

Definition num_next (st : numstate) (c : ascii) : option numstate :=
  match st with
  | NMinus => if code c =? 48 then Some NZero
              else if is_digit19 c then Some NInt else None
  | NZero => if code c =? 46 then Some NDot
             else if is_e c then Some NExp else None
  | NInt => if is_digit c then Some NInt
            else if code c =? 46 then Some NDot
            else if is_e c then Some NExp else None
  | NDot => if is_digit c then Some NFrac else None
  | NFrac => if is_digit c then Some NFrac
             else if is_e c then Some NExp else None
  | NExp => if is_sign c then Some NExpSign
            else if is_digit c then Some NExpDigits else None
  | NExpSign => if is_digit c then Some NExpDigits else None
  | NExpDigits => if is_digit c then Some NExpDigits else None
  end.

Definition num_accepting (st : numstate) : bool :=
  match st with
  | NZero | NInt | NFrac | NExpDigits => true
  | _ => false
  end.

Definition lstep_start (c : ascii) : option (mode * list token) :=
  if is_json_ws c then Some (MStart, [])
  else if code c =? 123 then Some (MStart, [TOpenObj])
  else if code c =? 125 then Some (MStart, [TCloseObj])
  else if code c =? 91 then Some (MStart, [TOpenArr])
  else if code c =? 93 then Some (MStart, [TCloseArr])
  else if code c =? 58 then Some (MStart, [TColon])
  else if code c =? 44 then Some (MStart, [TComma])
  else if code c =? 34 then Some (MStr SPlain EmptyString, [])
  else if code c =? 45 then Some (MNum NMinus (String c EmptyString), [])
  else if code c =? 48 then Some (MNum NZero (String c EmptyString), [])
  else if is_digit19 c then Some (MNum NInt (String c EmptyString), [])
  else if code c =? 116 then Some (MLit "rue" (JBool true), [])
  else if code c =? 102 then Some (MLit "alse" (JBool false), [])
  else if code c =? 110 then Some (MLit "ull" JNull, [])
  else None.

Definition is_simple_escape (c : ascii) : bool :=
  (code c =? 34) || (code c =? 92) || (code c =? 47) || (code c =? 98)
  || (code c =? 102) || (code c =? 110) || (code c =? 114) || (code c =? 116).

Definition lstep (m : mode) (c : ascii) : option (mode * list token) :=
  match m with
  | MStart => lstep_start c
  | MLit EmptyString _ => None
  | MLit (String e rest) v =>
      if Ascii.eqb c e then
        match rest with
        | EmptyString => Some (MStart, [TPrim v])
        | _ => Some (MLit rest v, [])
        end
      else None
  | MNum st acc =>
      match num_next st c with
      | Some st' => Some (MNum st' (snoc acc c), [])
      | None =>
          if num_accepting st then
            '(m', ts) ← lstep_start c; Some (m', TPrim (JNum acc) :: ts)
          else None
      end
  | MStr SPlain acc =>
      if code c =? 34 then Some (MStart, [TStr acc])
      else if code c =? 92 then Some (MStr SEscape (snoc acc c), [])
      else if code c <? 32 then None
      else Some (MStr SPlain (snoc acc c), [])
  | MStr SEscape acc =>
      if is_simple_escape c then Some (MStr SPlain (snoc acc c), [])
      else if code c =? 117 then Some (MStr (SHex 4) (snoc acc c), [])
      else None
  | MStr (SHex n) acc =>
      if is_hex c then
        match n with
        | S (S n') => Some (MStr (SHex (S n')) (snoc acc c), [])
        | _ => Some (MStr SPlain (snoc acc c), [])
        end
      else None
  end.

Fixpoint lex_run (m : mode) (s : string) : option (mode * list token) :=
  match s with
  | EmptyString => Some (m, [])
  | String c s' =>
      '(m1, t1) ← lstep m c;
      '(m2, t2) ← lex_run m1 s';
      Some (m2, t1 ++ t2)
  end.

(** At the end of the text a number in progress is closed; an open string
    or an unfinished literal is an error. *)
Definition lex_finish (m : mode) : option (list token) :=
  match m with
  | MStart => Some []
  | MNum st acc => if num_accepting st then Some [TPrim (JNum acc)] else None
  | _ => None
  end.

Definition lex (s : string) : option (list token) :=
  '(m, ts) ← lex_run MStart s;
  tf ← lex_finish m;
  Some (ts ++ tf).

(** ** Assembling the value *)

Inductive frame :=
  | FArr (items : list value)
  | FObj (members : list (string * value))
  | FKey (members : list (string * value)) (key : string).

Inductive pmode :=
  | PValue | PAfterElem | PKey | PColon | PAfterMember
  | PDone (v : value).

Definition pstate : Type := list frame * pmode.

(** A finished value goes to the innermost open container. *)
Definition deliver (v : value) (stack : list frame) : option pstate :=
  match stack with
  | [] => Some ([], PDone v)
  | FArr items :: rest => Some (FArr (v :: items) :: rest, PAfterElem)
  | FKey members k :: rest => Some (FObj ((k, v) :: members) :: rest, PAfterMember)
  | FObj _ :: _ => None
  end.

Definition pstep (st : pstate) (t : token) : option pstate :=
  let '(stack, m) := st in
  match m, t with
  | PValue, TPrim v => deliver v stack
  | PValue, TStr s => deliver (JStr s) stack
  | PValue, TOpenArr => Some (FArr [] :: stack, PValue)
  | PValue, TOpenObj => Some (FObj [] :: stack, PKey)
  | PValue, TCloseArr =>
      match stack with
      | FArr [] :: rest => deliver (JArr []) rest
      | _ => None
      end
  | PAfterElem, TComma =>
      match stack with
      | FArr (_ :: _) :: _ => Some (stack, PValue)
      | _ => None
      end
  | PAfterElem, TCloseArr =>
      match stack with
      | FArr items :: rest => deliver (JArr (rev items)) rest
      | _ => None
      end
  | PKey, TStr k =>
      match stack with
      | FObj members :: rest => Some (FKey members k :: rest, PColon)
      | _ => None
      end
  | PKey, TCloseObj =>
      match stack with
      | FObj [] :: rest => deliver (JObj []) rest
      | _ => None
      end
  | PColon, TColon => Some (stack, PValue)
  | PAfterMember, TComma => Some (stack, PKey)
  | PAfterMember, TCloseObj =>
      match stack with
      | FObj members :: rest => deliver (JObj (rev members)) rest
      | _ => None
      end
  | _, _ => None
  end.

Fixpoint prun (st : pstate) (ts : list token) : option pstate :=
  match ts with
  | [] => Some st
  | t :: ts' => st' ← pstep st t; prun st' ts'
  end.

Definition parse_tokens (ts : list token) : option value :=
  match prun ([], PValue) ts with
  | Some ([], PDone v) => Some v
  | _ => None
  end.

(** [JSON.parse(text)]; [None] stands for the [SyntaxError] it throws. *)
Definition parse (text : string) : option value :=
  ts ← lex text; parse_tokens ts.

(** ** Reading the elements of an array *)

(** The token a comma or a closing bracket gives. *)
Definition punct (c : ascii) : option token :=
  if code c =? 44 then Some TComma
  else if code c =? 93 then Some TCloseArr
  else None.

(** The assembler has a whole value. *)
Definition is_done (m : pmode) : bool :=
  match m with PDone _ => true | _ => false end.

(** The state reached on an empty stack, seen from inside an array that
    already holds [items]. *)
Definition in_array (items : list value) (below : list frame) (st : pstate)
    : pstate :=
  match st with
  | (_, PDone v) => (FArr (v :: items) :: below, PAfterElem)
  | (stack, m) => (stack ++ FArr items :: below, m)
  end.

(** Token lists joined by commas, as the scanner sees joined lines. *)
Fixpoint join_tokens (tss : list (list token)) : list token :=
  match tss with
  | [] => []
  | [ts] => ts
  | ts :: tss' => ts ++ TComma :: join_tokens tss'
  end.

End Json.
(* ===================================================================== *)
(** * Document.js: chunking                                              *)
(* ===================================================================== *)

Module Document.

(** ** String primitives of the host language *)

Definition clamp (x lo hi : Z) : Z := Z.max lo (Z.min x hi).

Definition strlen (s : string) : Z := Z.of_nat (String.length s).

(** [String.prototype.substring(a, b)]: both positions are clamped to
    [0 .. length] and swapped when out of order. *)
Definition js_substring (s : string) (a b : Z) : string :=
  let a' := clamp a 0 (strlen s) in
  let b' := clamp b 0 (strlen s) in
  let from := Z.min a' b' in
  let to := Z.max a' b' in
  String.substring (Z.to_nat from) (Z.to_nat (to - from)) s.

(** [String.prototype.lastIndexOf(c, pos)] for a one-character needle: the
    largest index [i] with [0 <= i <= clamp pos] holding [c], or [-1].  The
    scan below walks the string left to right and remembers the last hit
    that is not beyond the bound, which is the same index. *)
Fixpoint lastIndexOf_scan (s : string) (c : ascii) (bound i found : Z) : Z :=
  match s with
  | EmptyString => found
  | String x s' =>
      lastIndexOf_scan s' c bound (i + 1)
        (if (i <=? bound) && Ascii.eqb x c then i else found)
  end.

Definition lastIndexOf (s : string) (c : ascii) (pos : Z) : Z :=
  lastIndexOf_scan s c (Z.max pos 0) 0 (-1).

Definition period : ascii := "."%char.
Definition newline : ascii := "010"%char.

(** ** The entity's methods *)

(** [getSize()]; the content of a validated document is a string. *)
Definition getSize (content : string) : Z := strlen content.

(** [needsChunking(maxChunkSize)] *)
Definition needsChunking (content : string) (maxChunkSize : Z) : bool :=
  maxChunkSize <? getSize content.

(** One pass through the body of the [while] loop of [chunkContent]: the
    value of [end] when the chunk is pushed.  The test
    [breakPoint > start + maxChunkSize * 0.8] is on integers here, so it is
    written without the fraction: [5 * breakPoint > 5 * start + 4 * maxChunkSize]. *)
Definition window_end (content : string) (maxChunkSize start : Z) : Z :=
  let end_ := start + maxChunkSize in
  if end_ <? strlen content then
    let lastPeriod := lastIndexOf content period end_ in
    let lastNewline := lastIndexOf content newline end_ in
    let breakPoint := Z.max lastPeriod lastNewline in
    if 5 * start + 4 * maxChunkSize <? 5 * breakPoint
    then breakPoint + 1
    else end_
  else end_.

(** [start = end - overlap], the position the next pass starts from. *)
Definition next_start (content : string) (maxChunkSize overlap start : Z) : Z :=
  window_end content maxChunkSize start - overlap.

(** The [while (start < this.content.length)] loop.  [fuel] bounds the
    number of passes; [None] means the bound was reached with the loop
    condition still true.  Every pass pushes a chunk, so in the host the
    bound is the number of elements the array [chunks] can take: a loop
    that reaches it is ended by the push that no longer fits (see
    [Runtime.pushed]). *)
Fixpoint chunk_loop (fuel : nat) (content : string)
    (maxChunkSize overlap start : Z) : option (list string) :=
  if start <? strlen content then
    match fuel with
    | O => None
    | S fuel' =>
        let end_ := window_end content maxChunkSize start in
        cons (js_substring content start end_)
          <$> chunk_loop fuel' content maxChunkSize overlap (end_ - overlap)
    end
  else Some [].

(** The same loop, recording the pair [(start, end)] of every pass instead
    of the substring it cuts. *)
Fixpoint window_loop (fuel : nat) (content : string)
    (maxChunkSize overlap start : Z) : option (list (Z * Z)) :=
  if start <? strlen content then
    match fuel with
    | O => None
    | S fuel' =>
        let end_ := window_end content maxChunkSize start in
        cons (start, end_)
          <$> window_loop fuel' content maxChunkSize overlap (end_ - overlap)
    end
  else Some [].

(** [chunkContent(maxChunkSize, overlap)] *)
Definition chunkContent (fuel : nat) (content : string)
    (maxChunkSize overlap : Z) : option (list string) :=
  if negb (needsChunking content maxChunkSize) then Some [content]
  else chunk_loop fuel content maxChunkSize overlap 0.

Definition chunkWindows (fuel : nat) (content : string)
    (maxChunkSize overlap : Z) : option (list (Z * Z)) :=
  if negb (needsChunking content maxChunkSize) then Some [(0, strlen content)]
  else window_loop fuel content maxChunkSize overlap 0.

(** The overlap the use case relies on: [chunkContent(maxChunkSize)] is
    called with one argument, so [overlap] takes its default. *)
Definition default_overlap : Z := 200.

Fixpoint repeat_char (c : ascii) (n : nat) : string :=
  match n with
  | O => EmptyString
  | S n' => String c (repeat_char c n')
  end.

(** ** The entity *)

(** The four values the [status] field takes. *)
Inductive Status := pending | processing | completed | failed.

#[global] Instance Status_eq_dec : EqDecision Status.
Proof. solve_decision. Defined.

(** [metadata]: the object the [mark...] methods write [result] and
    [error] into. *)
Record Metadata := mkMetadata {
  result : option Json.value;
  error : option string
}.

(** The fields of a document.  [createdAt] and [updatedAt] hold clock
    readings; nothing below reads them and they are left out. *)
Record t := mk {
  id : string;
  name : string;
  content : string;
  contentType : string;
  source : option string;
  status : Status;
  metadata : Metadata
}.

Definition with_status (s : Status) (m : Metadata) (d : t) : t :=
  mk (id d) (name d) (content d) (contentType d) (source d) s m.

(** [markProcessing()] *)
Definition markProcessing (d : t) : t := with_status processing (metadata d) d.

(** [markCompleted(result)]: [this.metadata.result = result] *)
Definition markCompleted (r : Json.value) (d : t) : t :=
  with_status completed (mkMetadata (Some r) (error (metadata d))) d.

(** [markFailed(error)]: [this.metadata.error = error] *)
Definition markFailed (msg : string) (d : t) : t :=
  with_status failed (mkMetadata (result (metadata d)) (Some msg)) d.

(** ** Windows that overlap *)

(** Consecutive windows: the next one starts [overlap] before the end the
    loop computed for the previous one. *)
Inductive overlapping (overlap : Z) : list (Z * Z) -> Prop :=
  | overlapping_nil : overlapping overlap []
  | overlapping_one w : overlapping overlap [w]
  | overlapping_cons s1 e1 s2 e2 ws :
      s2 = e1 - overlap ->
      overlapping overlap ((s2, e2) :: ws) ->
      overlapping overlap ((s1, e1) :: (s2, e2) :: ws).

End Document.

(* ===================================================================== *)
(** * The read path of the file repositories                             *)
(* ===================================================================== *)

(** [FileSystemJobRepository.getAllJobs] and
    [FileSystemDocumentRepository.getAllDocuments] are the same code over
    two file names.  The file system is a finite map from paths to file
    contents; [now] is the reading of [Date.now()] used to name a backup.
    File-system calls that throw are caught by the outermost [try] of the
    method and turned into an empty collection; the map below has no such
    failures, so that branch is reached only through a failing
    [JSON.parse] of the reassembled text. *)

Module Store.
Import Json.

Definition jobsFile : string := "data/jobs.json".
Definition documentsFile : string := "data/documents.json".

(** What [trim()] removes: the white space and line terminators of the
    language that lie below U+0100, which are tab, line feed, vertical
    tab, form feed, carriage return, space and the no-break space. *)
Definition is_space (c : ascii) : bool :=
  is_json_ws c || (code c =? 11) || (code c =? 12) || (code c =? 160).

(** [!data.trim()]: nothing but white space. *)

Fixpoint blank (s : string) : bool :=
  match s with
  | EmptyString => true
  | String c s' => is_space c && blank s'
  end.

(** [fileContent.split('\n')] *)
Fixpoint split_lines (s : string) : list string :=
  match s with
  | EmptyString => [EmptyString]
  | String c s' =>
      if code c =? 10 then EmptyString :: split_lines s'
      else match split_lines s' with
           | l :: ls => String c l :: ls
           | [] => [String c EmptyString]
           end
  end.

(** [validLines.join(',')] *)
Fixpoint join_comma (ls : list string) : string :=
  match ls with
  | [] => EmptyString
  | [l] => l
  | l :: ls' => l +:+ "," +:+ join_comma ls'
  end.

(** The lines on which [JSON.parse(line)] does not throw. *)
Definition validLines (data : string) : list string :=
  filter (fun l => is_Some (parse l)) (split_lines data).

(** [`[${validLines.join(',')}]`] *)
Definition recoveredData (lines : list string) : string :=
  "[" +:+ join_comma lines +:+ "]".

Definition decimal (n : Z) : string := NilZero.string_of_int (Z.to_int n).

(** [`${file}.backup.${Date.now()}`] *)
Definition backupFile (file : string) (now : Z) : string :=
  file +:+ ".backup." +:+ decimal now.

Definition getAll (file : string) (now : Z) (fs : gmap string string)
    : value * gmap string string :=
  match fs !! file with
  | None =>
      (* ENOENT: the file is created holding an empty array *)
      (JArr [], <[file := "[]"%string]> fs)
  | Some data =>
      if blank data then (JArr [], fs)
      else
        match parse data with
        | Some v => (v, fs)
        | None =>
            match validLines data with
            | (_ :: _) as lines =>
                match parse (recoveredData lines) with
                | Some v => (v, fs)
                | None => (JArr [], fs)
                end
            | [] =>
                (JArr [],
                 <[file := "[]"%string]> (<[backupFile file now := data]> fs))
            end
        end
  end.

Definition getAllJobs := getAll jobsFile.
Definition getAllDocuments := getAll documentsFile.

(** The records the valid lines denote, in file order. *)
Definition recordsOfLines (data : string) : list value :=
  omap parse (split_lines data).

(** A string literal of JSON source text: [quoted "id"] is the five
    characters of the key as they stand in a file. *)
Definition quoted (s : string) : string :=
  String "034" (s +:+ String "034" EmptyString).

End Store.
Import Store.

(* ===================================================================== *)
(** * Array helpers shared by the loops over slices                      *)
(* ===================================================================== *)

Module Js.

(** [array.slice(i, j)] for [0 <= i <= j] *)
Definition slice {A} (l : list A) (i j : nat) : list A := take (j - i) (drop i l).

(** The loop [for (let i = i0; i < array.length; i += size)] that collects
    [array.slice(i, i + size)].  [fuel] bounds the number of passes;
    [None] means the bound was reached with the loop condition still true.
    With [size = 0] and a non-empty array the index never moves and the
    condition stays true: the host goes on pushing until the array of
    slices is full (see [Runtime.pushed]). *)
Fixpoint slices_from {A} (fuel : nat) (l : list A) (size i : nat)
    : option (list (list A)) :=
  if (i <? length l)%nat then
    match fuel with
    | O => None
    | S fuel' => cons (slice l i (i + size)) <$> slices_from fuel' l size (i + size)
    end
  else Some [].

(** One pass per element is always enough when the index moves. *)
Definition slices {A} (l : list A) (size : nat) : option (list (list A)) :=
  slices_from (length l) l size 0.

(** Decimal digits of a non-negative counter, as [toString()] prints them. *)
Definition decimal (n : nat) : string := NilZero.string_of_uint (Nat.to_uint n).

(** [s.padStart(n, c)] for a one-character filler *)
Definition padStart (s : string) (n : nat) (c : ascii) : string :=
  Document.repeat_char c (n - String.length s) +:+ s.

(** [array.join(sep)] on strings *)
Fixpoint join (sep : string) (ls : list string) : string :=
  match ls with
  | [] => EmptyString
  | [l] => l
  | l :: ls' => l +:+ sep +:+ join sep ls'
  end.

(** [path.join(a, b)] as far as it puts a separator between its
    arguments.  [path.join] also normalises the result (it drops [.]
    segments and doubled separators and resolves [..]); that step is not
    represented, so a path is here the text before normalisation: the two
    agree on a directory without such segments and a name that is a single
    segment. *)
Definition path_join (a b : string) : string := a +:+ "/" +:+ b.

(** The number of bytes of a text written as UTF-8: a code unit below 128
    takes one byte, the others (below 256 here) two. *)
Fixpoint byteLength (s : string) : nat :=
  match s with
  | EmptyString => 0
  | String c s' =>
      ((if (Json.code c <? 128)%Z then 1 else 2) + byteLength s')%nat
  end.

End Js.

(* ===================================================================== *)
(** * LocalOutputService: the pure part                                  *)
(* ===================================================================== *)

(** What [processDocument] returns for a document it could process.
    [processingTime] is a difference of clock readings and is left out. *)
Record ProcessingResult := mkProcessingResult {
  documentId : string;
  documentName : string;
  extracted : Json.value;
  attempts : Z
}.

Module Output.

Record OutputFile := mkOutputFile {
  fileName : string;
  filePath : string;
  recordCount : nat;
  size : nat
}.

(** The object written to [metadata.json] ([processingTime] and
    [createdAt] are clock readings and are left out). *)
Record Metadata := mkMetadata {
  jobId : string;
  outputFiles : list OutputFile;
  totalRecords : nat;
  totalFiles : nat;
  format : string;
  compression : bool
}.

(** [createShards(results, shardSize)] *)
Definition createShards {A} (results : list A) (shardSize : nat)
    : option (list (list A)) :=
  Js.slices results shardSize.

(** [generateFileName(jobId, shardIndex, format, compression)] *)
Definition generateFileName (jobId : string) (shardIndex : nat)
    (format : string) (compression : bool) : string :=
  let baseName :=
    "results_" +:+ jobId +:+ "_shard_"
    +:+ Js.padStart (Js.decimal shardIndex) 4 "0" in
  let extension := if String.eqb format "jsonl" then "jsonl"%string else format in
  if compression
  then baseName +:+ "." +:+ extension +:+ ".gz"
  else baseName +:+ "." +:+ extension.

End Output.

(* ===================================================================== *)
(** * Job.js                                                             *)
(* ===================================================================== *)

Module Job.
Export Document (Status, pending, processing, completed, failed).

(** [extractionConfig]: the [type] tag (absent when the field is not set)
    and the schema, which the use case hands to the extractor unread. *)
Record ExtractionConfig := mkConfig {
  type : option string;
  schema : option Json.value
}.

(** The object [execute] returns and stores as [metadata.result]. *)
Record Summary := mkSummary {
  jobId : string;
  totalDocuments : Z;
  processedDocuments : Z;
  failedDocuments : Z;
  outputMetadata : Output.Metadata
}.

Record Metadata := mkMetadata {
  result : option Summary;
  error : option string
}.

Record t := mk {
  id : string;
  name : string;
  extractionConfig : ExtractionConfig;
  documentIds : list string;
  status : Status;
  metadata : Metadata
}.

Definition with_status (s : Status) (m : Metadata) (j : t) : t :=
  mk (id j) (name j) (extractionConfig j) (documentIds j) s m.

(** [markProcessing()] *)
Definition markProcessing (j : t) : t := with_status processing (metadata j) j.

(** [markCompleted(result)] *)
Definition markCompleted (r : Summary) (j : t) : t :=
  with_status completed (mkMetadata (Some r) (error (metadata j))) j.

(** [markFailed(error)] *)
Definition markFailed (msg : string) (j : t) : t :=
  with_status failed (mkMetadata (result (metadata j)) (Some msg)) j.

(** The methods a caller can apply to a job, for statements about
    sequences of them. *)
Inductive Op :=
  | OpMarkProcessing
  | OpMarkCompleted (r : Summary)
  | OpMarkFailed (msg : string).

Definition apply_op (j : t) (o : Op) : t :=
  match o with
  | OpMarkProcessing => markProcessing j
  | OpMarkCompleted r => markCompleted r j
  | OpMarkFailed msg => markFailed msg j
  end.

Definition apply_ops (j : t) (ops : list Op) : t := foldl apply_op j ops.

(** Position of a status along pending, processing, then completed or failed. *)
Definition rank (s : Status) : nat :=
  match s with
  | pending => 0
  | processing => 1
  | completed | failed => 2
  end.

Definition terminal (s : Status) : bool :=
  match s with
  | completed | failed => true
  | _ => false
  end.

End Job.

(* ===================================================================== *)
(** * Effects: errors, the stores, the collaborators                     *)
(* ===================================================================== *)

Module Runtime.

(** The errors that travel through the use case.  An [IOError] is what a
    file-system call throws, numbered by the call that threw it; an
    [ExtractorError] is a rejection by the extractor, numbered likewise.
    [RangeError] and [TypeError] are thrown by the host itself: by a push
    onto an array that is full, and by a call of something that is not a
    function. *)
Inductive Error :=
  | IOError (op : nat) (msg : string)
  | JobNotFound (jobId : string)
  | NoDocumentsFound (jobId : string)
  | UnsupportedExtractionType (type : string)
  | ExtractorError (call : nat) (msg : string)
  | CombineError (msg : string)
  | LastErrorUndefined
  | RangeError (msg : string)
  | TypeError (msg : string).

(** [error.message] *)
Definition message (e : Error) : string :=
  match e with
  | IOError _ msg => msg
  | JobNotFound jobId => "Job " +:+ jobId +:+ " not found"
  | NoDocumentsFound jobId => "No documents found for job " +:+ jobId
  | UnsupportedExtractionType t => "Unsupported extraction type: " +:+ t
  | ExtractorError _ msg => msg
  | CombineError msg => msg
  | LastErrorUndefined => "Cannot read properties of undefined (reading 'message')"
  | RangeError msg => msg
  | TypeError msg => msg
  end.

(** What [array.push] throws when the array cannot grow any more. *)
Definition invalidArrayLength : Error := RangeError "Invalid array length".

(** How an [async] call ends: with a value, with a rejection, or not at
    all (a loop that does not stop, a lock that is never released). *)
Inductive Outcome (A : Type) :=
  | Returned (a : A)
  | Thrown (e : Error)
  | Unfinished.
Arguments Returned {A} a.
Arguments Thrown {A} e.
Arguments Unfinished {A}.

(** What happens to be observable of a run, in order. *)
Inductive Event :=
  | EvJobSaved (jobId : string) (s : Document.Status)
  | EvDocumentSaved (documentId : string) (s : Document.Status)
  | EvExtract (documentId : string)
  | EvChunked (documentId : string) (chunks : nat)
  | EvExtractorCall (call : nat) (method : string) (chunk : string).

(** Settings read through [getConfig], and the behaviour of what lies
    outside the program: which file-system calls fail, what the extractor
    answers to its n-th call, how the host prints a record. *)
Record Env := mkEnv {
  maxRetries : Z;
  maxBatchSize : nat;
  maxConcurrentBatches : nat;
  maxConcurrentWorkers : nat;
  maxChunkSize : Z;
  enableChunking : bool;
  outputDirectory : string;
  outputFormat : string;
  compressionEnabled : bool;
  shardSize : nat;
  io_fault : nat -> option string;
  extractor : nat -> string -> string -> Json.value + string;
  mergeSchema : list Json.value -> Json.value + string;
  dedupe : list Json.value -> list Json.value;
  stringify : ProcessingResult -> string;
  stringifyPretty : ProcessingResult -> string;
  csvLine : ProcessingResult -> string;
  stringifyMetadata : Output.Metadata -> string
}.

(** The two collection files (as the arrays they hold), their lock
    markers, the output tree, the writer's in-memory metadata map, the
    counters that number file-system and extractor calls, and the trace.
    A collection file is taken to hold an array of records, as [save]
    writes it; the read path for any other text is followed in [Store],
    and a file whose text parses to something else than an array of
    records (on which [find] and [filter] throw) is not among the states. *)
Record World := mkWorld {
  jobsFile : list Job.t;
  jobsLock : bool;
  documentsFile : list Document.t;
  documentsLock : bool;
  files : gmap string string;
  outputMetadata : gmap string Output.Metadata;
  ioCount : nat;
  extractorCalls : nat;
  trace : list Event
}.

Definition set_jobsFile (v : list Job.t) (w : World) : World :=
  mkWorld v (jobsLock w) (documentsFile w) (documentsLock w) (files w)
    (outputMetadata w) (ioCount w) (extractorCalls w) (trace w).
Definition set_jobsLock (v : bool) (w : World) : World :=
  mkWorld (jobsFile w) v (documentsFile w) (documentsLock w) (files w)
    (outputMetadata w) (ioCount w) (extractorCalls w) (trace w).
Definition set_documentsFile (v : list Document.t) (w : World) : World :=
  mkWorld (jobsFile w) (jobsLock w) v (documentsLock w) (files w)
    (outputMetadata w) (ioCount w) (extractorCalls w) (trace w).
Definition set_documentsLock (v : bool) (w : World) : World :=
  mkWorld (jobsFile w) (jobsLock w) (documentsFile w) v (files w)
    (outputMetadata w) (ioCount w) (extractorCalls w) (trace w).
Definition set_files (v : gmap string string) (w : World) : World :=
  mkWorld (jobsFile w) (jobsLock w) (documentsFile w) (documentsLock w) v
    (outputMetadata w) (ioCount w) (extractorCalls w) (trace w).
Definition set_outputMetadata (v : gmap string Output.Metadata) (w : World) : World :=
  mkWorld (jobsFile w) (jobsLock w) (documentsFile w) (documentsLock w) (files w)
    v (ioCount w) (extractorCalls w) (trace w).
Definition set_ioCount (v : nat) (w : World) : World :=
  mkWorld (jobsFile w) (jobsLock w) (documentsFile w) (documentsLock w) (files w)
    (outputMetadata w) v (extractorCalls w) (trace w).
Definition set_extractorCalls (v : nat) (w : World) : World :=
  mkWorld (jobsFile w) (jobsLock w) (documentsFile w) (documentsLock w) (files w)
    (outputMetadata w) (ioCount w) v (trace w).
Definition set_trace (v : list Event) (w : World) : World :=
  mkWorld (jobsFile w) (jobsLock w) (documentsFile w) (documentsLock w) (files w)
    (outputMetadata w) (ioCount w) (extractorCalls w) v.

(** ** The monad of [async] code *)

Definition M (A : Type) : Type := World -> Outcome A * World.

Definition ret {A} (a : A) : M A := fun w => (Returned a, w).

Definition bind {A B} (m : M A) (k : A -> M B) : M B :=
  fun w =>
    match m w with
    | (Returned a, w') => k a w'
    | (Thrown e, w') => (Thrown e, w')
    | (Unfinished, w') => (Unfinished, w')
    end.

#[export] Instance M_ret : MRet M := @ret.
#[export] Instance M_bind : MBind M := fun A B k m => bind m k.

Definition throw {A} (e : Error) : M A := fun w => (Thrown e, w).
Definition hang {A} : M A := fun w => (Unfinished, w).
Definition gets {A} (f : World -> A) : M A := fun w => (Returned (f w), w).
Definition modify (f : World -> World) : M unit := fun w => (Returned tt, f w).

(** [try { m } catch (error) { h error }] *)
Definition try_catch {A} (m : M A) (h : Error -> M A) : M A :=
  fun w =>
    match m w with
    | (Thrown e, w') => h e w'
    | r => r
    end.

(** [try { m } finally { f }] for a [finally] block that does not throw *)
Definition finally {A} (m : M A) (f : M unit) : M A :=
  fun w =>
    match m w with
    | (Unfinished, w') => (Unfinished, w')
    | (r, w') =>
        match f w' with
        | (Returned _, w'') => (r, w'')
        | (Thrown e, w'') => (Thrown e, w'')
        | (Unfinished, w'') => (Unfinished, w'')
        end
    end.

(** One promise under [Promise.allSettled]: a rejection becomes a settled
    entry without a value. *)
Definition settled {A} (m : M A) : M (option A) :=
  fun w =>
    match m w with
    | (Returned a, w') => (Returned (Some a), w')
    | (Thrown _, w') => (Returned None, w')
    | (Unfinished, w') => (Unfinished, w')
    end.

Definition emit (e : Event) : M unit :=
  modify (fun w => set_trace (trace w ++ [e]) w).

(** [for (const x of xs) { ... }] collecting what each pass returns *)
Fixpoint for_each {A B} (f : A -> M B) (xs : list A) : M (list B) :=
  match xs with
  | [] => mret []
  | x :: xs' => b ← f x; bs ← for_each f xs'; mret (b :: bs)
  end.

(** The groups of a loop that takes one slice per pass and awaits it:
    when the index does not move the loop does not stop. *)
Definition of_option {A} (o : option A) : M A :=
  match o with
  | Some a => mret a
  | None => hang
  end.

(** The array filled by a loop that pushes once per pass.  A loop whose
    condition is still true when the array is full is ended by the push
    that no longer fits, which throws.  (A host that runs out of memory
    before the array is full ends the whole process; that is not
    represented.) *)
Definition pushed {A} (o : option (list A)) : M (list A) :=
  match o with
  | Some l => mret l
  | None => throw invalidArrayLength
  end.

Section WithEnv.
Variable env : Env.

(** A file-system call: it takes the next number and throws if the
    environment says so.  A call that throws has changed nothing: the
    failures covered are those reported before the call takes effect (a
    path that cannot be opened, created, read or removed), not a write
    that breaks off after the file was opened and truncated. *)
Definition fs_call : M unit :=
  fun w =>
    let k := ioCount w in
    match io_fault env k with
    | Some msg => (Thrown (IOError k msg), set_ioCount (S k) w)
    | None => (Returned tt, set_ioCount (S k) w)
    end.

(** The same call inside a [try] whose [catch] swallows the error. *)
Definition fs_call_quiet : M bool :=
  fun w =>
    let k := ioCount w in
    (Returned (match io_fault env k with None => true | Some _ => false end),
     set_ioCount (S k) w).
End WithEnv.

(** Insert, or replace the first record with the same id
    ([findIndex] then assignment or [push]). *)
Definition upsert {A} (key : A -> string) (x : A) (l : list A) : list A :=
  match list_find (fun y => key y = key x) l with
  | Some (i, _) => <[i := x]> l
  | None => l ++ [x]
  end.

(** [array.find(r => r.id === id)] *)
Definition find_by_id {A} (key : A -> string) (id : string) (l : list A)
    : option A :=
  snd <$> list_find (fun y => key y = id) l.

End Runtime.

(* ===================================================================== *)
(** * FileSystemJobRepository, FileSystemDocumentRepository              *)
(* ===================================================================== *)

Module JobRepository.
Import Runtime.
Section WithEnv.
Variable env : Env.

(** [acquireLock()]: create the marker exclusively.  A marker that is
    already there is waited for; in a run where nobody else removes it
    the wait does not end. *)
Definition acquireLock : M bool :=
  _ ← fs_call env;
  held ← gets jobsLock;
  if (held : bool) then hang
  else _ ← modify (set_jobsLock true); mret true.

(** [releaseLock()]: errors of [unlink] are ignored. *)
Definition releaseLock : M unit :=
  ok ← fs_call_quiet env;
  if (ok : bool) then modify (set_jobsLock false) else mret tt.

(** [getAllJobs()] on a well-formed file; a failing read ends in the
    outer [catch], which returns the empty array. *)
Definition getAllJobs : M (list Job.t) :=
  ok ← fs_call_quiet env;
  if (ok : bool) then gets jobsFile else mret [].

(** [save(job)] *)
Definition save (job : Job.t) : M Job.t :=
  lockAcquired ← acquireLock;
  finally
    (jobs ← getAllJobs;
     _ ← fs_call env;
     _ ← modify (set_jobsFile (upsert Job.id job jobs));
     _ ← emit (EvJobSaved (Job.id job) (Job.status job));
     mret job)
    (if (lockAcquired : bool) then releaseLock else mret tt).

(** [findById(id)] *)
Definition findById (id : string) : M (option Job.t) :=
  jobs ← getAllJobs;
  mret (find_by_id Job.id id jobs).
End WithEnv.
End JobRepository.

Module DocumentRepository.
Import Runtime.
Section WithEnv.
Variable env : Env.

Definition acquireLock : M bool :=
  _ ← fs_call env;
  held ← gets documentsLock;
  if (held : bool) then hang
  else _ ← modify (set_documentsLock true); mret true.

Definition releaseLock : M unit :=
  ok ← fs_call_quiet env;
  if (ok : bool) then modify (set_documentsLock false) else mret tt.

Definition getAllDocuments : M (list Document.t) :=
  ok ← fs_call_quiet env;
  if (ok : bool) then gets documentsFile else mret [].

(** [save(document)] *)
Definition save (document : Document.t) : M Document.t :=
  lockAcquired ← acquireLock;
  finally
    (documents ← getAllDocuments;
     _ ← fs_call env;
     _ ← modify (set_documentsFile (upsert Document.id document documents));
     _ ← emit (EvDocumentSaved (Document.id document) (Document.status document));
     mret document)
    (if (lockAcquired : bool) then releaseLock else mret tt).

(** [findByIds(ids)]: the stored documents whose id is among [ids], in
    file order. *)
Definition findByIds (ids : list string) : M (list Document.t) :=
  documents ← getAllDocuments;
  mret (filter (fun d => Document.id d ∈ ids) documents).
End WithEnv.
End DocumentRepository.

(* ===================================================================== *)
(** * LocalOutputService.writeResults                                    *)
(* ===================================================================== *)

Module OutputService.
Import Runtime Output.

(** The [options] argument; a field left out is [None]. *)
Record Options := mkOptions {
  opt_directory : option string;
  opt_format : option string;
  opt_compression : option bool;
  opt_shardSize : option nat
}.

Definition no_options : Options := mkOptions None None None None.

Section WithEnv.
Variable env : Env.

(** [formatResult(result, format)] *)
Definition formatResult (r : ProcessingResult) (format : string) : string :=
  if String.eqb format "jsonl" then stringify env r
  else if String.eqb format "json" then stringifyPretty env r
  else if String.eqb format "csv" then csvLine env r
  else stringify env r.

(** [writeShard(filePath, shard, format, compression)]: both branches of
    the compression test write the same text. *)
Definition writeShard (filePath : string) (shard : list ProcessingResult)
    (format : string) (compression : bool) : M unit :=
  let content :=
    Js.join (String "010" EmptyString)
      (map (fun r => formatResult r format) shard) in
  _ ← fs_call env;
  modify (fun w => set_files (<[filePath := content]> (files w)) w).

(** [getFileSize(filePath)]: the size in bytes that [stat] reports, [0]
    when [stat] throws. *)
Definition getFileSize (filePath : string) : M nat :=
  ok ← fs_call_quiet env;
  fs ← gets files;
  mret (if (ok : bool) then
          match fs !! filePath with
          | Some c => Js.byteLength c
          | None => 0%nat
          end
        else 0%nat).

(** The [for] loop of [writeResults] over the shards, from index [i]. *)
Fixpoint writeShards (jobId jobOutputDir format : string) (compression : bool)
    (i : nat) (shards : list (list ProcessingResult)) : M (list OutputFile) :=
  match shards with
  | [] => mret []
  | shard :: rest =>
      let fileName := generateFileName jobId i format compression in
      let filePath := Js.path_join jobOutputDir fileName in
      _ ← writeShard filePath shard format compression;
      sz ← getFileSize filePath;
      files ← writeShards jobId jobOutputDir format compression (S i) rest;
      mret (mkOutputFile fileName filePath (length shard) sz :: files)
  end.

(** [options.x || getConfig(...)]: an empty string and [0] are falsy. *)
Definition or_string (o : option string) (d : string) : string :=
  match o with
  | Some s => if String.eqb s EmptyString then d else s
  | None => d
  end.

Definition or_nat (o : option nat) (d : nat) : nat :=
  match o with
  | Some O | None => d
  | Some n => n
  end.

(** [writeResults(jobId, results, options)] *)
Definition writeResults (jobId : string) (results : list ProcessingResult)
    (options : Options) : M Metadata :=
  let outputDir := or_string (opt_directory options) (outputDirectory env) in
  let format := or_string (opt_format options) (outputFormat env) in
  let compression :=
    negb (bool_decide (opt_compression options = Some false))
    && compressionEnabled env in
  let shardSize := or_nat (opt_shardSize options) (shardSize env) in
  let jobOutputDir := Js.path_join outputDir jobId in
  _ ← fs_call env;
  shards ← pushed (createShards results shardSize);
  outputFiles ← writeShards jobId jobOutputDir format compression 0 shards;
  let metadata :=
    mkMetadata jobId outputFiles (length results) (length outputFiles)
      format compression in
  let metadataPath := Js.path_join jobOutputDir "metadata.json" in
  _ ← fs_call env;
  _ ← modify (fun w =>
        set_files (<[metadataPath := stringifyMetadata env metadata]> (files w)) w);
  _ ← modify (fun w =>
        set_outputMetadata (<[jobId := metadata]> (outputMetadata w)) w);
  mret metadata.
End WithEnv.
End OutputService.

(* ===================================================================== *)
(** * ProcessJobUseCase                                                  *)
(* ===================================================================== *)

(** Promises that the source starts together ([Promise.allSettled] over a
    group of workers or batches) are run here one after the other, in list
    order, each to its end.  The rate limiter, the backoff sleeps and the
    backpressure pause only pass time and are not represented. *)

Module ProcessJobUseCase.
Import Runtime.

(** The entry pushed for every chunk inside [extractFromDocument]. *)
Record ChunkResult := mkChunkResult {
  chunkIndex : nat;
  chunkSize : nat;
  chunkValue : Json.value
}.

Section WithEnv.
Variable env : Env.
(** The number of elements an array of the host can take (the language
    allows [2^32 - 1], an engine less): the loop of [chunkContent] pushes
    one chunk per pass and can make no more passes than that. *)
Variable fuel : nat.

(** [extractionConfig.type || "schema"] *)
Definition extractionTypeOf (cfg : Job.ExtractionConfig) : string :=
  match Job.type cfg with
  | Some t => if String.eqb t EmptyString then "schema"%string else t
  | None => "schema"%string
  end.

(** One call of a method of the extractor. *)
Definition callExtractor (method chunk : string) : M Json.value :=
  fun w =>
    let k := extractorCalls w in
    let w' := set_trace (trace w ++ [EvExtractorCall k method chunk])
                (set_extractorCalls (S k) w) in
    match extractor env k method chunk with
    | inl v => (Returned v, w')
    | inr msg => (Thrown (ExtractorError k msg), w')
    end.

(** The [switch (extractionType)] in the loop over the chunks. *)
Definition extractChunk (extractionType chunk : string) : M Json.value :=
  if String.eqb extractionType "schema" then callExtractor "extractWithSchema" chunk
  else if String.eqb extractionType "entities" then callExtractor "extractEntities" chunk
  else if String.eqb extractionType "summary" then callExtractor "generateSummary" chunk
  else if String.eqb extractionType "keywords" then callExtractor "extractKeywords" chunk
  else throw (UnsupportedExtractionType extractionType).

Fixpoint extractChunks (extractionType : string) (i : nat)
    (chunks : list string) : M (list ChunkResult) :=
  match chunks with
  | [] => mret []
  | chunk :: rest =>
      r ← extractChunk extractionType chunk;
      rs ← extractChunks extractionType (S i) rest;
      mret (mkChunkResult i (String.length chunk) r :: rs)
  end.

Definition arrayItems (v : Json.value) : list Json.value :=
  match v with
  | Json.JArr items => items
  | _ => []
  end.

Definition chunkResultJson (cr : ChunkResult) : Json.value :=
  Json.JObj [("chunkIndex"%string, Json.JNum (Js.decimal (chunkIndex cr)));
             ("chunkSize"%string, Json.JNum (Js.decimal (chunkSize cr)));
             ("result"%string, chunkValue cr)].

(** [combineChunkResults(chunkResults, extractionType)].  The merge of
    schema results (field maps and the mean of the confidences) and the
    removal of duplicate keywords are operations of the host on values
    and are taken from the environment. *)
Definition combineChunkResults (chunkResults : list ChunkResult)
    (extractionType : string) : M Json.value :=
  match chunkResults with
  | [cr] => mret (chunkValue cr)
  | _ =>
      if String.eqb extractionType "schema" then
        match mergeSchema env (map chunkValue chunkResults) with
        | inl v => mret v
        | inr msg => throw (CombineError msg)
        end
      else if String.eqb extractionType "entities" then
        mret (Json.JArr (flat_map (fun cr => arrayItems (chunkValue cr)) chunkResults))
      else if String.eqb extractionType "summary" then
        match chunkResults with
        | cr :: _ => mret (chunkValue cr)
        | [] => throw (CombineError "Cannot read properties of undefined (reading 'result')")
        end
      else if String.eqb extractionType "keywords" then
        mret (Json.JArr
                (dedupe env (flat_map (fun cr => arrayItems (chunkValue cr)) chunkResults)))
      else mret (Json.JArr (map chunkResultJson chunkResults))
  end.

(** [extractFromDocument(job, document)].  Turning the stored schema back
    into an [ExtractionSchema] has no effect the rest can see. *)
Definition extractFromDocument (job : Job.t) (document : Document.t)
    : M Json.value :=
  _ ← emit (EvExtract (Document.id document));
  let extractionType := extractionTypeOf (Job.extractionConfig job) in
  let content := Document.content document in
  chunks ←
    (if enableChunking env && Document.needsChunking content (maxChunkSize env)
     then
       cs ← pushed (Document.chunkContent fuel content (maxChunkSize env)
                         Document.default_overlap);
       _ ← emit (EvChunked (Document.id document) (length cs));
       mret cs
     else mret [content]);
  results ← extractChunks extractionType 0 chunks;
  combineChunkResults results extractionType.

(** The body of the [try] in [processDocument], for one value of
    [attempt].  The document object is changed in place by the
    [mark...] calls, so the state it is left in is returned next to the
    outcome. *)
Definition attemptOnce (job : Job.t) (attempt : Z) (document : Document.t)
    : World -> Document.t * Outcome ProcessingResult * World :=
  fun w =>
    let d1 := Document.markProcessing document in
    match DocumentRepository.save env d1 w with
    | (Returned _, w1) =>
        match extractFromDocument job d1 w1 with
        | (Returned r, w2) =>
            let d2 := Document.markCompleted r d1 in
            match DocumentRepository.save env d2 w2 with
            | (Returned _, w3) =>
                (d2,
                 Returned (mkProcessingResult (Document.id d2) (Document.name d2)
                             r (attempt + 1)),
                 w3)
            | (Thrown e, w3) => (d2, Thrown e, w3)
            | (Unfinished, w3) => (d2, Unfinished, w3)
            end
        | (Thrown e, w2) => (d1, Thrown e, w2)
        | (Unfinished, w2) => (d1, Unfinished, w2)
        end
    | (Thrown e, w1) => (d1, Thrown e, w1)
    | (Unfinished, w1) => (d1, Unfinished, w1)
    end.

(** The [for (attempt = ...; attempt <= maxRetries; attempt++)] loop with
    [remaining] passes to go, and the code after it. *)
Fixpoint retryLoop (job : Job.t) (remaining : nat) (attempt : Z)
    (document : Document.t) (lastError : option Error)
    : M (Document.t * option ProcessingResult) :=
  match remaining with
  | O =>
      match lastError with
      | Some e =>
          let d := Document.markFailed (message e) document in
          _ ← DocumentRepository.save env d;
          mret (d, None)
      | None => throw LastErrorUndefined
      end
  | S remaining' =>
      fun w =>
        match attemptOnce job attempt document w with
        | (d, Returned r, w') => (Returned (d, Some r), w')
        | (d, Thrown e, w') =>
            retryLoop job remaining' (attempt + 1) d (Some e) w'
        | (_, Unfinished, w') => (Unfinished, w')
        end
  end.

(** [processDocument(job, document)]: the result or [null], and the
    document object as the call leaves it. *)
Definition processDocument (job : Job.t) (document : Document.t)
    : M (Document.t * option ProcessingResult) :=
  retryLoop job (Z.to_nat (maxRetries env + 1)) 0 document None.

(** The [forEach] over settled workers: fulfilled with a value. *)
Definition fulfilledResults
    (settledWorkers : list (option (Document.t * option ProcessingResult)))
    : list ProcessingResult :=
  omap (fun s => match s with
                 | Some (_, Some r) => Some r
                 | _ => None
                 end) settledWorkers.

(** [processBatch(job, batch, maxConcurrentWorkers, rateLimitPerSecond)].
    The loop takes one group of workers per pass and awaits it; with
    [maxConcurrentWorkers] at 0 the group is empty and the index does not
    move, so the loop does not stop. *)
Definition processBatch (job : Job.t) (batch : list Document.t)
    : M (list ProcessingResult) :=
  workerGroups ← of_option (Js.slices batch (maxConcurrentWorkers env));
  perGroup ←
    for_each (fun workerGroup =>
                workerResults ←
                  for_each (fun document => settled (processDocument job document))
                    workerGroup;
                mret (fulfilledResults workerResults))
      workerGroups;
  mret (concat perGroup).

(** [createBatches(documents, batchSize)] *)
Definition createBatches (documents : list Document.t) (batchSize : nat)
    : option (list (list Document.t)) :=
  Js.slices documents batchSize.

(** [processDocuments(job, documents)].  The batches come from
    [createBatches], whose loop pushes a batch per pass; the loop over the
    groups of batches awaits each group and, with [maxConcurrentBatches]
    at 0, does not stop. *)
Definition processDocuments (job : Job.t) (documents : list Document.t)
    : M (list ProcessingResult) :=
  batches ← pushed (createBatches documents (maxBatchSize env));
  batchGroups ← of_option (Js.slices batches (maxConcurrentBatches env));
  perGroup ←
    for_each (fun batchGroup =>
                batchResults ←
                  for_each (fun batch => settled (processBatch job batch)) batchGroup;
                mret (concat (omap id batchResults)))
      batchGroups;
  mret (concat perGroup).

(** [getDocumentsForJob(job)] *)
Definition getDocumentsForJob (job : Job.t) : M (list Document.t) :=
  match Job.documentIds job with
  | [] => mret []
  | ids => DocumentRepository.findByIds env ids
  end.

(** The [try] block of [execute]. *)
Definition executeBody (jobId : string) : M Job.Summary :=
  found ← JobRepository.findById env jobId;
  match found with
  | None => throw (JobNotFound jobId)
  | Some job =>
      let job := Job.markProcessing job in
      _ ← JobRepository.save env job;
      documents ← getDocumentsForJob job;
      match documents with
      | [] => throw (NoDocumentsFound jobId)
      | _ =>
          results ← processDocuments job documents;
          outputMetadata ←
            OutputService.writeResults env jobId results OutputService.no_options;
          let processingResult :=
            Job.mkSummary jobId
              (Z.of_nat (length documents))
              (Z.of_nat (length results))
              (Z.of_nat (length documents) - Z.of_nat (length results))
              outputMetadata in
          _ ← JobRepository.save env (Job.markCompleted processingResult job);
          mret processingResult
      end
  end.

(** The [catch] block of [execute]. *)
Definition executeHandler (jobId : string) (error : Error) : M Job.Summary :=
  found ← JobRepository.findById env jobId;
  match found with
  | Some job =>
      _ ← JobRepository.save env (Job.markFailed (message error) job);
      throw error
  | None => throw error
  end.

(** [execute(jobId)] *)
Definition execute (jobId : string) : M Job.Summary :=
  try_catch (executeBody jobId) (executeHandler jobId).

End WithEnv.
End ProcessJobUseCase.

(* ===================================================================== *)
(** * Reading a run                                                      *)
(* ===================================================================== *)

(** Functions that read the trace of a run, and the record of what each
    attempt at a document gave; the statements about the use case are
    written with them. *)

Module Observe.
Import Runtime ProcessJobUseCase.
Import Document (pending, processing, completed, failed).

(** How many times [extractFromDocument] was entered for a document. *)
Fixpoint extraction_count (documentId : string) (tr : list Event) : nat :=
  match tr with
  | [] => 0
  | EvExtract i :: tr' =>
      ((if String.eqb i documentId then 1 else 0) + extraction_count documentId tr')%nat
  | _ :: tr' => extraction_count documentId tr'
  end.

(** The outcome of every pass of the retry loop of [processDocument], in
    order: the loop goes on after a rejection and stops at the first pass
    that returns (or does not finish). *)
Fixpoint attemptLog (env : Env) (fuel : nat) (job : Job.t) (remaining : nat)
    (attempt : Z) (document : Document.t) (w : World)
    : list (Outcome ProcessingResult) :=
  match remaining with
  | O => []
  | S remaining' =>
      match attemptOnce env fuel job attempt document w with
      | (_, Returned r, _) => [Returned r]
      | (d, Thrown e, w') =>
          Thrown e :: attemptLog env fuel job remaining' (attempt + 1) d w'
      | (_, Unfinished, _) => [Unfinished]
      end
  end.


Definition is_rejection {A} (o : Outcome A) : Prop :=
  match o with
  | Thrown _ => True
  | _ => False
  end.

(** Extraction from this document is rejected whenever it is tried,
    whatever state the document object and the stores are in. *)
Definition extraction_always_fails (env : Env) (fuel : nat) (job : Job.t)
    (document : Document.t) : Prop :=
  forall d w,
    Document.id d = Document.id document ->
    Document.content d = Document.content document ->
    exists e w', extractFromDocument env fuel job d w = (Thrown e, w').

(** The status under which a document is stored. *)
Definition stored_status (w : World) (documentId : string)
    : option Document.Status :=
  Document.status <$> find_by_id Document.id documentId (documentsFile w).

(** The documents of a list that are stored under a given status. *)
Definition stored_as (s : Document.Status) (w : World)
    (documents : list Document.t) : list Document.t :=
  filter (fun d => stored_status w (Document.id d) = Some s) documents.

(** ** Stores that work *)

(** No file-system call fails. *)
Definition no_faults (env : Env) : Prop := forall k, io_fault env k = None.

(** The world after [DocumentRepository.save] went through. *)
Definition document_saved (d : Document.t) (w : World) : World :=
  mkWorld (jobsFile w) (jobsLock w)
    (upsert Document.id d (documentsFile w)) false
    (files w) (outputMetadata w) (4 + ioCount w) (extractorCalls w)
    (trace w ++ [EvDocumentSaved (Document.id d) (Document.status d)]).

(** The world after [JobRepository.save] went through. *)
Definition job_saved (j : Job.t) (w : World) : World :=
  mkWorld (upsert Job.id j (jobsFile w)) false
    (documentsFile w) (documentsLock w)
    (files w) (outputMetadata w) (4 + ioCount w) (extractorCalls w)
    (trace w ++ [EvJobSaved (Job.id j) (Job.status j)]).

(** ** What code leaves unchanged, and code that ends *)

(** [m] relates the world it starts in to the world it ends in by [R],
    however it ends. *)
Definition preserves {A} (R : relation World) (m : M A) : Prop :=
  forall w o w', m w = (o, w') -> R w w'.

(** [m] ends: it returns or throws. *)
Definition finishes {A} (m : M A) : Prop := forall w w', m w <> (Unfinished, w').

(** [m] followed by a pure function on its value. *)
Definition mmap {A B} (f : A -> B) (m : M A) : M B := m ≫= fun a => mret (f a).

(** ** The job collection *)

(** The statuses written to the job collection, oldest first. *)
Definition job_statuses (tr : list Event) : list Document.Status :=
  omap (fun e => match e with EvJobSaved _ s => Some s | _ => None end) tr.

Definition is_job_event (e : Event) : bool :=
  match e with EvJobSaved _ _ => true | _ => false end.

(** Runs that leave the job collection and its history as they were. *)
Definition job_quiet (w w' : World) : Prop :=
  jobsFile w' = jobsFile w /\ jobsLock w' = jobsLock w
  /\ job_statuses (trace w') = job_statuses (trace w).

(** ** What extraction changes *)

Definition is_detail (e : Event) : Prop :=
  match e with
  | EvChunked _ _ | EvExtractorCall _ _ _ => True
  | _ => False
  end.

(** Only the extractor's call counter moves, and the trace grows by
    chunking and call events. *)
Definition detail_only (w w' : World) : Prop :=
  exists n evs,
    w' = set_extractorCalls n (set_trace (trace w ++ evs) w)
    /\ Forall is_detail evs.

(** ** The use case *)

(** The extraction types [extractChunk] has a case for. *)
Definition supportedTypes : list string :=
  ["schema"; "entities"; "summary"; "keywords"]%string.

(** The world after [getDocumentsForJob]: one read, unless the job has no
    document ids. *)
Definition docs_world (job : Job.t) (w : World) : World :=
  match Job.documentIds job with
  | [] => w
  | _ => set_ioCount (S (ioCount w)) w
  end.

(** The documents a job resolves to. *)
Definition resolvedDocuments (job : Job.t) (w : World) : list Document.t :=
  filter (fun d => Document.id d ∈ Job.documentIds job) (documentsFile w).

(** The world in which [processDocuments] starts: the job was read, saved
    as processing, and its documents were read. *)
Definition processing_started (job : Job.t) (w : World) : World :=
  docs_world (Job.markProcessing job)
    (job_saved (Job.markProcessing job) (set_ioCount (S (ioCount w)) w)).

(** What processing one document leaves behind when the stores work. *)
Definition document_processed (d d' : Document.t) (res : option ProcessingResult)
    (w w' : World) : Prop :=
  documentsLock w' = false
  /\ job_quiet w w'
  /\ Document.id d' = Document.id d
  /\ (forall i,
        find_by_id Document.id i (documentsFile w')
        = if decide (Document.id d = i) then Some d'
          else find_by_id Document.id i (documentsFile w))
  /\ match res with
     | Some r => Document.status d' = completed /\ documentId r = Document.id d
     | None => Document.status d' = failed
     end.

Section Run.
Variable env : Env.
Variable fuel : nat.

(** The documents of a list, each processed to its end, in order. *)
Definition processEach (job : Job.t) (documents : list Document.t)
    : M (list (option (Document.t * option ProcessingResult))) :=
  for_each (fun document => settled (processDocument env fuel job document))
    documents.

(** What is known of one document after the whole list was processed. *)
Definition document_summary (job : Job.t) (w' : World) (d : Document.t)
    (s : option (Document.t * option ProcessingResult)) : Prop :=
  exists d' res,
    s = Some (d', res)
    /\ find_by_id Document.id (Document.id d) (documentsFile w') = Some d'
    /\ match res with
       | Some r => Document.status d' = completed /\ documentId r = Document.id d
       | None => Document.status d' = failed
       end
    /\ (extraction_always_fails env fuel job d -> res = None).

End Run.

End Observe.
(* ===================================================================== *)
(** * What writeResults leaves on disk                                   *)
(* ===================================================================== *)

Module Written.
Import Runtime Output OutputService.

Section Writer.
Variable env : Env.
Variables (jobId dir format : string) (compression : bool).

(** Where shard [i] is written. *)
Definition shardPath (i : nat) : string :=
  Js.path_join dir (generateFileName jobId i format compression).

(** The text [writeShard] writes for a shard. *)
Definition shardText (shard : list ProcessingResult) : string :=
  Js.join (String "010" EmptyString)
    (map (fun r => formatResult env r format) shard).

Fixpoint shardEntries (i : nat) (shards : list (list ProcessingResult))
    : list OutputFile :=
  match shards with
  | [] => []
  | shard :: rest =>
      mkOutputFile (generateFileName jobId i format compression) (shardPath i)
        (length shard) (Js.byteLength (shardText shard))
      :: shardEntries (S i) rest
  end.

Fixpoint shardsWritten (i : nat) (shards : list (list ProcessingResult))
    (fs : gmap string string) : gmap string string :=
  match shards with
  | [] => fs
  | shard :: rest => shardsWritten (S i) rest (<[shardPath i := shardText shard]> fs)
  end.

End Writer.

Section WriteResults.
Variable env : Env.
Variables (jobId : string) (options : Options).

(** The options of a call, after the defaults of the configuration. *)
Definition resolvedDirectory : string :=
  Js.path_join (or_string (opt_directory options) (outputDirectory env)) jobId.
Definition resolvedFormat : string :=
  or_string (opt_format options) (outputFormat env).
Definition resolvedCompression : bool :=
  negb (bool_decide (opt_compression options = Some false))
  && compressionEnabled env.
Definition resolvedShardSize : nat :=
  or_nat (opt_shardSize options) (shardSize env).
Definition metadataPath : string :=
  Js.path_join resolvedDirectory "metadata.json".

(** The metadata [writeResults] returns and stores. *)
Definition metadataOf (results : list ProcessingResult)
    (shards : list (list ProcessingResult)) : Metadata :=
  mkMetadata jobId
    (shardEntries env jobId resolvedDirectory resolvedFormat resolvedCompression 0 shards)
    (length results) (length shards) resolvedFormat resolvedCompression.

(** The world after [writeResults] went through. *)
Definition resultsWritten (results : list ProcessingResult)
    (shards : list (list ProcessingResult)) (w : World) : World :=
  let md := metadataOf results shards in
  set_outputMetadata (<[jobId := md]> (outputMetadata w))
    (set_files
       (<[metadataPath := stringifyMetadata env md]>
          (shardsWritten env jobId resolvedDirectory resolvedFormat
             resolvedCompression 0 shards (files w)))
       (set_ioCount (2 * length shards + 2 + ioCount w) w)).

End WriteResults.

(** The extension [generateFileName] ends a name with. *)
Definition fileSuffix (format : string) (compression : bool) : string :=
  let extension := if String.eqb format "jsonl" then "jsonl"%string else format in
  if compression then "." +:+ extension +:+ ".gz" else "." +:+ extension.

End Written.

(* ===================================================================== *)
(** * Sample configurations, records and stores                          *)
(* ===================================================================== *)

Module Samples.
Import Runtime.
Import Document (pending, processing, completed, failed).

(** A collection file whose second line was cut short. *)
Definition mixed_file : string :=
  "{" +:+ Store.quoted "id" +:+ ":" +:+ Store.quoted "d1" +:+ "}"
  +:+ String "010" ("{" +:+ Store.quoted "id" +:+ ":").

(** The extractor returns each chunk as it is; no call fails. *)
Definition sample_env : Env :=
  mkEnv 3 100 10 50 4000 true "./output" "jsonl" true 2
    (fun _ => None)
    (fun _ _ chunk => inl (Json.JStr chunk))
    (fun vs => inl (Json.JArr vs)) (fun vs => vs)
    documentId documentId documentId (fun md => Output.jobId md).

Definition sample_result (n : string) : ProcessingResult :=
  mkProcessingResult n n Json.JNull 1.

Definition sample_world : World := mkWorld [] false [] false ∅ ∅ 0 0 [].

Definition one_job (s : Document.Status) : Job.t :=
  Job.mk "j1" "job" (Job.mkConfig (Some "entities"%string) None) ["d1"%string]
    s (Job.mkMetadata None None).

Definition one_document : Document.t :=
  Document.mk "d1" "first" "some text" "text/plain" None pending
    (Document.mkMetadata None None).

Definition one_job_world (s : Document.Status) : World :=
  mkWorld [one_job s] false [one_document] false ∅ ∅ 0 0 [].

Definition long_document : Document.t :=
  Document.mk "d1" "long" (Document.repeat_char "a" 4100) "text/plain" None
    Document.pending (Document.mkMetadata None None).

Definition job_of_type (t : option string) : Job.t :=
  Job.mk "j1" "job" (Job.mkConfig t None) ["d1"%string] Document.pending
    (Job.mkMetadata None None).

Definition empty_type : string := EmptyString.

(** The output directory cannot be created: call 14 is the [mkdir] of
    [writeResults] in a run over one document. *)
Definition mkdir_fails_env : Env :=
  mkEnv 3 100 10 50 4000 true "./output" "jsonl" true 2
    (fun k => if (k =? 14)%nat then Some "ENOSPC"%string else None)
    (fun _ _ chunk => inl (Json.JStr chunk))
    (fun vs => inl (Json.JArr vs)) (fun vs => vs)
    documentId documentId documentId (fun md => Output.jobId md).


Definition job_with_ids (ids : list string) : Job.t :=
  Job.mk "j1" "job" (Job.mkConfig (Some "entities"%string) None) ids
    pending (Job.mkMetadata None None).

Definition world_with_ids (ids : list string) : World :=
  mkWorld [job_with_ids ids] false [one_document] false ∅ ∅ 0 0 [].

(** The extractor rejects every call. *)
Definition failing_extractor_env (retries : Z) : Env :=
  mkEnv retries 100 10 50 4000 true "./output" "jsonl" true 2
    (fun _ => None)
    (fun _ _ _ => inr "extractor down"%string)
    (fun vs => inl (Json.JArr vs)) (fun vs => vs)
    documentId documentId documentId (fun md => Output.jobId md).

(** The extractor rejects one text and accepts every other. *)
Definition picky_env : Env :=
  mkEnv 3 2 10 2 4000 true "./output" "jsonl" true 2
    (fun _ => None)
    (fun _ _ chunk =>
       if String.eqb chunk "bad text" then inr "cannot extract"%string
       else inl (Json.JStr chunk))
    (fun vs => inl (Json.JArr vs)) (fun vs => vs)
    documentId documentId documentId (fun md => Output.jobId md).

Definition text_document (i text : string) : Document.t :=
  Document.mk i i text "text/plain" None pending (Document.mkMetadata None None).

Definition three_documents_world : World :=
  mkWorld [job_with_ids ["d1"; "d2"; "d3"]%string] false
    [text_document "d1" "text one"; text_document "d2" "bad text";
     text_document "d3" "text three"]
    false ∅ ∅ 0 0 [].

End Samples.

(* ===================================================================== *)
(** * utils/response.js and JobController                                *)
(* ===================================================================== *)

(** The parsed form of a response: the status code and the fields of the
    object that [JSON.stringify] turns into the body.  The headers are
    constants and the timestamp is a clock reading; both are left out. *)
Module Response.
Import Runtime.

(** [error?.message || error]: the message, or the error object itself
    when its message is the empty string. *)
Inductive ErrorField :=
  | ErrorMessage (msg : string)
  | ErrorObject (e : Error).

Record t (A : Type) := mk {
  statusCode : nat;
  succeeded : bool;
  message : string;
  data : option A;
  errorField : option ErrorField
}.
Arguments mk {A} statusCode succeeded message data errorField.
Arguments statusCode {A} _.
Arguments succeeded {A} _.
Arguments message {A} _.
Arguments data {A} _.
Arguments errorField {A} _.

(** [success(statusCode, data, message)]; a [message] left out is
    ["Success"]. *)
Definition success {A} (code : nat) (d : option A) (msg : option string) : t A :=
  mk code true (default "Success"%string msg) d None.

(** [error(statusCode, message, error)] *)
Definition error {A} (code : nat) (msg : string) (e : option Error) : t A :=
  mk code false msg None
    (match e with
     | None => None
     | Some e =>
         Some (if String.eqb (Runtime.message e) EmptyString
               then ErrorObject e
               else ErrorMessage (Runtime.message e))
     end).

(** The helpers of [responses] that the job controller uses. *)
Definition ok {A} (d : A) (msg : option string) : t A := success 200 (Some d) msg.
Definition badRequest {A} (msg : string) : t A := error 400 msg None.
Definition notFound {A} (msg : string) : t A := error 404 msg None.

(** [internalError: (message, error) => error(500, message, error)]: the
    parameter [error] hides the helper of the same name, so what is called
    is the caught error object, which is not a function. *)
Definition notAFunction : Error := TypeError "error is not a function".

Definition internalError {A} (msg : string) (e : Error) : M (t A) :=
  throw notAFunction.

End Response.

Module JobController.
Import Runtime.

Section WithEnv.
Variable env : Env.
Variable fuel : nat.

(** [processJob(event)]; [jobId] is [event.pathParameters?.id], which is
    absent or a string. *)
Definition processJob (jobId : option string) : M (Response.t Job.Summary) :=
  try_catch
    (match jobId with
     | None => mret (Response.badRequest "Job ID is required")
     | Some jobId =>
         if String.eqb jobId EmptyString
         then mret (Response.badRequest "Job ID is required")
         else
           job ← JobRepository.findById env jobId;
           match job with
           | None => mret (Response.notFound "Job not found")
           | Some _ =>
               result ← ProcessJobUseCase.execute env fuel jobId;
               mret (Response.ok result (Some "Job processed successfully"%string))
           end
     end)
    (fun error => Response.internalError "Internal server error" error).

End WithEnv.
End JobController.

(* ===================================================================== *)
(** * LocalOutputService.scanOutputDirectory                             *)
(* ===================================================================== *)

Module OutputScan.
Import Runtime Output.

(** [s.endsWith(suffix)] *)
Definition endsWith (s suffix : string) : bool :=
  let n := String.length s in
  let m := String.length suffix in
  (m <=? n)%nat && String.eqb (String.substring (n - m) m s) suffix.

(** [s.trim()] *)
Fixpoint trimStart (s : string) : string :=
  match s with
  | EmptyString => EmptyString
  | String c s' => if Store.is_space c then trimStart s' else s
  end.

Fixpoint trimEnd (s : string) : string :=
  match s with
  | EmptyString => EmptyString
  | String c s' =>
      match trimEnd s' with
      | EmptyString => if Store.is_space c then EmptyString else String c EmptyString
      | t => String c t
      end
  end.

Definition trim (s : string) : string := trimEnd (trimStart s).

(** [content.trim().split("\n").filter((line) => line.trim()).length] *)
Definition countRecords (content : string) : nat :=
  length (filter (fun line => negb (Store.blank line))
            (Store.split_lines (trim content))).

Section WithEnv.
Variable env : Env.

(** The loop over what [readdir] returned.  A [readFile] that fails ends
    the loop with its error. *)
Fixpoint scanFiles (jobOutputDir : string) (listing : list string)
    : M (list OutputFile) :=
  match listing with
  | [] => mret []
  | file :: rest =>
      if endsWith file ".jsonl" || endsWith file ".json" || endsWith file ".csv"
      then
        let filePath := Js.path_join jobOutputDir file in
        size ← OutputService.getFileSize env filePath;
        _ ← fs_call env;
        found ← gets (fun w => (ioCount w, files w !! filePath));
        match found with
        | (k, None) => throw (IOError (pred k) "ENOENT")
        | (_, Some content) =>
            entries ← scanFiles jobOutputDir rest;
            mret (mkOutputFile file filePath (countRecords content) size :: entries)
        end
      else scanFiles jobOutputDir rest
  end.

(** The metadata returned when the directory cannot be read. *)
Definition emptyScan (jobId : string) : Metadata :=
  mkMetadata jobId [] 0 0 "jsonl" false.

(** [scanOutputDirectory(jobId)]; [listing] is what [readdir] returns for
    the directory of the job when it does not fail. *)
Definition scanOutputDirectory (jobId : string) (listing : list string)
    : M Metadata :=
  let jobOutputDir := Js.path_join (outputDirectory env) jobId in
  try_catch
    (_ ← fs_call env;
     outputFiles ← scanFiles jobOutputDir listing;
     mret (mkMetadata jobId outputFiles
             (foldr Nat.add 0%nat (map recordCount outputFiles))
             (length outputFiles) "jsonl" false))
    (fun _ => mret (emptyScan jobId)).

End WithEnv.
End OutputScan.

(* ===================================================================== *)
(** * LocalOutputService.getOutputInfo                                   *)
(* ===================================================================== *)

Module OutputInfo.
Import Runtime Output.

Section WithEnv.
Variable env : Env.
(** [JSON.parse] on the text of a metadata file, as far as it gives an
    object to return. *)
Variable parseMetadata : string -> option Metadata.

(** [getOutputInfo(jobId)]: the entry of the in-memory map if there is
    one; otherwise the metadata file under the configured output
    directory, which is then remembered; otherwise a scan of the
    directory.  [listing] is what [readdir] returns for that scan. *)
Definition getOutputInfo (jobId : string) (listing : list string) : M Metadata :=
  cached ← gets (fun w => outputMetadata w !! jobId);
  match cached with
  | Some metadata => mret metadata
  | None =>
      let jobOutputDir := Js.path_join (outputDirectory env) jobId in
      let metadataPath := Js.path_join jobOutputDir "metadata.json" in
      ok ← fs_call_quiet env;
      content ← gets (fun w => files w !! metadataPath);
      match (if (ok : bool) then content ≫= parseMetadata else None) with
      | Some metadata =>
          _ ← modify (fun w =>
                set_outputMetadata (<[jobId := metadata]> (outputMetadata w)) w);
          mret metadata
      | None => OutputScan.scanOutputDirectory env jobId listing
      end
  end.

End WithEnv.
End OutputInfo.

(* ===================================================================== *)
(** * Further vocabulary for the statements                              *)
(* ===================================================================== *)

Module Vocabulary.
Import Runtime.

(** The method of the extractor that the [switch] of
    [extractFromDocument] calls for an extraction type. *)
Definition methodOf (extractionType : string) : option string :=
  if String.eqb extractionType "schema" then Some "extractWithSchema"%string
  else if String.eqb extractionType "entities" then Some "extractEntities"%string
  else if String.eqb extractionType "summary" then Some "generateSummary"%string
  else if String.eqb extractionType "keywords" then Some "extractKeywords"%string
  else None.

(** Lines as [JSON.stringify] prints a record: not empty, no white space
    at either end, no line break inside. *)
Fixpoint has_newline (s : string) : bool :=
  match s with
  | EmptyString => false
  | String c s' => (Json.code c =? 10) || has_newline s'
  end.

Definition starts_solid (s : string) : bool :=
  match s with
  | EmptyString => false
  | String c _ => negb (Store.is_space c)
  end.

Fixpoint ends_solid (s : string) : bool :=
  match s with
  | EmptyString => false
  | String c EmptyString => negb (Store.is_space c)
  | String _ s' => ends_solid s'
  end.

Definition record_line (s : string) : bool :=
  starts_solid s && ends_solid s && negb (has_newline s).

End Vocabulary.

(* ===================================================================== *)
(** * Facts about string concatenation                                   *)
(* ===================================================================== *)

Module StringFacts.

Lemma append_nil b : EmptyString +:+ b = b.
Proof. reflexivity. Qed.

Lemma append_cons c a b : String c a +:+ b = String c (a +:+ b).
Proof. reflexivity. Qed.

Lemma append_assoc a b c : (a +:+ b) +:+ c = a +:+ (b +:+ c).
Proof.
  induction a as [|x a IH]; [reflexivity|].
  by rewrite !append_cons, IH.
Qed.

Lemma append_inj s a b : s +:+ a = s +:+ b -> a = b.
Proof.
  induction s as [|x s IH]; [done|].
  rewrite !append_cons. intros [= H]. by apply IH.
Qed.

Lemma append_length a b :
  String.length (a +:+ b) = (String.length a + String.length b)%nat.
Proof.
  induction a as [|x a IH]; [done|].
  rewrite append_cons. simpl. by rewrite IH.
Qed.

End StringFacts.

(* ===================================================================== *)
(** * Facts about Document.chunkContent                                  *)
(* ===================================================================== *)

Module DocumentFacts.
Import Document.

Section Advance.
Variable content : string.
Variables maxChunkSize overlap : Z.
Hypothesis max_pos : 0 < maxChunkSize.
Hypothesis overlap_small : 5 * overlap < 4 * maxChunkSize.

(** Whichever branch fixes [end], it lies more than [overlap] beyond [start]. *)
Lemma next_start_advances start :
  start < next_start content maxChunkSize overlap start.
Proof.
  unfold next_start, window_end.
  destruct (start + maxChunkSize <? strlen content); [|lia].
  destruct (5 * start + 4 * maxChunkSize <? 5 * _) eqn:Hbreak; [|lia].
  apply Z.ltb_lt in Hbreak. lia.
Qed.

Lemma chunk_loop_enough_fuel fuel start :
  (Z.to_nat (strlen content - start) <= fuel)%nat ->
  is_Some (chunk_loop fuel content maxChunkSize overlap start).
Proof.
  revert start. induction fuel as [|fuel IH]; intros start Hfuel; simpl.
  - destruct (start <? strlen content) eqn:Hlt; [|by eexists].
    apply Z.ltb_lt in Hlt. lia.
  - destruct (start <? strlen content) eqn:Hlt; [|by eexists].
    apply Z.ltb_lt in Hlt.
    pose proof (next_start_advances start) as Hadv. unfold next_start in Hadv.
    destruct (IH (window_end content maxChunkSize start - overlap)) as [l Hl];
      [lia|].
    rewrite Hl. by eexists.
Qed.
End Advance.

(** More fuel never changes a result that was already reached. *)
Lemma chunk_loop_fuel_mono content maxChunkSize overlap fuel fuel' start l :
  chunk_loop fuel content maxChunkSize overlap start = Some l ->
  (fuel <= fuel')%nat ->
  chunk_loop fuel' content maxChunkSize overlap start = Some l.
Proof.
  revert fuel' start l.
  induction fuel as [|fuel IH]; intros fuel' start l; simpl.
  - destruct (start <? strlen content) eqn:Hlt; [discriminate|].
    intros [= <-] _. destruct fuel'; simpl; by rewrite Hlt.
  - destruct (start <? strlen content) eqn:Hlt.
    + destruct (chunk_loop fuel _ _ _ _) as [tl|] eqn:Htl; [|discriminate].
      intros [= <-] Hle. destruct fuel' as [|fuel']; [lia|]. simpl.
      rewrite Hlt. rewrite (IH fuel' _ tl Htl); [done|lia].
    + intros [= <-] _. destruct fuel'; simpl; by rewrite Hlt.
Qed.

(** The chunks are the substrings cut at the recorded windows. *)
Lemma chunk_loop_windows content maxChunkSize overlap fuel start :
  chunk_loop fuel content maxChunkSize overlap start
  = map (fun w => js_substring content w.1 w.2)
      <$> window_loop fuel content maxChunkSize overlap start.
Proof.
  revert start. induction fuel as [|fuel IH]; intros start; simpl;
    destruct (start <? strlen content); try done.
  rewrite IH. by destruct (window_loop fuel _ _ _ _).
Qed.

Lemma window_loop_head content maxChunkSize overlap fuel start w ws :
  window_loop fuel content maxChunkSize overlap start = Some (w :: ws) ->
  w.1 = start.
Proof.
  destruct fuel; simpl; destruct (start <? strlen content); try discriminate.
  destruct (window_loop fuel _ _ _ _); simpl; [|discriminate].
  by intros [= <- _].
Qed.

Lemma window_loop_overlapping content maxChunkSize overlap fuel start ws :
  window_loop fuel content maxChunkSize overlap start = Some ws ->
  overlapping overlap ws.
Proof.
  revert start ws. induction fuel as [|fuel IH]; intros start ws; simpl.
  - destruct (start <? strlen content); [discriminate|].
    intros [= <-]. constructor.
  - destruct (start <? strlen content); [|intros [= <-]; constructor].
    destruct (window_loop fuel _ _ _ _) as [tl|] eqn:Htl; [|discriminate].
    simpl. intros [= <-].
    destruct tl as [|[s2 e2] tl]; [constructor|].
    constructor; [|by eapply IH].
    by apply window_loop_head in Htl.
Qed.

(** The break rule of one pass, read off [window_end]: when the window is
    not the last one and the last period or newline at or before position
    [start + maxChunkSize] lies beyond 80% of the window, the window ends
    just after it. *)
Lemma window_end_breaks content maxChunkSize start :
  start + maxChunkSize < strlen content ->
  let breakPoint :=
    Z.max (lastIndexOf content period (start + maxChunkSize))
          (lastIndexOf content newline (start + maxChunkSize)) in
  5 * start + 4 * maxChunkSize < 5 * breakPoint ->
  window_end content maxChunkSize start = breakPoint + 1.
Proof.
  intros Hlen breakPoint Hbp. unfold window_end.
  apply Z.ltb_lt in Hlen. rewrite Hlen.
  apply Z.ltb_lt in Hbp. fold breakPoint. by rewrite Hbp.
Qed.

(** [lastIndexOf] searches from [pos] itself, inclusive. *)
Lemma lastIndexOf_scan_upper s c bound i found :
  found <= bound -> lastIndexOf_scan s c bound i found <= bound.
Proof.
  revert i found. induction s as [|x s IH]; intros i found Hf; simpl; [done|].
  apply IH. destruct (i <=? bound) eqn:Hi; simpl; [|done].
  destruct (Ascii.eqb x c); [|done]. by apply Z.leb_le.
Qed.

Lemma lastIndexOf_upper s c pos : lastIndexOf s c pos <= Z.max pos 0.
Proof. apply lastIndexOf_scan_upper. lia. Qed.

(** A pass never yields a window longer than [maxChunkSize + 1]. *)
Lemma window_end_upper content maxChunkSize start :
  0 <= start -> 0 <= maxChunkSize ->
  window_end content maxChunkSize start <= start + maxChunkSize + 1.
Proof.
  intros Hs Hm. unfold window_end.
  destruct (_ <? strlen content); [|lia].
  destruct (_ <? 5 * _); [|lia].
  pose proof (lastIndexOf_upper content period (start + maxChunkSize)).
  pose proof (lastIndexOf_upper content newline (start + maxChunkSize)).
  lia.
Qed.

(** C8: the inputs on which a chunk is longer than [maxChunkSize].  The
    character at position [start + maxChunkSize] is a period, the backward
    search starts on it, and the window is closed one character after it.
    The second instance uses the shipped settings (4000, overlap 200). *)
Theorem chunkContent_chunk_exceeds_maxChunkSize :
  chunkContent 10 "aaaa.aaaaa" 4 1 = Some ["aaaa."; ".aaa"; "aaa"]
  /\ strlen "aaaa." = 4 + 1
  /\ (let content := repeat_char "a" 4000 +:+ "." +:+ repeat_char "a" 100 in
      map strlen <$> chunkContent 4101 content 4000 default_overlap
      = Some [4001; 300]).
Proof. split; [|split]; vm_compute; reflexivity. Qed.

(** C10: with a positive chunk size and an overlap below 80% of it every
    pass moves [start] forward, so the loop of [chunkContent] stops: a
    number of passes equal to the content length is enough, and any larger
    bound gives the same chunks.  With [overlap >= maxChunkSize] a pass can
    leave [start] where it was, and then no number of passes is enough. *)
Theorem chunkContent_terminates :
  (forall content maxChunkSize overlap,
      0 < maxChunkSize -> 0 <= overlap -> 5 * overlap < 4 * maxChunkSize ->
      (forall start, start < next_start content maxChunkSize overlap start)
      /\ exists chunks, forall fuel,
           (String.length content <= fuel)%nat ->
           chunkContent fuel content maxChunkSize overlap = Some chunks)
  /\ (exists content maxChunkSize overlap,
        maxChunkSize <= overlap
        /\ next_start content maxChunkSize overlap 0 = 0
        /\ forall fuel, chunkContent fuel content maxChunkSize overlap = None).
Proof.
  split.
  - intros content maxChunkSize overlap Hmax _ Hov. split.
    + intros start. by apply next_start_advances.
    + unfold chunkContent.
      destruct (negb (needsChunking content maxChunkSize)); [by eexists|].
      destruct (chunk_loop_enough_fuel content maxChunkSize overlap Hmax Hov
                  (String.length content) 0) as [chunks Hc].
      { unfold strlen. lia. }
      exists chunks. intros fuel Hfuel. by eapply chunk_loop_fuel_mono.
  - exists "aaaaa"%string, 2, 2. split; [lia|]. split; [reflexivity|].
    intros fuel. unfold chunkContent. simpl negb. cbv iota.
    induction fuel as [|fuel IH]; [reflexivity|].
    change (chunk_loop (S fuel) "aaaaa" 2 2 0)
      with (cons "aa"%string <$> chunk_loop fuel "aaaaa" 2 2 0).
    by rewrite IH.
Qed.

Lemma chunkContent_terminates_witness :
  exists chunks, chunkContent 10 "aaaa.aaaaa" 4 1 = Some chunks.
Proof.
  destruct (proj1 chunkContent_terminates "aaaa.aaaaa"%string 4 1)
    as [_ [chunks Hc]]; [lia | lia | lia |].
  exists chunks. apply Hc. simpl. lia.
Defined.

End DocumentFacts.

(* ===================================================================== *)
(** * Facts about the JSON reader                                        *)
(* ===================================================================== *)

Module JsonFacts.
Import Json StringFacts.

(** ** Scanner: texts compose *)

Lemma lex_run_app m a b :
  lex_run m (a +:+ b)
  = '(m1, t1) ← lex_run m a; '(m2, t2) ← lex_run m1 b; Some (m2, t1 ++ t2).
Proof.
  revert m. induction a as [|c a IH]; intros m.
  - rewrite append_nil. simpl. by destruct (lex_run m b) as [[m2 t2]|].
  - rewrite append_cons. simpl.
    destruct (lstep m c) as [[m1 t1]|]; simpl; [|done].
    rewrite IH. destruct (lex_run m1 a) as [[m2 t2]|]; simpl; [|done].
    destruct (lex_run m2 b) as [[m3 t3]|]; simpl; [|done].
    by rewrite app_assoc.
Qed.

(** A comma or a closing bracket ends whatever the scanner could have
    ended at the end of the text. *)
Lemma lstep_flush m c tf t :
  lex_finish m = Some tf -> punct c = Some t ->
  lstep m c = Some (MStart, tf ++ [t]).
Proof.
  unfold punct. intros Hfin Hp.
  assert (Hc : c = ","%char \/ c = "]"%char).
  { destruct (code c =? 44) eqn:H1; [left|destruct (code c =? 93) eqn:H2; [right|done]].
    - apply Z.eqb_eq in H1. unfold code in H1.
      rewrite <- (ascii_N_embedding c).
      by replace (N_of_ascii c) with 44%N by lia.
    - apply Z.eqb_eq in H2. unfold code in H2.
      rewrite <- (ascii_N_embedding c).
      by replace (N_of_ascii c) with 93%N by lia. }
  destruct m as [|e v|st acc|st acc]; simpl in Hfin; try discriminate.
  - injection Hfin as <-. destruct Hc as [-> | ->]; vm_compute in Hp;
      injection Hp as <-; reflexivity.
  - destruct (num_accepting st) eqn:Hacc; [|discriminate].
    injection Hfin as <-.
    destruct Hc as [-> | ->]; vm_compute in Hp; injection Hp as <-;
      destruct st; try discriminate; reflexivity.
Qed.

Lemma lex_delim a c t rest :
  forall ta, lex a = Some ta -> punct c = Some t ->
  lex_run MStart (a +:+ String c rest)
  = '(m2, t2) ← lex_run MStart rest; Some (m2, ta ++ t :: t2).
Proof.
  intros ta Hlex Hp. unfold lex in Hlex. rewrite lex_run_app.
  destruct (lex_run MStart a) as [[m ts]|]; simpl in *; [|done].
  destruct (lex_finish m) as [tf|] eqn:Hfin; simpl in Hlex; [|done].
  injection Hlex as <-.
  rewrite (lstep_flush m c tf t Hfin Hp). simpl.
  destruct (lex_run MStart rest) as [[m2 t2]|]; simpl; [|done].
  by rewrite <- !app_assoc.
Qed.

(** ** Assembler: a value parsed alone is parsed the same inside an array *)

Lemma prun_app st a b : prun st (a ++ b) = st' ← prun st a; prun st' b.
Proof.
  revert st. induction a as [|t a IH]; intros st; simpl; [done|].
  destruct (pstep st t); simpl; [apply IH|done].
Qed.

Lemma deliver_in_array items below v stack st' :
  deliver v stack = Some st' ->
  deliver v (stack ++ FArr items :: below) = Some (in_array items below st').
Proof.
  destruct stack as [|[its|mem|mem k] stack]; simpl; try discriminate;
    by intros [= <-].
Qed.

Lemma pstep_in_array items below stack m t st' :
  is_done m = false ->
  pstep (stack, m) t = Some st' ->
  pstep (stack ++ FArr items :: below, m) t = Some (in_array items below st').
Proof.
  intros Hm.
  destruct m, t; simpl; try discriminate; try (by intros [= <-]);
    try (by apply deliver_in_array);
    destruct stack as [|[[|i its]|[|mb mem]|mem k] stack]; simpl;
    try discriminate; try (by intros [= <-]); by apply deliver_in_array.
Qed.

Lemma pstep_done stack v t : pstep (stack, PDone v) t = None.
Proof. by destruct t. Qed.

Lemma prun_cons st t ts : prun st (t :: ts) = st' ← pstep st t; prun st' ts.
Proof. reflexivity. Qed.

Lemma prun_in_array items below ts : forall stack m st',
  is_done m = false ->
  prun (stack, m) ts = Some st' ->
  prun (stack ++ FArr items :: below, m) ts = Some (in_array items below st').
Proof.
  induction ts as [|t ts IH]; intros stack m st' Hm.
  - simpl. intros [= <-]. by destruct m.
  - rewrite !prun_cons.
    destruct (pstep (stack, m) t) as [[stack1 m1]|] eqn:Hstep; [|done].
    rewrite (pstep_in_array items below stack m t _ Hm Hstep).
    change (Some (stack1, m1) ≫= _) with (prun (stack1, m1) ts).
    change (Some (in_array items below (stack1, m1)) ≫= _)
      with (prun (in_array items below (stack1, m1)) ts).
    destruct (is_done m1) eqn:Hm1.
    + destruct m1; try discriminate.
      destruct ts as [|t' ts].
      * simpl. by intros [= <-].
      * by rewrite prun_cons, pstep_done.
    + intros Hrun. rewrite <- (IH stack1 m1 st' Hm1 Hrun). by destruct m1.
Qed.

Lemma parse_tokens_Some ts v :
  parse_tokens ts = Some v -> prun ([], PValue) ts = Some ([], PDone v).
Proof.
  unfold parse_tokens.
  destruct (prun _ ts) as [[[|f stack] []]|]; try discriminate.
  by intros [= ->].
Qed.

Lemma prun_elements tss : forall vs items,
  tss <> [] ->
  Forall2 (fun ts v => parse_tokens ts = Some v) tss vs ->
  prun ([FArr items], PValue) (join_tokens tss ++ [TCloseArr])
  = Some ([], PDone (JArr (rev items ++ vs))).
Proof.
  induction tss as [|ts tss IH]; intros vs items Hne Hall; [done|].
  inversion Hall as [|? v ? vs' Hts Hrest]; subst.
  apply parse_tokens_Some in Hts.
  pose proof (prun_in_array items [] ts [] PValue _ eq_refl Hts) as Hin.
  simpl in Hin.
  destruct tss as [|ts2 tss].
  - inversion Hrest; subst. simpl join_tokens.
    rewrite prun_app, Hin. reflexivity.
  - change (join_tokens (ts :: ts2 :: tss))
      with (ts ++ TComma :: join_tokens (ts2 :: tss)).
    rewrite <- app_assoc, prun_app, Hin.
    change (Some ?st ≫= ?f) with (f st). cbv beta.
    rewrite <- app_comm_cons, prun_cons.
    change (pstep ([FArr (v :: items)], PAfterElem) TComma)
      with (Some ([FArr (v :: items)], PValue)).
    change (Some ?st ≫= ?f) with (f st). cbv beta.
    rewrite (IH vs' (v :: items)); [|done|done].
    simpl. by rewrite <- app_assoc.
Qed.

Lemma parse_tokens_array tss vs :
  tss <> [] ->
  Forall2 (fun ts v => parse_tokens ts = Some v) tss vs ->
  parse_tokens (TOpenArr :: join_tokens tss ++ [TCloseArr]) = Some (JArr vs).
Proof.
  intros Hne Hall. unfold parse_tokens. rewrite prun_cons.
  change (pstep ([], PValue) TOpenArr) with (Some ([FArr []], PValue)).
  change (Some ?st ≫= ?f) with (f st). cbv beta.
  by rewrite (prun_elements tss vs [] Hne Hall).
Qed.

End JsonFacts.

(* ===================================================================== *)
(** * Facts about the repositories' read path                            *)
(* ===================================================================== *)

Module StoreFacts.
Import Json StringFacts JsonFacts Store.
Import Samples.

(** ** The reassembled text parses to the array of the lines' values *)

Lemma join_comma_cons l l' ls :
  join_comma (l :: l' :: ls) = l +:+ String "," (join_comma (l' :: ls)).
Proof. reflexivity. Qed.

Lemma lex_run_joined ls : forall tss,
  ls <> [] ->
  Forall2 (fun l ts => lex l = Some ts) ls tss ->
  lex_run MStart (join_comma ls +:+ "]")
  = Some (MStart, join_tokens tss ++ [TCloseArr]).
Proof.
  induction ls as [|l ls IH]; intros tss Hne Hall; [done|].
  inversion Hall as [|? ts ? tss' Hl Hrest]; subst.
  destruct ls as [|l' ls].
  - inversion Hrest; subst. simpl join_comma. simpl join_tokens.
    by rewrite (lex_delim l "]" TCloseArr EmptyString ts Hl eq_refl).
  - rewrite join_comma_cons.
    rewrite append_assoc.
    change (String "," (join_comma (l' :: ls)) +:+ "]")
      with (String "," (join_comma (l' :: ls) +:+ "]")).
    rewrite (lex_delim l "," TComma _ ts Hl eq_refl).
    rewrite (IH tss'); [|done|done]. simpl.
    destruct tss' as [|ts' tss']; [inversion Hrest|].
    by rewrite <- app_assoc.
Qed.

Lemma lex_recoveredData ls tss :
  ls <> [] ->
  Forall2 (fun l ts => lex l = Some ts) ls tss ->
  lex (recoveredData ls) = Some (TOpenArr :: join_tokens tss ++ [TCloseArr]).
Proof.
  intros Hne Hall. unfold recoveredData, lex.
  change ("[" +:+ join_comma ls +:+ "]")
    with (String "[" (join_comma ls +:+ "]")).
  change (lex_run MStart (String "[" ?s))
    with ('(m2, t2) ← lex_run MStart s; Some (m2, [TOpenArr] ++ t2)).
  rewrite (lex_run_joined ls tss Hne Hall). simpl.
  by rewrite app_nil_r.
Qed.

Lemma parse_recoveredData ls vs :
  ls <> [] ->
  Forall2 (fun l v => parse l = Some v) ls vs ->
  parse (recoveredData ls) = Some (JArr vs).
Proof.
  intros Hne Hall.
  assert (exists tss,
    Forall2 (fun l ts => lex l = Some ts) ls tss
    /\ Forall2 (fun ts v => parse_tokens ts = Some v) tss vs) as (tss & Hlex & Hparse).
  { clear Hne. induction Hall as [|l v ls vs Hl _ (tss & H1 & H2)].
    - exists []. by split; constructor.
    - unfold parse in Hl. destruct (lex l) as [ts|] eqn:Hts; [|done].
      exists (ts :: tss). by split; constructor. }
  unfold parse. rewrite (lex_recoveredData ls tss Hne Hlex). simpl.
  apply parse_tokens_array; [|done].
  intros ->. inversion Hlex; subst. done.
Qed.

(** ** Lines that parse *)

Lemma validLines_values lines :
  Forall2 (fun l v => parse l = Some v)
    (filter (fun l => is_Some (parse l)) lines) (omap parse lines).
Proof.
  induction lines as [|l lines IH]; simpl; [constructor|].
  rewrite filter_cons. destruct (parse l) as [v|] eqn:Hl.
  - rewrite decide_True by (by eexists). by constructor.
  - rewrite decide_False; [done|]. by intros [? ?].
Qed.

(** White space alone is no JSON text. *)
Lemma lex_run_blank s :
  blank s = true ->
  lex_run MStart s = None \/ lex_run MStart s = Some (MStart, []).
Proof.
  induction s as [|c s IH]; simpl; [by right|].
  intros [Hc Hs]%andb_prop. specialize (IH Hs).
  unfold lstep_start. destruct (is_json_ws c) eqn:Hws.
  - simpl. destruct IH as [-> | ->]; [by left|by right].
  - left. unfold is_space in Hc. rewrite Hws in Hc. simpl in Hc.
    assert (Hcode : code c = 11 \/ code c = 12 \/ code c = 160).
    { apply orb_prop in Hc as [Hc|Hc]; [apply orb_prop in Hc as [Hc|Hc]|];
        apply Z.eqb_eq in Hc; auto. }
    unfold is_digit19. destruct Hcode as [-> | [-> | ->]]; reflexivity.
Qed.

Lemma parse_blank s : blank s = true -> parse s = None.
Proof.
  intros Hb. unfold parse, lex.
  by destruct (lex_run_blank s Hb) as [-> | ->].
Qed.

Lemma split_lines_blank s :
  blank s = true -> Forall (fun l => blank l = true) (split_lines s).
Proof.
  induction s as [|c s IH]; simpl; [by repeat constructor|].
  intros [Hc Hs]%andb_prop. specialize (IH Hs).
  destruct (code c =? 10); [by constructor|].
  destruct (split_lines s) as [|l ls].
  - constructor; [|constructor]. simpl. by rewrite Hc.
  - inversion IH as [|? ? Hl Hls]; subst. constructor; [|done].
    simpl. by rewrite Hc, Hl.
Qed.

Lemma validLines_blank data : blank data = true -> validLines data = [].
Proof.
  intros Hb. unfold validLines.
  pose proof (split_lines_blank data Hb) as Hall.
  induction Hall as [|l ls Hl _ IH]; [done|].
  rewrite filter_cons, decide_False; [done|].
  rewrite (parse_blank l Hl). by intros [? ?].
Qed.

(** ** The read itself *)

(** No line survives: the file is copied to the backup path and reset. *)
Lemma getAll_backup file now fs data :
  fs !! file = Some data ->
  blank data = false ->
  parse data = None ->
  validLines data = [] ->
  getAll file now fs
  = (JArr [], <[file := "[]"%string]> (<[backupFile file now := data]> fs)).
Proof.
  intros Hfile Hb Hp Hv. unfold getAll. by rewrite Hfile, Hb, Hp, Hv.
Qed.

(** C5, as the code has it: when the file is not one JSON value and at
    least one of its lines is, the read returns the values of exactly those
    lines, in order, and touches nothing: the file keeps its content and no
    backup is written. *)
Theorem getAll_recovers_valid_lines file now (fs : gmap string string) data :
  fs !! file = Some data ->
  parse data = None ->
  validLines data <> [] ->
  getAll file now fs = (JArr (recordsOfLines data), fs).
Proof.
  intros Hfile Hp Hv. unfold getAll. rewrite Hfile.
  destruct (blank data) eqn:Hb.
  { by rewrite (validLines_blank data Hb) in Hv. }
  rewrite Hp.
  pose proof (validLines_values (split_lines data)) as Hvals.
  fold (validLines data) in Hvals. fold (recordsOfLines data) in Hvals.
  destruct (validLines data) as [|l ls]; [done|].
  by rewrite (parse_recoveredData _ _ Hv Hvals).
Qed.

Lemma getAll_recovers_valid_lines_witness :
  getAllDocuments 1700 {[ documentsFile := mixed_file ]}
  = (JArr [JObj [("id"%string, JStr "d1")]], {[ documentsFile := mixed_file ]}).
Proof.
  apply (getAll_recovers_valid_lines documentsFile 1700
           {[ documentsFile := mixed_file ]} mixed_file).
  - apply lookup_singleton_eq.
  - vm_compute. reflexivity.
  - vm_compute. discriminate.
Defined.

(** C5, the counterexample: a file of two lines, the first a record, the
    second cut short.  The read returns the record; the file system is the
    one it started from, so there is no backup at the backup path nor at
    any other. *)
Lemma getAllDocuments_mixed_lines_no_backup :
  let fs : gmap string string := {[ documentsFile := mixed_file ]} in
  parse mixed_file = None
  /\ split_lines mixed_file
     = ["{" +:+ quoted "id" +:+ ":" +:+ quoted "d1" +:+ "}";
        "{" +:+ quoted "id" +:+ ":"]
  /\ is_Some (parse ("{" +:+ quoted "id" +:+ ":" +:+ quoted "d1" +:+ "}"))
  /\ parse ("{" +:+ quoted "id" +:+ ":") = None
  /\ (getAllDocuments 1700 fs).1 = JArr [JObj [("id"%string, JStr "d1")]]
  /\ (getAllDocuments 1700 fs).2 !! backupFile documentsFile 1700 = None
  /\ forall path, path <> documentsFile ->
       (getAllDocuments 1700 fs).2 !! path = None.
Proof.
  intros fs.
  assert (Hfs : (getAllDocuments 1700 fs).2 = fs) by (vm_compute; reflexivity).
  repeat split; try (vm_compute; reflexivity).
  - vm_compute. by eexists.
  - intros path Hpath. rewrite Hfs. by apply lookup_singleton_ne.
Qed.

End StoreFacts.

(* ===================================================================== *)
(** * Facts about slicing and the output writer                          *)
(* ===================================================================== *)

Module JsFacts.
Import Js.

Section Slices.
Context {A : Type}.
Implicit Types l : list A.

Lemma slices_from_done fuel l size i :
  (length l <= i)%nat -> slices_from fuel l size i = Some [].
Proof.
  intros Hi. destruct fuel; simpl;
    by rewrite (proj2 (Nat.ltb_ge i (length l)) Hi).
Qed.

Lemma slices_from_step fuel l size i :
  (i < length l)%nat ->
  slices_from (S fuel) l size i
  = cons (slice l i (i + size)) <$> slices_from fuel l size (i + size).
Proof. intros Hi. simpl. by rewrite (proj2 (Nat.ltb_lt i (length l)) Hi). Qed.

(** The loop ends whenever the index moves. *)
Lemma slices_from_total fuel l size i :
  (0 < size)%nat -> (length l - i <= fuel)%nat ->
  is_Some (slices_from fuel l size i).
Proof.
  intros Hsize. revert i. induction fuel as [|fuel IH]; intros i Hfuel.
  - rewrite slices_from_done by lia. by eexists.
  - destruct (decide (i < length l)%nat) as [Hi|Hi].
    + rewrite slices_from_step by done.
      destruct (IH (i + size)%nat) as [ss Hss]; [lia|].
      rewrite Hss. by eexists.
    + rewrite slices_from_done by lia. by eexists.
Qed.

Lemma slices_total l size : (0 < size)%nat -> is_Some (slices l size).
Proof. intros Hsize. apply slices_from_total; [done|lia]. Qed.

(** The loop condition stays true when the index stands still below the
    length. *)
Lemma slices_from_stuck fuel l i :
  (i < length l)%nat -> slices_from fuel l 0 i = None.
Proof.
  intros Hi. induction fuel as [|fuel IH]; simpl;
    rewrite (proj2 (Nat.ltb_lt i (length l)) Hi); [done|].
  replace (i + 0)%nat with i by lia. by rewrite IH.
Qed.

(** The slices are consecutive pieces: together they give back the
    elements from the start index on. *)
Lemma slices_from_concat fuel l size i ss :
  slices_from fuel l size i = Some ss -> concat ss = drop i l.
Proof.
  revert i ss. induction fuel as [|fuel IH]; intros i ss; simpl.
  - destruct (i <? length l)%nat eqn:Hi; [done|].
    intros [= <-]. apply Nat.ltb_ge in Hi. by rewrite drop_ge.
  - destruct (i <? length l)%nat eqn:Hi.
    + destruct (slices_from fuel l size (i + size)) as [tl|] eqn:Htl; [|done].
      simpl. intros [= <-]. simpl. rewrite (IH _ _ Htl).
      unfold slice. replace (i + size - i)%nat with size by lia.
      rewrite <- drop_drop. apply take_drop.
    + intros [= <-]. apply Nat.ltb_ge in Hi. by rewrite drop_ge.
Qed.

Lemma slices_concat l size ss : slices l size = Some ss -> concat ss = l.
Proof. intros H. by rewrite (slices_from_concat _ _ _ _ _ H). Qed.

(** [2 * size + 1] elements make two full slices and one of a single
    element. *)
Lemma slices_two_full_one l size :
  (0 < size)%nat -> length l = (2 * size + 1)%nat ->
  slices l size
  = Some [take size l; take size (drop size l); drop (2 * size) l].
Proof.
  intros Hsize Hlen. unfold slices. rewrite Hlen.
  replace (2 * size + 1)%nat with (S (S (S (2 * size - 2)))) by lia.
  rewrite slices_from_step by lia.
  rewrite slices_from_step by lia.
  rewrite slices_from_step by lia.
  rewrite slices_from_done by lia. unfold slice.
  replace (0 + size - 0)%nat with size by lia.
  replace (0 + size + size - (0 + size))%nat with size by lia.
  replace (0 + size + size + size - (0 + size + size))%nat with size by lia.
  replace (0 + size + size)%nat with (2 * size)%nat by lia.
  replace (0 + size)%nat with size by lia.
  rewrite drop_0.
  rewrite (take_ge (drop (2 * size) l)) by (rewrite length_drop; lia).
  reflexivity.
Qed.
End Slices.

End JsFacts.

(* ===================================================================== *)
(** * Facts about the repositories and the use case                      *)
(* ===================================================================== *)

Module RuntimeFacts.
Import Runtime.
Import Observe.

(** ** Running monadic code *)

Ltac unfold_m :=
  unfold finally, try_catch, settled, of_option, pushed, hang, throw,
    mbind, M_bind, bind, fs_call, fs_call_quiet, modify, gets, emit,
    mret, M_ret, ret in *.

Lemma bind_run {A B} (m : M A) (k : A -> M B) w :
  (m ≫= k) w
  = match m w with
    | (Returned a, w') => k a w'
    | (Thrown e, w') => (Thrown e, w')
    | (Unfinished, w') => (Unfinished, w')
    end.
Proof. reflexivity. Qed.

Lemma bind_returned {A B} (m : M A) (k : A -> M B) w a w' :
  m w = (Returned a, w') -> (m ≫= k) w = k a w'.
Proof. intros H. by rewrite bind_run, H. Qed.

Lemma bind_thrown {A B} (m : M A) (k : A -> M B) w e w' :
  m w = (Thrown e, w') -> (m ≫= k) w = (Thrown e, w').
Proof. intros H. by rewrite bind_run, H. Qed.

Lemma ret_run {A} (a : A) w : (mret a : M A) w = (Returned a, w).
Proof. reflexivity. Qed.

(** ** Records keyed by id *)

Section Upsert.
Context {A : Type} (key : A -> string).

Lemma find_by_id_nil id : find_by_id key id [] = None.
Proof. reflexivity. Qed.

Lemma find_by_id_cons id x l :
  find_by_id key id (x :: l)
  = if decide (key x = id) then Some x else find_by_id key id l.
Proof.
  unfold find_by_id. simpl. destruct (decide (key x = id)); [done|].
  by destruct (list_find _ l) as [[i y]|].
Qed.

Lemma find_by_id_app id l1 l2 :
  find_by_id key id (l1 ++ l2)
  = match find_by_id key id l1 with
    | Some x => Some x
    | None => find_by_id key id l2
    end.
Proof.
  induction l1 as [|x l1 IH]; [done|].
  rewrite <- app_comm_cons, !find_by_id_cons.
  by destruct (decide (key x = id)).
Qed.

Lemma find_by_id_key id l x : find_by_id key id l = Some x -> key x = id.
Proof.
  induction l as [|y l IH]; [done|]. rewrite find_by_id_cons.
  destruct (decide (key y = id)); [by intros [= <-]|done].
Qed.

Lemma upsert_cons x y l :
  upsert key x (y :: l)
  = if decide (key y = key x) then x :: l else y :: upsert key x l.
Proof.
  unfold upsert. simpl. destruct (decide (key y = key x)); [done|].
  by destruct (list_find _ l) as [[i z]|].
Qed.

(** Reading a record back after a write. *)
Lemma find_by_id_upsert id x l :
  find_by_id key id (upsert key x l)
  = if decide (key x = id) then Some x else find_by_id key id l.
Proof.
  induction l as [|y l IH].
  - unfold upsert. simpl. by rewrite find_by_id_cons.
  - rewrite upsert_cons. destruct (decide (key y = key x)) as [Heq|Hne].
    + rewrite !find_by_id_cons. rewrite Heq. by destruct (decide (key x = id)).
    + rewrite !find_by_id_cons, IH.
      destruct (decide (key y = id)), (decide (key x = id)); congruence.
Qed.

Lemma upsert_length_found x l :
  is_Some (find_by_id key (key x) l) -> length (upsert key x l) = length l.
Proof.
  induction l as [|y l IH]; [by intros [? ?]|].
  rewrite find_by_id_cons, upsert_cons.
  destruct (decide (key y = key x)); [done|]. intros H. simpl. by rewrite IH.
Qed.

Lemma upsert_keys_found x l :
  is_Some (find_by_id key (key x) l) -> map key (upsert key x l) = map key l.
Proof.
  induction l as [|y l IH]; [by intros [? ?]|].
  rewrite find_by_id_cons, upsert_cons.
  destruct (decide (key y = key x)) as [Heq|]; [by simpl; rewrite Heq|].
  intros H. simpl. by rewrite IH.
Qed.
End Upsert.

(** ** The repositories when nothing fails *)

Section Saves.
Variable env : Env.
Hypothesis Hnf : no_faults env.

Lemma fs_call_ok w :
  fs_call env w = (Returned tt, set_ioCount (S (ioCount w)) w).
Proof. unfold fs_call. by rewrite Hnf. Qed.

Lemma fs_call_quiet_ok w :
  fs_call_quiet env w = (Returned true, set_ioCount (S (ioCount w)) w).
Proof. unfold fs_call_quiet. by rewrite Hnf. Qed.

Lemma document_save_ok d w :
  documentsLock w = false ->
  DocumentRepository.save env d w = (Returned d, document_saved d w).
Proof.
  intros Hlock. destruct w as [jf jl df dl fs om io ec tr]. simpl in Hlock. subst dl.
  unfold DocumentRepository.save, DocumentRepository.acquireLock,
    DocumentRepository.getAllDocuments, DocumentRepository.releaseLock.
  unfold_m. by repeat (cbn; rewrite ?Hnf).
Qed.

Lemma job_save_ok j w :
  jobsLock w = false ->
  JobRepository.save env j w = (Returned j, job_saved j w).
Proof.
  intros Hlock. destruct w as [jf jl df dl fs om io ec tr]. simpl in Hlock. subst jl.
  unfold JobRepository.save, JobRepository.acquireLock,
    JobRepository.getAllJobs, JobRepository.releaseLock.
  unfold_m. by repeat (cbn; rewrite ?Hnf).
Qed.

Lemma job_findById_ok id w :
  JobRepository.findById env id w
  = (Returned (find_by_id Job.id id (jobsFile w)), set_ioCount (S (ioCount w)) w).
Proof.
  unfold JobRepository.findById, JobRepository.getAllJobs.
  unfold_m. by repeat (cbn; rewrite ?Hnf).
Qed.

Lemma document_findByIds_ok ids w :
  DocumentRepository.findByIds env ids w
  = (Returned (filter (fun d => Document.id d ∈ ids) (documentsFile w)),
     set_ioCount (S (ioCount w)) w).
Proof.
  unfold DocumentRepository.findByIds, DocumentRepository.getAllDocuments.
  unfold_m. by repeat (cbn; rewrite ?Hnf).
Qed.
End Saves.

End RuntimeFacts.

(* ===================================================================== *)
(** * Facts about LocalOutputService.writeResults                        *)
(* ===================================================================== *)

Module OutputFacts.
Import Runtime RuntimeFacts Output OutputService.
Import Observe Written Samples.

Section Writer.
Variable env : Env.
Hypothesis Hnf : no_faults env.
Variables (jobId dir format : string) (compression : bool).

#[local] Abbreviation shardEntries := (Written.shardEntries env jobId dir format compression).
#[local] Abbreviation shardsWritten := (Written.shardsWritten env jobId dir format compression).

Lemma writeShards_ok shards : forall i w,
  writeShards env jobId dir format compression i shards w
  = (Returned (shardEntries i shards),
     set_ioCount (2 * length shards + ioCount w)
       (set_files (shardsWritten i shards (files w)) w)).
Proof.
  induction shards as [|shard rest IH]; intros i w.
  - by destruct w.
  - destruct w as [jf jl df dl fs om io ec tr].
    cbn [writeShards]. unfold writeShard, getFileSize. unfold_m.
    repeat (cbn; rewrite ?Hnf). rewrite IH. cbn.
    rewrite lookup_insert_eq. unfold set_ioCount, set_files. cbn.
    do 2 f_equal. lia.
Qed.
End Writer.

Section WriteResults.
Variable env : Env.
Hypothesis Hnf : no_faults env.
Variables (jobId : string) (options : Options).

#[local] Abbreviation resolvedDirectory := (Written.resolvedDirectory env jobId options).
#[local] Abbreviation resolvedFormat := (Written.resolvedFormat env options).
#[local] Abbreviation resolvedCompression := (Written.resolvedCompression env options).
#[local] Abbreviation resolvedShardSize := (Written.resolvedShardSize env options).
#[local] Abbreviation metadataOf := (Written.metadataOf env jobId options).
#[local] Abbreviation resultsWritten := (Written.resultsWritten env jobId options).

Lemma shardEntries_length dir format compression shards : forall i,
  length (shardEntries env jobId dir format compression i shards) = length shards.
Proof. induction shards as [|s shards IH]; intros i; simpl; [done|by rewrite IH]. Qed.

(** When no call fails and the sharding loop ends, [writeResults] returns
    the metadata of the shards it wrote. *)
Lemma writeResults_ok results shards w :
  createShards results resolvedShardSize = Some shards ->
  writeResults env jobId results options w
  = (Returned (metadataOf results shards), resultsWritten results shards w).
Proof.
  intros Hshards. unfold writeResults.
  fold resolvedShardSize resolvedFormat resolvedCompression resolvedDirectory.
  rewrite Hshards.
  rewrite (bind_returned _ _ _ _ _ (fs_call_ok env Hnf _)).
  rewrite (bind_returned _ _ _ shards (set_ioCount (S (ioCount w)) w))
    by reflexivity.
  rewrite (bind_returned _ _ _ _ _ (writeShards_ok env Hnf _ _ _ _ _ _ _)).
  rewrite shardEntries_length.
  destruct w as [jf jl df dl fs om io ec tr].
  unfold_m. repeat (cbn; rewrite ?Hnf).
  unfold resultsWritten, metadataOf, metadataPath, set_outputMetadata,
    set_files, set_ioCount. cbn.
  do 2 f_equal. lia.
Qed.
End WriteResults.

(** ** File names *)

Lemma generateFileName_shape jobId i format compression :
  generateFileName jobId i format compression
  = "results_" +:+ jobId +:+ "_shard_"
    +:+ Js.padStart (Js.decimal i) 4 "0" +:+ fileSuffix format compression.
Proof.
  unfold generateFileName, fileSuffix.
  destruct compression; by rewrite !StringFacts.append_assoc.
Qed.

Lemma padded_indices :
  map (fun i => Js.padStart (Js.decimal i) 4 "0") [0; 1; 2]%nat
  = ["0000"; "0001"; "0002"]%string.
Proof. reflexivity. Qed.

Lemma shardPath_inj_padded jobId dir format compression i j :
  shardPath jobId dir format compression i = shardPath jobId dir format compression j ->
  Js.padStart (Js.decimal i) 4 "0" +:+ fileSuffix format compression
  = Js.padStart (Js.decimal j) 4 "0" +:+ fileSuffix format compression.
Proof.
  unfold shardPath, Js.path_join. rewrite !generateFileName_shape.
  intros H. by do 5 apply StringFacts.append_inj in H.
Qed.

Lemma shardPath_distinct jobId dir format compression i j :
  (i < 3)%nat -> (j < 3)%nat -> i <> j ->
  shardPath jobId dir format compression i <> shardPath jobId dir format compression j.
Proof.
  intros Hi Hj Hij Heq. apply shardPath_inj_padded in Heq.
  destruct i as [|[|[|i]]], j as [|[|[|j]]]; try lia; discriminate Heq.
Qed.

Lemma metadataPath_not_shard env jobId options i :
  metadataPath env jobId options
  <> shardPath jobId (resolvedDirectory env jobId options)
       (resolvedFormat env options) (resolvedCompression env options) i.
Proof.
  unfold metadataPath, shardPath, Js.path_join. rewrite generateFileName_shape.
  intros H. do 2 apply StringFacts.append_inj in H. discriminate H.
Qed.

(** C9: with no failing call and a positive shard size, [2 * shardSize + 1]
    results are written as three shard files holding [shardSize],
    [shardSize] and [1] records (the first, the second and the last
    stretch of the list), named from the job id and the four-digit indices
    0000, 0001, 0002, and as [metadata.json] with [totalRecords] equal to
    [2 * shardSize + 1] and [totalFiles] equal to 3; no other path of the
    output tree changes. *)
Theorem writeResults_three_shards env jobId results options w :
  no_faults env ->
  let size := resolvedShardSize env options in
  let format := resolvedFormat env options in
  let compression := resolvedCompression env options in
  let dir := resolvedDirectory env jobId options in
  let name := fun i => generateFileName jobId i format compression in
  let path := fun i => Js.path_join dir (name i) in
  (0 < size)%nat ->
  length results = (2 * size + 1)%nat ->
  exists md w',
    writeResults env jobId results options w = (Returned md, w')
    /\ map fileName (outputFiles md) = [name 0; name 1; name 2]%nat
    /\ [name 0; name 1; name 2]%nat
       = map (fun digits => "results_" +:+ jobId +:+ "_shard_" +:+ digits
                            +:+ fileSuffix format compression)
           ["0000"; "0001"; "0002"]%string
    /\ map recordCount (outputFiles md) = [size; size; 1]%nat
    /\ totalRecords md = (2 * size + 1)%nat
    /\ totalFiles md = 3%nat
    /\ files w' !! path 0%nat
       = Some (shardText env format (take size results))
    /\ files w' !! path 1%nat
       = Some (shardText env format (take size (drop size results)))
    /\ files w' !! path 2%nat
       = Some (shardText env format (drop (2 * size) results))
    /\ files w' !! Js.path_join dir "metadata.json"
       = Some (stringifyMetadata env md)
    /\ forall other,
         other <> path 0%nat -> other <> path 1%nat -> other <> path 2%nat ->
         other <> Js.path_join dir "metadata.json" ->
         files w' !! other = files w !! other.
Proof.
  intros Hnf size format compression dir name path Hsize Hlen.
  pose proof (JsFacts.slices_two_full_one results size Hsize Hlen) as Hshards.
  eexists _, _. split.
  { exact (writeResults_ok env Hnf jobId options results _ w Hshards). }
  pose proof (shardPath_distinct jobId dir format compression) as Hdist.
  pose proof (metadataPath_not_shard env jobId options) as Hmeta.
  fold dir format compression in Hmeta. unfold metadataPath in Hmeta.
  fold dir in Hmeta.
  assert (Hlast : length (drop (2 * size) results) = 1%nat)
    by (rewrite length_drop; lia).
  assert (Hfst : length (take size results) = size)
    by (rewrite length_take; lia).
  assert (Hsnd : length (take size (drop size results)) = size)
    by (rewrite length_take, length_drop; lia).
  split_and!.
  - done.
  - unfold name. by rewrite !generateFileName_shape.
  - unfold metadataOf, outputFiles, shardEntries, map, recordCount.
    by rewrite Hfst, Hsnd, Hlast.
  - done.
  - done.
  - simpl. unfold metadataPath. fold dir.
    rewrite lookup_insert_ne by apply Hmeta.
    rewrite lookup_insert_ne by (apply Hdist; lia).
    rewrite lookup_insert_ne by (apply Hdist; lia).
    apply lookup_insert_eq.
  - simpl. unfold metadataPath. fold dir.
    rewrite lookup_insert_ne by apply Hmeta.
    rewrite lookup_insert_ne by (apply Hdist; lia).
    apply lookup_insert_eq.
  - simpl. unfold metadataPath. fold dir.
    rewrite lookup_insert_ne by apply Hmeta.
    apply lookup_insert_eq.
  - simpl. unfold metadataPath. fold dir. apply lookup_insert_eq.
  - intros other H0 H1 H2 Hm. simpl. unfold metadataPath. fold dir.
    rewrite lookup_insert_ne by done.
    by rewrite !lookup_insert_ne by done.
Qed.

Lemma writeResults_three_shards_witness :
  exists md w',
    writeResults sample_env "j1"
      (map sample_result ["a"; "b"; "c"; "d"; "e"]%string) no_options sample_world
    = (Returned md, w')
    /\ map recordCount (outputFiles md) = [2; 2; 1]%nat
    /\ totalRecords md = 5%nat /\ totalFiles md = 3%nat.
Proof.
  destruct (writeResults_three_shards sample_env "j1"
              (map sample_result ["a"; "b"; "c"; "d"; "e"]%string)
              no_options sample_world)
    as (md & w' & Hrun & _ & _ & Hcounts & Htotal & Hfiles & _).
  - intros k. reflexivity.
  - vm_compute. lia.
  - reflexivity.
  - exists md, w'. by split_and!.
Defined.

End OutputFacts.

(* ===================================================================== *)
(** * What a piece of the use case leaves alone                          *)
(* ===================================================================== *)

Module FrameFacts.
Import Runtime RuntimeFacts.
Import Observe.

Section Preserves.
Context (R : relation World) `{!PreOrder R}.

Lemma preserves_ret {A} (a : A) : preserves R (mret a : M A).
Proof. intros w o w' [= _ <-]. reflexivity. Qed.

Lemma preserves_throw {A} e : preserves R (throw e : M A).
Proof. intros w o w' [= _ <-]. reflexivity. Qed.

Lemma preserves_hang {A} : preserves R (hang : M A).
Proof. intros w o w' [= _ <-]. reflexivity. Qed.

Lemma preserves_gets {A} (f : World -> A) : preserves R (gets f).
Proof. intros w o w' [= _ <-]. reflexivity. Qed.

Lemma preserves_of_option {A} (o : option A) : preserves R (of_option o).
Proof. destruct o; [apply preserves_ret|apply preserves_hang]. Qed.

Lemma preserves_pushed {A} (o : option (list A)) : preserves R (pushed o).
Proof. destruct o; [apply preserves_ret|apply preserves_throw]. Qed.

Lemma preserves_modify f : (forall w, R w (f w)) -> preserves R (modify f).
Proof. intros Hf w o w' [= _ <-]. apply Hf. Qed.

Lemma preserves_bind {A B} (m : M A) (k : A -> M B) :
  preserves R m -> (forall a, preserves R (k a)) -> preserves R (m ≫= k).
Proof.
  intros Hm Hk w o w'. rewrite bind_run.
  destruct (m w) as [[a|e|] w1] eqn:Hmw.
  - intros Hkw. etrans; [by eapply Hm|by eapply Hk].
  - intros [= _ <-]. by eapply Hm.
  - intros [= _ <-]. by eapply Hm.
Qed.

Lemma preserves_try_catch {A} (m : M A) h :
  preserves R m -> (forall e, preserves R (h e)) -> preserves R (try_catch m h).
Proof.
  intros Hm Hh w o w'. unfold try_catch.
  destruct (m w) as [[a|e|] w1] eqn:Hmw.
  - intros [= _ <-]. by eapply Hm.
  - intros Hhw. etrans; [by eapply Hm|by eapply Hh].
  - intros [= _ <-]. by eapply Hm.
Qed.

Lemma preserves_finally {A} (m : M A) f :
  preserves R m -> preserves R f -> preserves R (finally m f).
Proof.
  intros Hm Hf w o w'. unfold finally.
  destruct (m w) as [[a|e|] w1] eqn:Hmw.
  - destruct (f w1) as [[[]|e'|] w2] eqn:Hfw; intros [= _ <-];
      (etrans; [by eapply Hm|by eapply Hf]).
  - destruct (f w1) as [[[]|e'|] w2] eqn:Hfw; intros [= _ <-];
      (etrans; [by eapply Hm|by eapply Hf]).
  - intros [= _ <-]. by eapply Hm.
Qed.

Lemma preserves_settled {A} (m : M A) : preserves R m -> preserves R (settled m).
Proof.
  intros Hm w o w'. unfold settled.
  destruct (m w) as [[a|e|] w1] eqn:Hmw; intros [= _ <-]; by eapply Hm.
Qed.

Lemma preserves_for_each {A B} (f : A -> M B) xs :
  (forall x, preserves R (f x)) -> preserves R (for_each f xs).
Proof.
  intros Hf. induction xs as [|x xs IH]; simpl.
  - apply preserves_ret.
  - apply preserves_bind; [apply Hf|]. intros b.
    apply preserves_bind; [apply IH|]. intros bs. apply preserves_ret.
Qed.
End Preserves.

(** ** Leaving the job collection alone *)

#[export] Instance job_quiet_preorder : PreOrder job_quiet.
Proof.
  split.
  - by intros w.
  - intros w1 w2 w3 (H1 & H2 & H3) (H4 & H5 & H6).
    unfold job_quiet. by rewrite H4, H5, H6.
Qed.

Lemma job_statuses_snoc tr e :
  is_job_event e = false -> job_statuses (tr ++ [e]) = job_statuses tr.
Proof.
  intros He. unfold job_statuses. rewrite omap_app. simpl.
  destruct e; try discriminate; by rewrite app_nil_r.
Qed.

Lemma job_quiet_emit e :
  is_job_event e = false -> preserves job_quiet (emit e).
Proof.
  intros He. apply preserves_modify. intros w. split_and!; try done.
  destruct w. simpl. by apply job_statuses_snoc.
Qed.

Lemma job_quiet_fs_call env : preserves job_quiet (fs_call env).
Proof.
  intros w o w'. unfold fs_call.
  destruct (io_fault env (ioCount w)); intros [= _ <-]; by destruct w.
Qed.

Lemma job_quiet_fs_call_quiet env : preserves job_quiet (fs_call_quiet env).
Proof. intros w o w' [= _ <-]. by destruct w. Qed.

Create HintDb frames.

(** Walks through the structure of monadic code; what is left are the
    primitive steps, looked up among the [frames] hints. *)
Ltac frame_step :=
  first
    [ progress cbv beta
    | lazymatch goal with
      | |- preserves _ (mret _) => eapply preserves_ret; apply _
      | |- preserves _ (throw _) => eapply preserves_throw; apply _
      | |- preserves _ hang => eapply preserves_hang; apply _
      | |- preserves _ (gets _) => eapply preserves_gets; apply _
      | |- preserves _ (of_option _) => eapply preserves_of_option; apply _
      | |- preserves _ (pushed _) => eapply preserves_pushed; apply _
      | |- preserves _ (mbind _ _) => eapply preserves_bind; [apply _| |intros ?]
      | |- preserves _ (finally _ _) => eapply preserves_finally; [apply _| |]
      | |- preserves _ (try_catch _ _) =>
          eapply preserves_try_catch; [apply _| |intros ?]
      | |- preserves _ (settled _) => eapply preserves_settled
      | |- preserves _ (for_each _ _) =>
          eapply preserves_for_each; [apply _|intros ?]
      | |- preserves _ (if ?b then _ else _) => destruct b
      | |- preserves _ (match ?x with _ => _ end) => destruct x
      end
    | solve [eauto with frames] ].

Ltac frames := repeat frame_step.

Lemma job_quiet_modify_documents f :
  (forall w, jobsFile (f w) = jobsFile w /\ jobsLock (f w) = jobsLock w
             /\ trace (f w) = trace w) ->
  preserves job_quiet (modify f).
Proof.
  intros Hf. apply preserves_modify. intros w.
  destruct (Hf w) as (H1 & H2 & H3). unfold job_quiet. by rewrite H1, H2, H3.
Qed.

#[export] Hint Resolve job_quiet_fs_call job_quiet_fs_call_quiet : frames.
#[export] Hint Extern 1 (preserves job_quiet (emit _)) =>
  (apply job_quiet_emit; reflexivity) : frames.
#[export] Hint Extern 1 (preserves job_quiet (modify _)) =>
  (apply job_quiet_modify_documents; by intros []) : frames.

Lemma job_quiet_document_save env d :
  preserves job_quiet (DocumentRepository.save env d).
Proof.
  unfold DocumentRepository.save, DocumentRepository.acquireLock,
    DocumentRepository.releaseLock, DocumentRepository.getAllDocuments.
  frames.
Qed.

Lemma job_quiet_findByIds env ids :
  preserves job_quiet (DocumentRepository.findByIds env ids).
Proof.
  unfold DocumentRepository.findByIds, DocumentRepository.getAllDocuments.
  frames.
Qed.

#[export] Hint Resolve job_quiet_document_save job_quiet_findByIds : frames.

End FrameFacts.

(* ===================================================================== *)
(** * Document processing and output writing leave the job alone         *)
(* ===================================================================== *)

Module UseCaseFrames.
Import Runtime RuntimeFacts FrameFacts ProcessJobUseCase.
Import Observe.

Section JobQuiet.
Variable env : Env.
Variable fuel : nat.

Lemma job_quiet_callExtractor method chunk :
  preserves job_quiet (callExtractor env method chunk).
Proof.
  intros w o w'. unfold callExtractor.
  destruct (extractor env _ _ _); intros [= _ <-]; destruct w;
    split_and!; try done; simpl; by apply job_statuses_snoc.
Qed.
Hint Resolve job_quiet_callExtractor : frames.

Lemma job_quiet_extractChunk t chunk :
  preserves job_quiet (extractChunk env t chunk).
Proof. unfold extractChunk. frames. Qed.
Hint Resolve job_quiet_extractChunk : frames.

Lemma job_quiet_extractChunks t chunks : forall i,
  preserves job_quiet (extractChunks env t i chunks).
Proof. induction chunks as [|c chunks IH]; intros i; simpl; frames. Qed.
Hint Resolve job_quiet_extractChunks : frames.

Lemma job_quiet_combine crs t :
  preserves job_quiet (combineChunkResults env crs t).
Proof. unfold combineChunkResults. frames. Qed.
Hint Resolve job_quiet_combine : frames.

Lemma job_quiet_extract job d :
  preserves job_quiet (extractFromDocument env fuel job d).
Proof. unfold extractFromDocument. frames. Qed.

Lemma job_quiet_attemptOnce job attempt d w d' o w' :
  attemptOnce env fuel job attempt d w = (d', o, w') -> job_quiet w w'.
Proof.
  unfold attemptOnce.
  destruct (DocumentRepository.save env _ w) as [[?|?|] w1] eqn:H1;
    try (intros [= _ _ <-]; by eapply job_quiet_document_save).
  apply job_quiet_document_save in H1.
  destruct (extractFromDocument env fuel job _ w1) as [[r|?|] w2] eqn:H2;
    try (intros [= _ _ <-]; etrans; [done|by eapply job_quiet_extract]).
  apply job_quiet_extract in H2.
  destruct (DocumentRepository.save env _ w2) as [[?|?|] w3] eqn:H3;
    intros [= _ _ <-]; (etrans; [done|]); (etrans; [done|]);
    by eapply job_quiet_document_save.
Qed.

Lemma job_quiet_retryLoop job remaining : forall attempt d lastError,
  preserves job_quiet (retryLoop env fuel job remaining attempt d lastError).
Proof.
  induction remaining as [|n IH]; intros attempt d lastError; simpl.
  - frames.
  - intros w o w'.
    destruct (attemptOnce env fuel job attempt d w) as [[d1 [r|e|]] w1] eqn:Hatt;
      apply job_quiet_attemptOnce in Hatt.
    + by intros [= _ <-].
    + intros Hrest. etrans; [done|]. by eapply IH.
    + by intros [= _ <-].
Qed.

Lemma job_quiet_processDocument job d :
  preserves job_quiet (processDocument env fuel job d).
Proof. apply job_quiet_retryLoop. Qed.
Hint Resolve job_quiet_processDocument : frames.

Lemma job_quiet_processBatch job batch :
  preserves job_quiet (processBatch env fuel job batch).
Proof. unfold processBatch. frames. Qed.
Hint Resolve job_quiet_processBatch : frames.

Lemma job_quiet_processDocuments job documents :
  preserves job_quiet (processDocuments env fuel job documents).
Proof. unfold processDocuments. frames. Qed.

Lemma job_quiet_getDocumentsForJob job :
  preserves job_quiet (getDocumentsForJob env job).
Proof. unfold getDocumentsForJob. frames. Qed.

Lemma job_quiet_writeShards jobId dir format compression shards : forall i,
  preserves job_quiet
    (OutputService.writeShards env jobId dir format compression i shards).
Proof.
  induction shards as [|s shards IH]; intros i; simpl;
    unfold OutputService.writeShard, OutputService.getFileSize; frames.
Qed.
Hint Resolve job_quiet_writeShards : frames.

Lemma job_quiet_writeResults jobId results options :
  preserves job_quiet (OutputService.writeResults env jobId results options).
Proof. unfold OutputService.writeResults. frames. Qed.

End JobQuiet.

End UseCaseFrames.

(* ===================================================================== *)
(** * The statuses a job goes through                                    *)
(* ===================================================================== *)

Module JobStatusFacts.
Import Runtime RuntimeFacts FrameFacts UseCaseFrames ProcessJobUseCase.
Import Document (pending, processing, completed, failed).
Import Observe Samples.

Lemma bind_inv {A B} (m : M A) (k : A -> M B) w o w' :
  (m ≫= k) w = (o, w') ->
  (exists a w1, m w = (Returned a, w1) /\ k a w1 = (o, w'))
  \/ (exists e, m w = (Thrown e, w') /\ o = Thrown e)
  \/ (m w = (Unfinished, w') /\ o = Unfinished).
Proof.
  rewrite bind_run. destruct (m w) as [[a|e|] w1].
  - intros H. left. by exists a, w1.
  - intros [= <- <-]. right. left. by exists e.
  - intros [= <- <-]. by right; right.
Qed.

Section Statuses.
Variable env : Env.
Variable fuel : nat.

(** A save adds its status to the history exactly when it goes through. *)
Lemma job_save_statuses j w o w' :
  JobRepository.save env j w = (o, w') ->
  job_statuses (trace w')
  = job_statuses (trace w)
    ++ match o with Returned _ => [Job.status j] | _ => [] end.
Proof.
  unfold JobRepository.save, JobRepository.acquireLock,
    JobRepository.releaseLock, JobRepository.getAllJobs.
  unfold_m. destruct w as [jf jl df dl fs om io ec tr]. cbn.
  intros H.
  repeat match type of H with
         | context [io_fault env ?k] => destruct (io_fault env k); cbn in H
         | context [if ?b then _ else _] => destruct b; cbn in H
         end;
    injection H as <- <-; cbn; rewrite ?app_nil_r; try done;
    unfold job_statuses; by rewrite omap_app.
Qed.

Lemma job_quiet_job_findById id :
  preserves job_quiet (JobRepository.findById env id).
Proof. unfold JobRepository.findById, JobRepository.getAllJobs. frames. Qed.

Lemma job_findById_returns id w :
  exists found w1, JobRepository.findById env id w = (Returned found, w1)
                   /\ job_quiet w w1.
Proof.
  destruct (JobRepository.findById env id w) as [o w1] eqn:H.
  pose proof (job_quiet_job_findById id w o w1 H) as Hq.
  revert H. unfold JobRepository.findById, JobRepository.getAllJobs.
  unfold_m. cbn. destruct (io_fault env (ioCount w)); cbn;
    intros [= <- <-]; eauto.
Qed.

(** What the [try] block writes: [processing] and then [completed] when it
    returns, at most [processing] otherwise. *)
Lemma executeBody_statuses jobId w o w' :
  executeBody env fuel jobId w = (o, w') ->
  exists saved,
    job_statuses (trace w') = job_statuses (trace w) ++ saved
    /\ match o with
       | Returned _ => saved = [processing; completed]
       | _ => saved = [] \/ saved = [processing]
       end.
Proof.
  unfold executeBody. intros H.
  destruct (job_findById_returns jobId w) as (found & w1 & Hfind & (_ & _ & Hq1)).
  rewrite (bind_returned _ _ _ _ _ Hfind) in H.
  destruct found as [job|].
  2:{ injection H as <- <-. exists []. rewrite app_nil_r. by split; [|left]. }
  apply bind_inv in H as [(j1 & w2 & Hsave & H)|[(e & Hsave & ->)|(Hsave & ->)]].
  2,3: apply job_save_statuses in Hsave; rewrite app_nil_r in Hsave;
       exists []; rewrite app_nil_r; split; [congruence|by left].
  apply job_save_statuses in Hsave. simpl in Hsave.
  assert (Hquiet : forall {A} (m : M A) (k : A -> M Job.Summary) wa,
            preserves job_quiet m ->
            job_statuses (trace wa) = job_statuses (trace w) ++ [processing] ->
            (m ≫= k) wa = (o, w') ->
            (exists a wb, k a wb = (o, w')
               /\ job_statuses (trace wb) = job_statuses (trace w) ++ [processing])
            \/ (job_statuses (trace w') = job_statuses (trace w) ++ [processing]
                /\ match o with Returned _ => False | _ => True end)).
  { intros A m k wa Hm Hwa Hrun.
    apply bind_inv in Hrun as [(a & wb & Hmw & Hk)|[(e & Hmw & ->)|(Hmw & ->)]].
    - left. exists a, wb. split; [done|].
      destruct (Hm _ _ _ Hmw) as (_ & _ & ->). done.
    - right. destruct (Hm _ _ _ Hmw) as (_ & _ & ->). done.
    - right. destruct (Hm _ _ _ Hmw) as (_ & _ & ->). done. }
  assert (Hw2 : job_statuses (trace w2) = job_statuses (trace w) ++ [processing])
    by congruence.
  assert (Hstop : job_statuses (trace w') = job_statuses (trace w) ++ [processing]
                  /\ match o with Returned _ => False | _ => True end ->
                  exists saved,
                    job_statuses (trace w') = job_statuses (trace w) ++ saved
                    /\ match o with
                       | Returned _ => saved = [processing; completed]
                       | _ => saved = [] \/ saved = [processing]
                       end).
  { intros [Htr Ho]. exists [processing]. split; [done|].
    destruct o; [done|by right|by right]. }
  apply Hquiet in H as [(documents & w3 & H & Hw3)|Hend];
    [|by apply Hstop|apply job_quiet_getDocumentsForJob|done].
  destruct documents as [|d documents].
  { injection H as <- <-. exists [processing]. by split; [|right]. }
  apply Hquiet in H as [(results & w4 & H & Hw4)|Hend];
    [|by apply Hstop|apply job_quiet_processDocuments|done].
  apply Hquiet in H as [(md & w5 & H & Hw5)|Hend];
    [|by apply Hstop|apply job_quiet_writeResults|done].
  apply bind_inv in H as [(j2 & w6 & Hsave2 & H)|[(e & Hsave2 & ->)|(Hsave2 & ->)]].
  - injection H as <- <-. apply job_save_statuses in Hsave2. simpl in Hsave2.
    exists [processing; completed]. split; [|done].
    rewrite Hsave2, Hw5. by rewrite <- app_assoc.
  - apply job_save_statuses in Hsave2. rewrite app_nil_r in Hsave2.
    exists [processing]. split; [congruence|by right].
  - apply job_save_statuses in Hsave2. rewrite app_nil_r in Hsave2.
    exists [processing]. split; [congruence|by right].
Qed.

(** What the [catch] block writes: [failed], or nothing. *)
Lemma executeHandler_statuses jobId e w o w' :
  executeHandler env jobId e w = (o, w') ->
  exists saved,
    job_statuses (trace w') = job_statuses (trace w) ++ saved
    /\ (saved = [] \/ saved = [failed])
    /\ match o with Returned _ => False | _ => True end.
Proof.
  unfold executeHandler. intros H.
  destruct (job_findById_returns jobId w) as (found & w1 & Hfind & (_ & _ & Hq1)).
  rewrite (bind_returned _ _ _ _ _ Hfind) in H.
  destruct found as [job|].
  2:{ injection H as <- <-. exists []. rewrite app_nil_r. by split_and!; [|left|]. }
  apply bind_inv in H as [(j1 & w2 & Hsave & H)|[(e' & Hsave & ->)|(Hsave & ->)]];
    apply job_save_statuses in Hsave; simpl in Hsave.
  - injection H as <- <-. exists [failed]. split_and!; [congruence|by right|done].
  - exists []. rewrite app_nil_r in *. split_and!; [congruence|by left|done].
  - exists []. rewrite app_nil_r in *. split_and!; [congruence|by left|done].
Qed.

End Statuses.

(** C6, as the code has it: in one run of [execute] the statuses written
    for the job come in the order processing, then completed or failed,
    each of them at most once and possibly missing, whatever fails on the
    way; in particular no run writes processing after a terminal status. *)
Theorem execute_statuses_in_order env fuel jobId w o w' :
  execute env fuel jobId w = (o, w') ->
  exists saved,
    job_statuses (trace w') = job_statuses (trace w) ++ saved
    /\ saved ∈ [[]; [processing]; [failed];
                [processing; completed]; [processing; failed]].
Proof.
  unfold execute, try_catch.
  destruct (executeBody env fuel jobId w) as [[r|e|] w1] eqn:Hbody;
    apply executeBody_statuses in Hbody as (saved1 & Htr1 & Hsaved1).
  - intros [= <- <-]. exists saved1. split; [done|]. subst. set_solver.
  - intros Hh.
    apply executeHandler_statuses in Hh as (saved2 & Htr2 & Hsaved2 & _).
    exists (saved1 ++ saved2). split.
    + by rewrite Htr2, Htr1, <- app_assoc.
    + destruct Hsaved1 as [-> | ->], Hsaved2 as [-> | ->]; set_solver.
  - intros [= <- <-]. exists saved1. split; [done|].
    destruct Hsaved1 as [-> | ->]; set_solver.
Qed.

Lemma execute_statuses_in_order_witness :
  exists saved,
    job_statuses (trace (execute sample_env 10 "j1"
                           (one_job_world pending)).2)
    = [] ++ saved
    /\ saved ∈ [[]; [processing]; [failed];
                [processing; completed]; [processing; failed]].
Proof.
  exact (execute_statuses_in_order sample_env 10 "j1"
           (one_job_world pending) _ _ (surjective_pairing _)).
Defined.

(** C6, the counterexample: the methods of [Job] set the status without
    looking at the current one, and [execute] calls [markProcessing] on
    whatever job it finds.  A completed job goes back to processing, both
    as an object and in the collection. *)
Lemma completed_job_reenters_processing :
  (let j := Job.apply_ops (one_job pending)
              [Job.OpMarkProcessing;
               Job.OpMarkCompleted
                 (Job.mkSummary "j1" 1 1 0 (Output.mkMetadata "j1" [] 1 0 "jsonl" true));
               Job.OpMarkProcessing] in
   Job.status j = processing)
  /\ Job.terminal completed = true
  /\ (Job.rank processing < Job.rank completed)%nat
  /\ job_statuses (trace (execute sample_env 10 "j1"
                            (one_job_world completed)).2)
     = [processing; completed].
Proof. split_and!; [reflexivity|reflexivity|simpl; lia|vm_compute; reflexivity]. Qed.

End JobStatusFacts.

(* ===================================================================== *)
(** * Facts about extractFromDocument                                    *)
(* ===================================================================== *)

Module ExtractFacts.
Import Runtime RuntimeFacts ProcessJobUseCase.
Import Observe Samples.

Lemma eqb_false_of_ne (a b : string) : a <> b -> String.eqb a b = false.
Proof. intros H. by apply String.eqb_neq. Qed.

Lemma extractionTypeOf_unsupported job t :
  Job.type (Job.extractionConfig job) = Some t -> t <> EmptyString ->
  extractionTypeOf (Job.extractionConfig job) = t.
Proof.
  intros Ht Hne. unfold extractionTypeOf. rewrite Ht.
  by rewrite (eqb_false_of_ne _ _ Hne).
Qed.

Section Unsupported.
Variable env : Env.
Variable t : string.
Hypothesis Hunsupported : t ∉ supportedTypes.

Lemma extractChunk_unsupported chunk w :
  extractChunk env t chunk w = (Thrown (UnsupportedExtractionType t), w).
Proof.
  unfold extractChunk, supportedTypes in *.
  rewrite !eqb_false_of_ne; [done|..]; intros ->; set_solver.
Qed.

(** With at least one chunk the loop stops at the first, before any call. *)
Lemma extractChunks_unsupported i chunk chunks w :
  extractChunks env t i (chunk :: chunks) w
  = (Thrown (UnsupportedExtractionType t), w).
Proof.
  cbn [extractChunks].
  by rewrite (bind_thrown _ _ _ _ _ (extractChunk_unsupported chunk w)).
Qed.
End Unsupported.

(** A document that needs chunking yields at least one chunk. *)
Lemma chunkContent_nonempty fuel content maxChunkSize overlap chunks :
  Document.needsChunking content maxChunkSize = true ->
  0 <= maxChunkSize ->
  Document.chunkContent fuel content maxChunkSize overlap = Some chunks ->
  chunks <> [].
Proof.
  intros Hneeds Hmax. unfold Document.chunkContent. rewrite Hneeds. simpl.
  unfold Document.needsChunking, Document.getSize in Hneeds.
  apply Z.ltb_lt in Hneeds.
  destruct fuel as [|fuel]; simpl;
    rewrite (proj2 (Z.ltb_lt 0 (Document.strlen content))) by lia; [done|].
  destruct (Document.chunk_loop fuel _ _ _ _); [|done].
  by intros [= <-].
Qed.

(** C7, as the code has it: for a type tag that is a non-empty string
    other than the four supported ones, [extractFromDocument] throws the
    unsupported-type error before any call to the extractor, and after the
    content has been chunked when chunking applies: the chunker's event is
    in the trace, the extractor's call counter has not moved. *)
Theorem extractFromDocument_unsupported_type env fuel job d w t chunks :
  Job.type (Job.extractionConfig job) = Some t ->
  t <> EmptyString ->
  t ∉ supportedTypes ->
  0 <= maxChunkSize env ->
  let chunked :=
    enableChunking env
    && Document.needsChunking (Document.content d) (maxChunkSize env) in
  (chunked = true ->
   Document.chunkContent fuel (Document.content d) (maxChunkSize env)
     Document.default_overlap = Some chunks) ->
  extractFromDocument env fuel job d w
  = (Thrown (UnsupportedExtractionType t),
     set_trace
       (trace w ++ EvExtract (Document.id d)
          :: (if chunked then [EvChunked (Document.id d) (length chunks)] else []))
       w).
Proof.
  intros Ht Hne Hunsupported Hmax chunked Hchunks.
  unfold extractFromDocument.
  rewrite (extractionTypeOf_unsupported job t Ht Hne).
  fold chunked. destruct w as [jf jl df dl fs om io ec tr].
  destruct chunked eqn:Hchunked.
  - specialize (Hchunks eq_refl).
    assert (Hne' : chunks <> []).
    { apply andb_prop in Hchunked as [_ Hneeds].
      by eapply chunkContent_nonempty. }
    rewrite Hchunks. destruct chunks as [|chunk chunks]; [done|].
    unfold_m. cbn -[extractChunks].
    rewrite (extractChunks_unsupported env t Hunsupported).
    cbn. by rewrite <- app_assoc.
  - unfold_m. cbn -[extractChunks].
    by rewrite (extractChunks_unsupported env t Hunsupported).
Qed.

Lemma extractFromDocument_unsupported_type_witness :
  extractFromDocument sample_env 4100 (job_of_type (Some "xml"%string))
    long_document sample_world
  = (Thrown (UnsupportedExtractionType "xml"),
     set_trace [EvExtract "d1"; EvChunked "d1" 2] sample_world).
Proof.
  apply (extractFromDocument_unsupported_type sample_env 4100
           (job_of_type (Some "xml"%string)) long_document sample_world
           "xml"
           [Document.repeat_char "a" 4000; Document.repeat_char "a" 300]).
  - reflexivity.
  - discriminate.
  - unfold supportedTypes. intros H. repeat (apply elem_of_cons in H as [H|H]; [discriminate H|]).
    by apply elem_of_nil in H.
  - simpl. lia.
  - intros _. vm_compute. reflexivity.
Defined.

(** C7, the counterexamples.  A document longer than [maxChunkSize] under
    the unsupported type [xml]: the error is thrown, and the trace shows
    that the content had been cut into two chunks by then.  And a type tag
    that is the empty string is not one of the four, yet nothing is
    rejected: it is read as [schema] and the extractor is called. *)
Lemma unsupported_type_is_chunked_first :
  (let run := extractFromDocument sample_env 4100
                (job_of_type (Some "xml"%string)) long_document
                sample_world in
   run.1 = Thrown (UnsupportedExtractionType "xml")
   /\ trace run.2 = [EvExtract "d1"; EvChunked "d1" 2])
  /\ (let run := extractFromDocument sample_env 10
                   (job_of_type (Some empty_type)) one_document
                   sample_world in
      (empty_type ∉ supportedTypes)
      /\ run.1 = Returned (Json.JStr "some text")
      /\ trace run.2
         = [EvExtract "d1"; EvExtractorCall 0 "extractWithSchema" "some text"]).
Proof.
  split; [split; vm_compute; reflexivity|].
  split_and!; [|vm_compute; reflexivity..].
  unfold supportedTypes. intros H.
  repeat (apply elem_of_cons in H as [H|H]; [discriminate H|]).
  by apply elem_of_nil in H.
Qed.

End ExtractFacts.

(* ===================================================================== *)
(** * Facts about execute: how a run fails                               *)
(* ===================================================================== *)

Module ExecuteFacts.
Import Runtime RuntimeFacts FrameFacts UseCaseFrames ProcessJobUseCase.
Import Document (pending, processing, completed, failed).
Import Observe Samples.

Section Failures.
Variable env : Env.
Variable fuel : nat.

(** A job that is not in the collection is not found, whether the read
    goes through or not. *)
Lemma job_findById_missing id w :
  find_by_id Job.id id (jobsFile w) = None ->
  JobRepository.findById env id w
  = (Returned None, set_ioCount (S (ioCount w)) w).
Proof.
  intros Hmissing. unfold JobRepository.findById, JobRepository.getAllJobs.
  unfold_m. cbn -[find_by_id].
  destruct (io_fault env (ioCount w)); cbn -[find_by_id]; [done|].
  by rewrite Hmissing.
Qed.

Lemma execute_job_not_found jobId w :
  find_by_id Job.id jobId (jobsFile w) = None ->
  execute env fuel jobId w
  = (Thrown (JobNotFound jobId), set_ioCount (S (S (ioCount w))) w).
Proof.
  intros Hmissing. unfold execute, try_catch, executeBody, executeHandler.
  rewrite (bind_returned _ _ _ _ _ (job_findById_missing jobId w Hmissing)).
  unfold throw at 1.
  rewrite (bind_returned _ _ _ None (set_ioCount (S (S (ioCount w))) w)).
  - done.
  - rewrite job_findById_missing by (by destruct w). by destruct w.
Qed.

(** The [catch] block when its own read and write go through: the job is
    stored as failed with the message of the error, which is thrown again. *)
Lemma executeHandler_ok jobId e w job :
  find_by_id Job.id jobId (jobsFile w) = Some job ->
  jobsLock w = false ->
  (forall i, (i < 4)%nat -> io_fault env (ioCount w + i) = None) ->
  exists w',
    executeHandler env jobId e w = (Thrown e, w')
    /\ find_by_id Job.id jobId (jobsFile w')
       = Some (Job.markFailed (message e) job)
    /\ forall id, id <> jobId ->
         find_by_id Job.id id (jobsFile w') = find_by_id Job.id id (jobsFile w).
Proof.
  intros Hfound Hlock Hio.
  pose proof (find_by_id_key Job.id _ _ _ Hfound) as Hid.
  pose proof (Hio 0%nat ltac:(lia)) as H0.
  pose proof (Hio 1%nat ltac:(lia)) as H1.
  pose proof (Hio 2%nat ltac:(lia)) as H2.
  pose proof (Hio 3%nat ltac:(lia)) as H3.
  destruct w as [jf jl df dl fs om io ec tr]. simpl in *. subst jl.
  replace (io + 0)%nat with io in H0 by lia.
  replace (io + 1)%nat with (S io) in H1 by lia.
  replace (io + 2)%nat with (S (S io)) in H2 by lia.
  replace (io + 3)%nat with (S (S (S io))) in H3 by lia.
  unfold executeHandler, JobRepository.findById, JobRepository.save,
    JobRepository.acquireLock, JobRepository.releaseLock, JobRepository.getAllJobs.
  unfold_m. cbn -[find_by_id upsert]. rewrite H0. cbn -[find_by_id upsert].
  rewrite Hfound. cbn -[find_by_id upsert].
  rewrite H1. cbn -[find_by_id upsert]. rewrite H2. cbn -[find_by_id upsert].
  rewrite H3. cbn -[find_by_id upsert].
  destruct (io_fault env (S (S (S (S io))))); cbn -[find_by_id upsert];
    (eexists; split; [reflexivity|]); cbn -[find_by_id upsert];
    (split; [rewrite find_by_id_upsert; cbn; by rewrite Hid, decide_True|]);
    intros id Hne; rewrite find_by_id_upsert; cbn; rewrite Hid;
    destruct (decide (jobId = id)); congruence.
Qed.

End Failures.




(** ** Missing jobs and missing documents *)

Lemma docs_world_jobsFile job w : jobsFile (docs_world job w) = jobsFile w.
Proof. unfold docs_world. by destruct (Job.documentIds job), w. Qed.

Lemma docs_world_jobsLock job w : jobsLock (docs_world job w) = jobsLock w.
Proof. unfold docs_world. by destruct (Job.documentIds job), w. Qed.

Lemma getDocumentsForJob_ok env (Hnf : no_faults env) job w :
  getDocumentsForJob env job w
  = (Returned (filter (fun d => Document.id d ∈ Job.documentIds job)
                 (documentsFile w)),
     docs_world job w).
Proof.
  unfold getDocumentsForJob, docs_world.
  destruct (Job.documentIds job) as [|i ids].
  - f_equal. f_equal. symmetry.
    induction (documentsFile w) as [|d ds IH]; [done|].
    rewrite filter_cons, decide_False; [done|]. apply not_elem_of_nil.
  - by rewrite (document_findByIds_ok env Hnf).
Qed.

(** C4, as the code has it: a job id that is not in the collection gives
    the not-found error; a job none of whose document ids is in the
    document collection (or that has no ids) gives the no-documents error,
    with the job stored as failed.  Document ids that are missing among
    others that exist are not an error. *)
Theorem execute_not_found_or_empty env fuel jobId w :
  no_faults env ->
  jobsLock w = false ->
  (find_by_id Job.id jobId (jobsFile w) = None ->
   exists w', execute env fuel jobId w = (Thrown (JobNotFound jobId), w'))
  /\ (forall job,
        find_by_id Job.id jobId (jobsFile w) = Some job ->
        filter (fun d => Document.id d ∈ Job.documentIds job) (documentsFile w) = [] ->
        exists w' stored,
          execute env fuel jobId w = (Thrown (NoDocumentsFound jobId), w')
          /\ find_by_id Job.id jobId (jobsFile w') = Some stored
          /\ Job.status stored = failed
          /\ Job.error (Job.metadata stored)
             = Some (message (NoDocumentsFound jobId))).
Proof.
  intros Hnf Hlock. split.
  - intros Hmissing. eexists. by apply execute_job_not_found.
  - intros job Hfound Hnone.
    pose proof (find_by_id_key Job.id _ _ _ Hfound) as Hid.
    set (w1 := job_saved (Job.markProcessing job) (set_ioCount (S (ioCount w)) w)).
    assert (Hbody : executeBody env fuel jobId w
                    = (Thrown (NoDocumentsFound jobId),
                       docs_world (Job.markProcessing job) w1)).
    { unfold executeBody.
      rewrite (bind_returned _ _ _ _ _ (job_findById_ok env Hnf jobId w)).
      rewrite Hfound. cbv beta iota zeta.
      assert (Hlock1 : jobsLock (set_ioCount (S (ioCount w)) w) = false)
        by (by destruct w).
      rewrite (bind_returned _ _ _ _ _
                 (job_save_ok env Hnf (Job.markProcessing job) _ Hlock1)).
      rewrite (bind_returned _ _ _ _ _
                 (getDocumentsForJob_ok env Hnf (Job.markProcessing job) _)).
      fold w1. change (documentsFile w1) with (documentsFile w).
      change (Job.documentIds (Job.markProcessing job)) with (Job.documentIds job).
      by rewrite Hnone. }
    destruct (executeHandler_ok env jobId (NoDocumentsFound jobId)
                (docs_world (Job.markProcessing job) w1)
                (Job.markProcessing job))
      as (w2 & Hhandler & Hstored & _).
    + rewrite docs_world_jobsFile. simpl.
      rewrite find_by_id_upsert. simpl. by rewrite Hid, decide_True.
    + by rewrite docs_world_jobsLock.
    + intros i _. apply Hnf.
    + exists w2, (Job.markFailed (message (NoDocumentsFound jobId))
                    (Job.markProcessing job)).
      split_and!; [|done..].
      unfold execute, try_catch. by rewrite Hbody.
Qed.

Lemma execute_not_found_or_empty_witness :
  (exists w',
     execute sample_env 10 "j2" (world_with_ids ["d1"%string])
     = (Thrown (JobNotFound "j2"), w'))
  /\ (exists w' stored,
        execute sample_env 10 "j1" (world_with_ids ["ghost"%string])
        = (Thrown (NoDocumentsFound "j1"), w')
        /\ find_by_id Job.id "j1" (jobsFile w') = Some stored
        /\ Job.status stored = failed
        /\ Job.error (Job.metadata stored)
           = Some (message (NoDocumentsFound "j1"))).
Proof.
  split.
  - apply (execute_not_found_or_empty sample_env 10 "j2"
             (world_with_ids ["d1"%string])); [by intros k|reflexivity|reflexivity].
  - apply (proj2 (execute_not_found_or_empty sample_env 10 "j1"
                    (world_with_ids ["ghost"%string])
                    (fun k => eq_refl) eq_refl)
             (job_with_ids ["ghost"%string])); vm_compute; reflexivity.
Defined.

(** C4, the counterexample: the job names two documents, [d1], which is in
    the collection, and [ghost], which is not.  The run does not fail: it
    returns a summary over the one document that was found. *)
Lemma execute_skips_missing_documents :
  let w := world_with_ids ["d1"; "ghost"]%string in
  let run := execute sample_env 10 "j1" w in
  find_by_id Document.id "ghost" (documentsFile w) = None
  /\ "ghost"%string ∈ Job.documentIds (job_with_ids ["d1"; "ghost"]%string)
  /\ (exists summary,
        run.1 = Returned summary
        /\ Job.totalDocuments summary = 1
        /\ Job.processedDocuments summary = 1
        /\ Job.failedDocuments summary = 0)
  /\ (Job.status <$> find_by_id Job.id "j1" (jobsFile run.2)) = Some completed.
Proof.
  split_and!.
  - vm_compute. reflexivity.
  - simpl. apply elem_of_cons. right. apply elem_of_cons. by left.
  - eexists. split; [vm_compute; reflexivity|]. by split_and!.
  - vm_compute. reflexivity.
Qed.

End ExecuteFacts.

(* ===================================================================== *)
(** * Facts about the retry loop of processDocument                      *)
(* ===================================================================== *)

Module RetryFacts.
Import Runtime RuntimeFacts FrameFacts ProcessJobUseCase Observe.
Import Document (pending, processing, completed, failed).
Import Samples.

(** ** What extraction changes *)

#[export] Instance detail_only_preorder : PreOrder detail_only.
Proof.
  split.
  - intros w. exists (extractorCalls w), []. split; [|done].
    destruct w. simpl. by rewrite app_nil_r.
  - intros w1 w2 w3 (n1 & evs1 & -> & H1) (n2 & evs2 & -> & H2).
    exists n2, (evs1 ++ evs2). split; [|by apply Forall_app].
    destruct w1. simpl. by rewrite app_assoc.
Qed.

Lemma detail_only_emit e : is_detail e -> preserves detail_only (emit e).
Proof.
  intros He. apply preserves_modify. intros w.
  exists (extractorCalls w), [e]. split; [by destruct w|by constructor].
Qed.

Section Extraction.
Variable env : Env.
Variable fuel : nat.

Lemma detail_only_callExtractor method chunk :
  preserves detail_only (callExtractor env method chunk).
Proof.
  intros w o w'. unfold callExtractor.
  destruct (extractor env _ _ _); intros [= _ <-];
    exists (S (extractorCalls w)), [EvExtractorCall (extractorCalls w) method chunk];
    (split; [by destruct w|by constructor]).
Qed.
Hint Resolve detail_only_callExtractor : frames.
Hint Extern 1 (preserves detail_only (emit _)) =>
  (apply detail_only_emit; exact I) : frames.

Lemma detail_only_extractChunk t chunk :
  preserves detail_only (extractChunk env t chunk).
Proof. unfold extractChunk. frames. Qed.
Hint Resolve detail_only_extractChunk : frames.

Lemma detail_only_extractChunks t chunks : forall i,
  preserves detail_only (extractChunks env t i chunks).
Proof. induction chunks as [|c chunks IH]; intros i; simpl; frames. Qed.
Hint Resolve detail_only_extractChunks : frames.

Lemma detail_only_combine crs t :
  preserves detail_only (combineChunkResults env crs t).
Proof. unfold combineChunkResults. frames. Qed.
Hint Resolve detail_only_combine : frames.

(** One entry into [extractFromDocument] is recorded, then details. *)
Lemma extractFromDocument_trace job d w o w' :
  extractFromDocument env fuel job d w = (o, w') ->
  exists n evs,
    w' = set_extractorCalls n
           (set_trace (trace w ++ EvExtract (Document.id d) :: evs) w)
    /\ Forall is_detail evs.
Proof.
  unfold extractFromDocument. rewrite bind_run.
  change (emit (EvExtract (Document.id d)) w)
    with (Returned tt, set_trace (trace w ++ [EvExtract (Document.id d)]) w).
  cbv beta iota. intros Hrest.
  assert (Hframe : detail_only
                     (set_trace (trace w ++ [EvExtract (Document.id d)]) w) w').
  { revert Hrest. generalize (set_trace (trace w ++ [EvExtract (Document.id d)]) w).
    intros w1. revert w1 o w'.
    change (preserves detail_only
      ((if enableChunking env
           && Document.needsChunking (Document.content d) (maxChunkSize env)
        then
          cs ← pushed (Document.chunkContent fuel (Document.content d)
                            (maxChunkSize env) Document.default_overlap);
          _ ← emit (EvChunked (Document.id d) (length cs));
          mret cs
        else mret [Document.content d])
       ≫= (fun chunks =>
             results ← extractChunks env
                         (extractionTypeOf (Job.extractionConfig job)) 0 chunks;
             combineChunkResults env results
               (extractionTypeOf (Job.extractionConfig job))))).
    frames. }
  destruct Hframe as (n & evs & -> & Hevs).
  exists n, evs. split; [|done]. destruct w. simpl. by rewrite <- app_assoc.
Qed.

End Extraction.

(** ** Counting *)

Lemma extraction_count_app id tr1 tr2 :
  extraction_count id (tr1 ++ tr2)
  = (extraction_count id tr1 + extraction_count id tr2)%nat.
Proof.
  induction tr1 as [|e tr1 IH]; [done|].
  destruct e; simpl; rewrite IH; lia.
Qed.

Lemma extraction_count_details id evs :
  Forall is_detail evs -> extraction_count id evs = 0%nat.
Proof. induction 1 as [|e evs He _ IH]; [done|]. by destruct e. Qed.

Lemma extraction_count_self id : extraction_count id [EvExtract id] = 1%nat.
Proof. simpl. by rewrite String.eqb_refl. Qed.

(** ** The loop, whatever fails *)

Section Loop.
Variable env : Env.
Variable fuel : nat.

Lemma attemptOnce_attempts job attempt d w d' r w' :
  attemptOnce env fuel job attempt d w = (d', Returned r, w') ->
  attempts r = attempt + 1.
Proof.
  unfold attemptOnce.
  destruct (DocumentRepository.save env _ w) as [[?|?|] w1]; try discriminate.
  destruct (extractFromDocument env fuel job _ w1) as [[v|?|] w2]; try discriminate.
  destruct (DocumentRepository.save env _ w2) as [[?|?|] w3]; try discriminate.
  by intros [= _ <- _].
Qed.

(** A result carries the number of the pass that produced it. *)
Lemma retryLoop_success job remaining : forall attempt d lastError w d' r w',
  retryLoop env fuel job remaining attempt d lastError w
  = (Returned (d', Some r), w') ->
  exists errors,
    attemptLog env fuel job remaining attempt d w
    = map Thrown errors ++ [Returned r]
    /\ attempts r = attempt + Z.of_nat (length errors) + 1.
Proof.
  induction remaining as [|n IH]; intros attempt d lastError w d' r w'.
  - simpl. destruct lastError as [e|]; [|discriminate].
    intros H. apply JobStatusFacts.bind_inv in H
      as [(x & w1 & _ & H)|[(e' & _ & H)|(_ & H)]]; discriminate.
  - simpl.
    destruct (attemptOnce env fuel job attempt d w) as [[d1 [r1|e|]] w1] eqn:Hatt.
    + intros [= <- <- <-]. exists []. split; [done|].
      rewrite (attemptOnce_attempts _ _ _ _ _ _ _ Hatt). simpl. lia.
    + intros Hrest. destruct (IH _ _ _ _ _ _ _ Hrest) as (errors & Hlog & Hn).
      exists (e :: errors). split; [by rewrite Hlog|].
      rewrite Hn. simpl length. lia.
    + discriminate.
Qed.


(** ** The loop when the stores work and extraction is always rejected *)

Hypothesis Hnf : no_faults env.

Lemma retryLoop_exhausts job document remaining :
  extraction_always_fails env fuel job document ->
  forall attempt d lastError w,
    Document.id d = Document.id document ->
    Document.content d = Document.content document ->
    documentsLock w = false ->
    (is_Some lastError \/ (0 < remaining)%nat) ->
    exists d' w',
      retryLoop env fuel job remaining attempt d lastError w
      = (Returned (d', None), w')
      /\ Document.status d' = failed
      /\ Document.id d' = Document.id document
      /\ find_by_id Document.id (Document.id document) (documentsFile w') = Some d'
      /\ documentsLock w' = false
      /\ extraction_count (Document.id document) (trace w')
         = (extraction_count (Document.id document) (trace w) + remaining)%nat
      /\ Forall is_rejection (attemptLog env fuel job remaining attempt d w).
Proof.
  intros Hfails.
  induction remaining as [|n IH]; intros attempt d lastError w Hid Hcontent Hlock Hle.
  - destruct Hle as [[e ->]|Hle]; [|lia]. simpl.
    rewrite (bind_returned _ _ _ _ _ (document_save_ok env Hnf _ w Hlock)).
    eexists _, _. split; [reflexivity|].
    split_and!; try done.
    + simpl. rewrite find_by_id_upsert. simpl. by rewrite Hid, decide_True.
    + simpl. rewrite extraction_count_app. simpl. lia.
  - set (d1 := Document.markProcessing d).
    destruct (Hfails d1 (document_saved d1 w) Hid Hcontent) as (e & w2 & Hextract).
    assert (Hatt : attemptOnce env fuel job attempt d w = (d1, Thrown e, w2)).
    { unfold attemptOnce. fold d1.
      by rewrite (document_save_ok env Hnf d1 w Hlock), Hextract. }
    destruct (extractFromDocument_trace env fuel job d1 _ _ _ Hextract)
      as (k & evs & Hw2 & Hevs).
    destruct (IH (attempt + 1) d1 (Some e) w2) as
      (d' & w' & Hloop & Hstatus & Hid' & Hfound & Hlock' & Hcount & Hlog).
    + done.
    + done.
    + rewrite Hw2. by destruct w.
    + left. by eexists.
    + exists d', w'. simpl. rewrite Hatt.
      split_and!; try done.
      * rewrite Hcount, Hw2. destruct w as [jf jl df dl fs om io ec tr]. simpl.
        rewrite !extraction_count_app. simpl.
        rewrite Hid, String.eqb_refl.
        rewrite (extraction_count_details _ evs Hevs). lia.
      * by constructor.
Qed.

End Loop.




End RetryFacts.

(* ===================================================================== *)
(** * Facts about batching: groups do not change what is processed       *)
(* ===================================================================== *)

Module BatchFacts.
Import Runtime RuntimeFacts ProcessJobUseCase.
Import Observe.

Lemma mmap_run {A B} (f : A -> B) (m : M A) w :
  mmap f m w
  = match m w with
    | (Returned a, w') => (Returned (f a), w')
    | (Thrown e, w') => (Thrown e, w')
    | (Unfinished, w') => (Unfinished, w')
    end.
Proof. reflexivity. Qed.

Lemma for_each_cons_run {A B} (f : A -> M B) x xs w :
  for_each f (x :: xs) w
  = match f x w with
    | (Returned b, w1) => mmap (cons b) (for_each f xs) w1
    | (Thrown e, w1) => (Thrown e, w1)
    | (Unfinished, w1) => (Unfinished, w1)
    end.
Proof. reflexivity. Qed.

Lemma for_each_app_run {A B} (f : A -> M B) xs ys w :
  for_each f (xs ++ ys) w
  = match for_each f xs w with
    | (Returned bs, w1) => mmap (app bs) (for_each f ys) w1
    | (Thrown e, w1) => (Thrown e, w1)
    | (Unfinished, w1) => (Unfinished, w1)
    end.
Proof.
  revert w. induction xs as [|x xs IH]; intros w.
  - simpl. rewrite mmap_run. by destruct (for_each f ys w) as [[?|?|] ?].
  - rewrite <- app_comm_cons, !for_each_cons_run.
    destruct (f x w) as [[b|e|] w1]; [|done|done].
    rewrite !mmap_run, IH.
    destruct (for_each f xs w1) as [[bs|e|] w2]; [|done|done].
    rewrite !mmap_run. by destruct (for_each f ys w2) as [[?|?|] ?].
Qed.

(** Grouping the elements, running the groups one after the other and
    putting the parts together is running the elements one after the
    other. *)
Lemma for_each_nested {A B C D} (f : A -> M B) (h1 : list B -> C)
    (c : list C -> list D) (h : list B -> list D) :
  c [] = [] -> h [] = [] ->
  (forall a rest, c (h1 a :: rest) = h a ++ c rest) ->
  (forall a b, h (a ++ b) = h a ++ h b) ->
  forall groups w,
    mmap c (for_each (fun g => mmap h1 (for_each f g)) groups) w
    = mmap h (for_each f (concat groups)) w.
Proof.
  intros Hc Hh Hcons Happ groups.
  induction groups as [|g groups IH]; intros w.
  - simpl. rewrite !mmap_run. simpl. by rewrite Hc, Hh.
  - simpl concat. rewrite mmap_run, for_each_cons_run, (mmap_run h).
    rewrite for_each_app_run, mmap_run.
    destruct (for_each f g w) as [[bs|e|] w1]; [|done|done].
    specialize (IH w1). rewrite !mmap_run in IH. rewrite !mmap_run.
    destruct (for_each _ groups w1) as [[cs|e|] w2],
             (for_each f (concat groups) w1) as [[ds|e'|] w2'];
      try discriminate; try done.
    injection IH as IH <-. by rewrite Hcons, Happ, IH.
Qed.

(** A group of settled promises never rejects. *)
Lemma for_each_settled_no_throw {A B} (f : A -> M B) xs w e w' :
  for_each (fun x => settled (f x)) xs w <> (Thrown e, w').
Proof.
  revert w. induction xs as [|x xs IH]; intros w; [done|].
  rewrite for_each_cons_run. unfold settled at 1.
  destruct (f x w) as [[b|e1|] w1]; try done;
    rewrite mmap_run; specialize (IH w1);
    by destruct (for_each _ xs w1) as [[?|?|] ?].
Qed.

Lemma fulfilledResults_app a b :
  fulfilledResults (a ++ b) = fulfilledResults a ++ fulfilledResults b.
Proof. unfold fulfilledResults. apply omap_app. Qed.

Section Flat.
Variable env : Env.
Variable fuel : nat.

#[local] Abbreviation processEach := (Observe.processEach env fuel).

Lemma processBatch_flat job batch w :
  (0 < maxConcurrentWorkers env)%nat ->
  processBatch env fuel job batch w
  = mmap fulfilledResults (processEach job batch) w.
Proof.
  intros Hsize. unfold processBatch.
  destruct (JsFacts.slices_total batch _ Hsize) as [groups Hgroups].
  rewrite Hgroups.
  rewrite (bind_returned _ _ _ groups w) by reflexivity.
  etransitivity.
  { apply (for_each_nested
             (fun document => settled (processDocument env fuel job document))
             fulfilledResults (@concat _) fulfilledResults);
      [done|done|done|apply fulfilledResults_app]. }
  by rewrite (JsFacts.slices_concat _ _ _ Hgroups).
Qed.

Lemma settled_processBatch job batch w :
  (0 < maxConcurrentWorkers env)%nat ->
  settled (processBatch env fuel job batch) w
  = mmap (fun rs => Some (fulfilledResults rs)) (processEach job batch) w.
Proof.
  intros Hsize. unfold settled. rewrite (processBatch_flat job batch w Hsize).
  rewrite !mmap_run.
  destruct (processEach job batch w) as [[rs|e|] w1] eqn:Hrun; try done.
  by apply for_each_settled_no_throw in Hrun.
Qed.

Lemma for_each_ext {A B} (f g : A -> M B) xs w :
  (forall x w, f x w = g x w) -> for_each f xs w = for_each g xs w.
Proof.
  intros Hfg. revert w. induction xs as [|x xs IH]; intros w; [done|].
  rewrite !for_each_cons_run, Hfg.
  destruct (g x w) as [[b|e|] w1]; try done. by rewrite !mmap_run, IH.
Qed.

(** With positive sizes, [processDocuments] is the documents processed one
    after the other, and the results of those that gave one. *)
Lemma concat_omap_app {X} (a b : list (option (list X))) :
  concat (omap id (a ++ b)) = concat (omap id a) ++ concat (omap id b).
Proof. by rewrite omap_app, concat_app. Qed.

(** With positive sizes, [processDocuments] is the documents processed one
    after the other, and the results of those that gave one. *)
Lemma processDocuments_flat job documents w :
  (0 < maxBatchSize env)%nat ->
  (0 < maxConcurrentBatches env)%nat ->
  (0 < maxConcurrentWorkers env)%nat ->
  processDocuments env fuel job documents w
  = mmap fulfilledResults (processEach job documents) w.
Proof.
  intros Hbatch Hgroups Hworkers. unfold processDocuments, createBatches.
  destruct (JsFacts.slices_total documents _ Hbatch) as [batches Hbatches].
  rewrite Hbatches. rewrite (bind_returned _ _ _ batches w) by reflexivity.
  destruct (JsFacts.slices_total batches _ Hgroups) as [batchGroups HbatchGroups].
  rewrite HbatchGroups. rewrite (bind_returned _ _ _ batchGroups w) by reflexivity.
  etransitivity.
  { apply (for_each_nested
             (fun batch => settled (processBatch env fuel job batch))
             (fun brs => concat (omap id brs)) (@concat _)
             (fun brs => concat (omap id brs)));
      [done|done|done|apply concat_omap_app]. }
  rewrite (JsFacts.slices_concat _ _ _ HbatchGroups).
  rewrite mmap_run.
  rewrite (for_each_ext _
             (fun batch => mmap (fun rs => Some (fulfilledResults rs))
                             (processEach job batch)))
    by (intros; by apply settled_processBatch).
  rewrite <- mmap_run.
  etransitivity.
  { apply (for_each_nested
             (fun document => settled (processDocument env fuel job document))
             (fun rs => Some (fulfilledResults rs))
             (fun per => concat (omap id per)) fulfilledResults);
      [done|done|done|apply fulfilledResults_app]. }
  by rewrite (JsFacts.slices_concat _ _ _ Hbatches).
Qed.

End Flat.

(** ** Code that comes to an end *)

Lemma finishes_ret {A} (a : A) : finishes (mret a : M A).
Proof. by intros w w'. Qed.

Lemma finishes_throw {A} e : finishes (throw e : M A).
Proof. by intros w w'. Qed.

Lemma finishes_emit e : finishes (emit e).
Proof. by intros w w'. Qed.

Lemma finishes_bind {A B} (m : M A) (k : A -> M B) :
  finishes m -> (forall a, finishes (k a)) -> finishes (m ≫= k).
Proof.
  intros Hm Hk w w'. rewrite bind_run.
  destruct (m w) as [[a|e|] w1] eqn:Hmw; [apply Hk|done|].
  by apply Hm in Hmw.
Qed.

Section Finishes.
Variable env : Env.
Variable fuel : nat.

Lemma finishes_callExtractor method chunk :
  finishes (callExtractor env method chunk).
Proof. intros w w'. unfold callExtractor. by destruct (extractor env _ _ _). Qed.

Lemma finishes_extractChunk t chunk : finishes (extractChunk env t chunk).
Proof.
  unfold extractChunk.
  repeat (destruct (String.eqb t _); [apply finishes_callExtractor|]).
  apply finishes_throw.
Qed.

Lemma finishes_extractChunks t chunks : forall i,
  finishes (extractChunks env t i chunks).
Proof.
  induction chunks as [|c chunks IH]; intros i; simpl; [apply finishes_ret|].
  apply finishes_bind; [apply finishes_extractChunk|intros r].
  apply finishes_bind; [apply IH|intros rs]. apply finishes_ret.
Qed.

Lemma finishes_combine crs t : finishes (combineChunkResults env crs t).
Proof.
  unfold combineChunkResults.
  destruct crs as [|cr [|cr2 crs]]; try apply finishes_ret;
    repeat (destruct (String.eqb t _);
            [first [apply finishes_ret | apply finishes_throw
                   | destruct (mergeSchema env _);
                     [apply finishes_ret|apply finishes_throw]]|]);
    apply finishes_ret.
Qed.

(** Extraction ends when the chunking loop does. *)
Lemma finishes_extractFromDocument job d :
  is_Some (Document.chunkContent fuel (Document.content d) (maxChunkSize env)
             Document.default_overlap) ->
  finishes (extractFromDocument env fuel job d).
Proof.
  intros [cs Hcs]. unfold extractFromDocument.
  apply finishes_bind; [apply finishes_emit|intros _].
  apply finishes_bind; [|intros chunks].
  - destruct (_ && _); [|apply finishes_ret]. rewrite Hcs.
    apply finishes_bind; [apply finishes_ret|intros cs'].
    apply finishes_bind; [apply finishes_emit|intros _]. apply finishes_ret.
  - apply finishes_bind; [apply finishes_extractChunks|intros results].
    apply finishes_combine.
Qed.

End Finishes.

(** The chunking loop ends under the shipped overlap when the chunk size
    is large enough for it and the fuel covers the content. *)
Lemma chunkContent_ends fuel content maxChunkSize :
  5 * Document.default_overlap < 4 * maxChunkSize ->
  (String.length content <= fuel)%nat ->
  is_Some (Document.chunkContent fuel content maxChunkSize Document.default_overlap).
Proof.
  intros Hconfig Hfuel. unfold Document.chunkContent.
  destruct (negb _); [by eexists|].
  apply DocumentFacts.chunk_loop_enough_fuel.
  - unfold Document.default_overlap in Hconfig. lia.
  - done.
  - unfold Document.strlen. lia.
Qed.

End BatchFacts.

(* ===================================================================== *)
(** * Facts about a whole run: documents that fail do not fail the job   *)
(* ===================================================================== *)

Module JobRunFacts.
Import Runtime RuntimeFacts FrameFacts UseCaseFrames ProcessJobUseCase Observe.
Import RetryFacts BatchFacts ExecuteFacts.
Import Document (pending, processing, completed, failed).
Import Written Samples.

Section Run.
Variable env : Env.
Variable fuel : nat.
Hypothesis Hnf : no_faults env.
Hypothesis Hconfig : 5 * Document.default_overlap < 4 * maxChunkSize env.

#[local] Abbreviation document_summary := (Observe.document_summary env fuel).

Lemma retryLoop_ok job document remaining :
  (String.length (Document.content document) <= fuel)%nat ->
  forall attempt d lastError w,
    Document.id d = Document.id document ->
    Document.content d = Document.content document ->
    documentsLock w = false ->
    (is_Some lastError \/ (0 < remaining)%nat) ->
    exists d' res w',
      retryLoop env fuel job remaining attempt d lastError w
      = (Returned (d', res), w')
      /\ document_processed document d' res w w'.
Proof.
  intros Hfuel.
  induction remaining as [|n IH]; intros attempt d lastError w Hid Hcontent Hlock Hle.
  - destruct Hle as [[e ->]|Hle]; [|lia].
    assert (Hrun : retryLoop env fuel job 0 attempt d (Some e) w
                   = (Returned (Document.markFailed (message e) d, None),
                      document_saved (Document.markFailed (message e) d) w)).
    { simpl. by rewrite (bind_returned _ _ _ _ _ (document_save_ok env Hnf _ w Hlock)). }
    eexists _, _, _. split; [exact Hrun|].
    split_and!; try done.
    + by eapply job_quiet_retryLoop.
    + intros i. simpl. rewrite find_by_id_upsert. simpl. by rewrite Hid.
  - set (d1 := Document.markProcessing d).
    set (w1 := document_saved d1 w).
    destruct (extractFromDocument env fuel job d1 w1) as [o w2] eqn:Hextract.
    destruct (extractFromDocument_trace env fuel job d1 _ _ _ Hextract)
      as (k & evs & Hw2 & _).
    assert (Hfile2 : documentsFile w2 = upsert Document.id d1 (documentsFile w))
      by (rewrite Hw2; by destruct w).
    assert (Hlock2 : documentsLock w2 = false) by (rewrite Hw2; by destruct w).
    destruct o as [v|e|].
    + set (d2 := Document.markCompleted v d1).
      assert (Hrun : retryLoop env fuel job (S n) attempt d lastError w
                     = (Returned (d2, Some (mkProcessingResult (Document.id d2)
                                              (Document.name d2) v (attempt + 1))),
                        document_saved d2 w2)).
      { simpl. unfold attemptOnce. fold d1.
        rewrite (document_save_ok env Hnf d1 w Hlock). fold w1.
        rewrite Hextract. fold d2.
        by rewrite (document_save_ok env Hnf d2 w2 Hlock2). }
      eexists _, _, _. split; [exact Hrun|].
      split_and!; try done.
      * by eapply job_quiet_retryLoop.
      * intros i. simpl. rewrite Hfile2, !find_by_id_upsert. simpl.
        rewrite Hid. by destruct (decide (Document.id document = i)).
    + destruct (IH (attempt + 1) d1 (Some e) w2)
        as (d' & res & w' & Hloop & Hl & _ & Hid' & Hfind & Hres);
        [done|done|done|left; by eexists|].
      assert (Hrun : retryLoop env fuel job (S n) attempt d lastError w
                     = (Returned (d', res), w')).
      { simpl. unfold attemptOnce. fold d1.
        rewrite (document_save_ok env Hnf d1 w Hlock). fold w1.
        by rewrite Hextract. }
      eexists _, _, _. split; [exact Hrun|].
      split_and!; try done.
      * by eapply job_quiet_retryLoop.
      * intros i. rewrite Hfind, Hfile2, find_by_id_upsert. simpl.
        rewrite Hid. by destruct (decide (Document.id document = i)).
    + exfalso. eapply (finishes_extractFromDocument env fuel job d1); [|exact Hextract].
      simpl. rewrite Hcontent. by apply chunkContent_ends.
Qed.

Hypothesis Hretries : 0 <= maxRetries env.

(** Processing a document always returns, with a result or with [null]. *)
Lemma processDocument_ok job document w :
  (String.length (Document.content document) <= fuel)%nat ->
  documentsLock w = false ->
  exists d' res w',
    processDocument env fuel job document w = (Returned (d', res), w')
    /\ document_processed document d' res w w'.
Proof.
  intros Hfuel Hlock. unfold processDocument.
  apply retryLoop_ok; try done. right. lia.
Qed.

Lemma processEach_ok job documents : forall w,
  NoDup (map Document.id documents) ->
  Forall (fun d => (String.length (Document.content d) <= fuel)%nat) documents ->
  documentsLock w = false ->
  exists ss w',
    processEach env fuel job documents w = (Returned ss, w')
    /\ documentsLock w' = false
    /\ job_quiet w w'
    /\ (forall i, i ∉ map Document.id documents ->
          find_by_id Document.id i (documentsFile w')
          = find_by_id Document.id i (documentsFile w))
    /\ Forall2 (document_summary job w') documents ss.
Proof.
  induction documents as [|d ds IH]; intros w Hnodup Hfuel Hlock.
  - exists [], w. by split_and!.
  - apply NoDup_cons in Hnodup as [Hfresh Hnodup].
    apply Forall_cons in Hfuel as [Hd Hfuel].
    destruct (processDocument_ok job d w Hd Hlock)
      as (d' & res & w1 & Hrun & Hlock1 & Hq1 & Hid & Hfind1 & Hres).
    destruct (IH w1 Hnodup Hfuel Hlock1)
      as (ss & w' & Heach & Hlock' & Hq' & Hother & Hall).
    exists (Some (d', res) :: ss), w'.
    split_and!; try done.
    + unfold processEach in *. rewrite for_each_cons_run.
      unfold settled at 1. rewrite Hrun, mmap_run. by rewrite Heach.
    + by etrans.
    + intros i Hi. simpl in Hi. apply not_elem_of_cons in Hi as [Hne Hi].
      rewrite (Hother i Hi), Hfind1. by rewrite decide_False.
    + constructor; [|done].
      exists d', res. split_and!; try done.
      * rewrite (Hother _ Hfresh), Hfind1. by rewrite decide_True.
      * intros Hfails.
        destruct (retryLoop_exhausts env fuel Hnf job d
                    (Z.to_nat (maxRetries env + 1)) Hfails 0 d None w)
          as (d'' & w'' & Hloop & _); [done|done|done|right; lia|].
        unfold processDocument in Hrun. rewrite Hloop in Hrun.
        by injection Hrun as _ <- _.
Qed.

(** The results are those of the documents that were completed; a document
    that was stored as failed has none. *)
Lemma fulfilledResults_ids job w' documents ss :
  NoDup (map Document.id documents) ->
  Forall2 (document_summary job w') documents ss ->
  (forall d, d ∈ documents ->
     stored_status w' (Document.id d) = Some failed ->
     Document.id d ∉ map documentId (fulfilledResults ss))
  /\ length (fulfilledResults ss) = length (stored_as completed w' documents)
  /\ map documentId (fulfilledResults ss) ⊆ map Document.id documents.
Proof.
  clear Hnf Hconfig Hretries. intros Hnodup Hall.
  induction Hall as [|d s ds ss (d' & res & -> & Hfind & Hres & _) _ IH].
  - split_and!; [by intros d Hd%elem_of_nil|done|done].
  - apply NoDup_cons in Hnodup as [Hfresh Hnodup].
    destruct (IH Hnodup) as (IH1 & IH2 & IH3).
    unfold fulfilledResults, stored_as, stored_status in *.
    rewrite filter_cons, Hfind. simpl.
    destruct res as [r|]; simpl.
    + destruct Hres as [Hstatus Hdoc]. rewrite Hstatus.
      rewrite decide_True by done. simpl. split_and!.
      * intros d0 Hd0 Hfailed. apply elem_of_cons in Hd0 as [->|Hd0].
        { rewrite Hfind in Hfailed. simpl in Hfailed. congruence. }
        apply not_elem_of_cons. split; [|by apply IH1].
        rewrite Hdoc. intros Heq. apply Hfresh. rewrite <- Heq.
        by apply list_elem_of_fmap_2.
      * simpl. by f_equal.
      * rewrite Hdoc. intros i Hi.
        apply elem_of_cons in Hi as [->|Hi]; [by left|right; by apply IH3].
    + rewrite Hres. rewrite decide_False by done. split_and!.
      * intros d0 Hd0 Hfailed. apply elem_of_cons in Hd0 as [->|Hd0].
        { intros Hin. apply Hfresh. by apply IH3. }
        by apply IH1.
      * done.
      * intros i Hi. right. by apply IH3.
Qed.

End Run.

Lemma match_nonempty {A B} (l : list A) (x y : B) :
  l <> [] -> match l with [] => x | _ :: _ => y end = y.
Proof. by destruct l. Qed.

(** C3: when the stores and the writer work, a run over a non-empty set of
    documents returns its summary and stores the job as completed,
    whatever the extractor does.  [processedDocuments] is the number of
    results, which is the number of documents stored as completed, and
    [failedDocuments] is the rest.  A document whose extraction is
    rejected at every attempt is stored as failed and has no entry in the
    result list. *)
Theorem failed_documents_do_not_fail_the_job env fuel jobId w job :
  no_faults env ->
  0 <= maxRetries env ->
  (0 < maxBatchSize env)%nat ->
  (0 < maxConcurrentBatches env)%nat ->
  (0 < maxConcurrentWorkers env)%nat ->
  (0 < shardSize env)%nat ->
  5 * Document.default_overlap < 4 * maxChunkSize env ->
  jobsLock w = false ->
  documentsLock w = false ->
  find_by_id Job.id jobId (jobsFile w) = Some job ->
  let documents := resolvedDocuments job w in
  let running := Job.markProcessing job in
  documents <> [] ->
  NoDup (map Document.id documents) ->
  Forall (fun d => (String.length (Document.content d) <= fuel)%nat) documents ->
  exists results summary w',
    (processDocuments env fuel running documents (processing_started job w)).1
    = Returned results
    /\ execute env fuel jobId w = (Returned summary, w')
    /\ (Job.status <$> find_by_id Job.id jobId (jobsFile w')) = Some completed
    /\ Job.totalDocuments summary = Z.of_nat (length documents)
    /\ Job.processedDocuments summary = Z.of_nat (length results)
    /\ Job.failedDocuments summary
       = Job.totalDocuments summary - Job.processedDocuments summary
    /\ Output.totalRecords (Job.outputMetadata summary) = length results
    /\ length results = length (stored_as completed w' documents)
    /\ forall d,
         d ∈ documents ->
         extraction_always_fails env fuel running d ->
         stored_status w' (Document.id d) = Some failed
         /\ Document.id d ∉ map documentId results.
Proof.
  intros Hnf Hretries Hbatch Hgroups Hworkers Hshard Hconfig Hjl Hdl Hfound
    documents running Hne Hnodup Hfuel.
  pose proof (find_by_id_key Job.id _ _ _ Hfound) as Hid.
  set (wA := processing_started job w).
  assert (HdlA : documentsLock wA = false).
  { unfold wA, processing_started, docs_world.
    destruct (Job.documentIds _); by destruct w. }
  assert (HdocsA : documentsFile wA = documentsFile w).
  { unfold wA, processing_started, docs_world.
    destruct (Job.documentIds _); by destruct w. }
  destruct (processEach_ok env fuel Hnf Hconfig Hretries running documents wA
              Hnodup Hfuel HdlA)
    as (ss & wB & Heach & HdlB & (HjfB & HjlB & _) & _ & Hall).
  set (results := fulfilledResults ss).
  assert (Hdocs : processDocuments env fuel running documents wA
                  = (Returned results, wB)).
  { rewrite processDocuments_flat by done. by rewrite mmap_run, Heach. }
  destruct (JsFacts.slices_total results _ Hshard) as [shards Hshards].
  pose proof (OutputFacts.writeResults_ok env Hnf jobId OutputService.no_options
                results shards wB Hshards) as Hwrite.
  set (md := metadataOf env jobId OutputService.no_options results shards) in *.
  set (wC := resultsWritten env jobId OutputService.no_options
               results shards wB) in *.
  set (summary := Job.mkSummary jobId (Z.of_nat (length documents))
                    (Z.of_nat (length results))
                    (Z.of_nat (length documents) - Z.of_nat (length results)) md).
  assert (HjlC : jobsLock wC = false).
  { unfold wC, resultsWritten. simpl. rewrite HjlB.
    unfold wA, processing_started. by rewrite docs_world_jobsLock. }
  set (w' := job_saved (Job.markCompleted summary running) wC).
  assert (Hrun : execute env fuel jobId w = (Returned summary, w')).
  { unfold execute, try_catch, executeBody.
    rewrite (bind_returned _ _ _ _ _ (job_findById_ok env Hnf jobId w)).
    rewrite Hfound. cbv beta iota zeta.
    assert (Hlock1 : jobsLock (set_ioCount (S (ioCount w)) w) = false)
      by (by destruct w).
    rewrite (bind_returned _ _ _ _ _
               (job_save_ok env Hnf (Job.markProcessing job) _ Hlock1)).
    rewrite (bind_returned _ _ _ _ _
               (getDocumentsForJob_ok env Hnf (Job.markProcessing job) _)).
    change (filter _ _) with documents.
    fold (processing_started job w). fold wA. fold running.
    rewrite (match_nonempty documents _ _ Hne).
    rewrite (bind_returned _ _ _ _ _ Hdocs).
    rewrite (bind_returned _ _ _ _ _ Hwrite).
    erewrite (bind_returned _ _ _ _ _ (job_save_ok env Hnf _ wC HjlC)).
    reflexivity. }
  assert (Hfile' : documentsFile w' = documentsFile wB) by reflexivity.
  destruct (fulfilledResults_ids env fuel running wB documents ss Hnodup Hall)
    as (Habsent & Hcount & _).
  exists results, summary, w'. split_and!; try done.
  - by rewrite Hdocs.
  - unfold w'. simpl. rewrite find_by_id_upsert. simpl.
    by rewrite Hid, decide_True.
  - intros d Hd Hfails.
    assert (Hstored : stored_status wB (Document.id d) = Some failed).
    { clear -Hall Hd Hfails.
      induction Hall as [|d0 s ds ss (d' & res & -> & Hfind & Hres & Hnone) _ IH];
        [by apply elem_of_nil in Hd|].
      apply elem_of_cons in Hd as [->|Hd]; [|by apply IH].
      unfold stored_status. rewrite Hfind. simpl.
      rewrite (Hnone Hfails) in Hres. by rewrite Hres. }
    split; [by unfold stored_status; rewrite Hfile'|].
    by apply Habsent.
Qed.

Lemma bad_text_always_fails job :
  Job.type (Job.extractionConfig job) = Some "entities"%string ->
  extraction_always_fails picky_env 10 job (text_document "d2" "bad text").
Proof.
  intros Htype d w _ Hcontent.
  unfold extractFromDocument, extractionTypeOf. rewrite Htype, Hcontent.
  destruct w as [jf jl df dl fs om io ec tr].
  eexists _, _. unfold_m. cbn. reflexivity.
Qed.

Lemma failed_documents_do_not_fail_the_job_witness :
  exists results summary w',
    execute picky_env 10 "j1" three_documents_world = (Returned summary, w')
    /\ (Job.status <$> find_by_id Job.id "j1" (jobsFile w')) = Some completed
    /\ Job.processedDocuments summary = Z.of_nat (length results)
    /\ Job.failedDocuments summary
       = Job.totalDocuments summary - Job.processedDocuments summary
    /\ stored_status w' "d2" = Some failed
    /\ "d2"%string ∉ map documentId results.
Proof.
  destruct (failed_documents_do_not_fail_the_job picky_env 10 "j1"
              three_documents_world (job_with_ids ["d1"; "d2"; "d3"]%string))
    as (results & summary & w' & _ & Hrun & Hstatus & Htotal & Hprocessed
        & Hfailed & _ & _ & Hdocs).
  - by intros k.
  - simpl. lia.
  - simpl. lia.
  - simpl. lia.
  - simpl. lia.
  - simpl. lia.
  - unfold Document.default_overlap. simpl. lia.
  - reflexivity.
  - reflexivity.
  - reflexivity.
  - vm_compute. discriminate.
  - apply (bool_decide_unpack _). vm_compute. exact I.
  - apply (bool_decide_unpack _). vm_compute. exact I.
  - destruct (Hdocs (text_document "d2" "bad text")) as [Hstored Habsent].
    + replace (resolvedDocuments _ _)
        with [text_document "d1" "text one"; text_document "d2" "bad text";
              text_document "d3" "text three"]
        by (vm_compute; reflexivity).
      apply elem_of_cons. right. apply elem_of_cons. by left.
    + by apply bad_text_always_fails.
    + exists results, summary, w'.
      split; [exact Hrun|]. split; [exact Hstatus|].
      split; [exact Hprocessed|]. split; [exact Hfailed|].
      split; [exact Hstored|exact Habsent].
Defined.

End JobRunFacts.

(* ===================================================================== *)
(** * Document.chunkContent: what the chunks cover, how long they are    *)
(* ===================================================================== *)

Module ChunkingFacts.
Import Document DocumentFacts.

Lemma substring_length n m s :
  String.length (String.substring n m s) = Nat.min m (String.length s - n).
Proof.
  revert n m. induction s as [|c s IH]; intros [|n] [|m]; simpl; try lia.
  - rewrite IH. lia.
  - by rewrite IH.
  - by rewrite IH.
Qed.

(** The length of [substring(a, b)] for positions in order. *)
Lemma js_substring_length s a b :
  a <= b ->
  strlen (js_substring s a b) = clamp b 0 (strlen s) - clamp a 0 (strlen s).
Proof.
  intros Hab. unfold js_substring, strlen, clamp. rewrite substring_length. lia.
Qed.

Lemma substring_whole s : String.substring 0 (String.length s) s = s.
Proof. induction s as [|c s IH]; [done|]. simpl. by rewrite IH. Qed.

Lemma js_substring_whole s : js_substring s 0 (strlen s) = s.
Proof.
  unfold js_substring.
  assert (Ha : clamp 0 0 (strlen s) = 0) by (unfold clamp, strlen; lia).
  assert (Hb : clamp (strlen s) 0 (strlen s) = strlen s)
    by (unfold clamp, strlen; lia).
  rewrite Ha, Hb.
  replace (Z.min 0 (strlen s)) with 0 by (unfold strlen; lia).
  replace (Z.max 0 (strlen s) - 0) with (strlen s) by (unfold strlen; lia).
  unfold strlen. rewrite Nat2Z.id. apply substring_whole.
Qed.

Section Windows.
Variable content : string.
Variables maxChunkSize overlap : Z.
Hypothesis overlap_nonneg : 0 <= overlap.

(** A position at or after [start] falls into one of the windows cut from
    [start] on: the next window never starts beyond the end of the one
    before. *)
Lemma window_loop_cover fuel : forall start ws p,
  window_loop fuel content maxChunkSize overlap start = Some ws ->
  start <= p < strlen content ->
  exists w, w ∈ ws /\ w.1 <= p < w.2.
Proof.
  induction fuel as [|fuel IH]; intros start ws p; simpl;
    destruct (start <? strlen content) eqn:Hlt; try discriminate.
  - apply Z.ltb_ge in Hlt. lia.
  - destruct (window_loop fuel _ _ _ _) as [tl|] eqn:Htl; [|discriminate].
    simpl. intros [= <-] Hp.
    destruct (decide (p < window_end content maxChunkSize start)) as [Hin|Hout].
    + exists (start, window_end content maxChunkSize start).
      split; [apply elem_of_cons; by left|simpl; lia].
    + destruct (IH _ _ p Htl) as (w & Hw & Hwp); [lia|].
      exists w. split; [apply elem_of_cons; by right|done].
  - apply Z.ltb_ge in Hlt. lia.
Qed.

Hypothesis max_pos : 0 < maxChunkSize.
Hypothesis overlap_small : 5 * overlap < 4 * maxChunkSize.

(** Every window starts inside the content, is not empty and is at most
    one character longer than [maxChunkSize]. *)
Lemma window_loop_bounds fuel : forall start ws,
  0 <= start ->
  window_loop fuel content maxChunkSize overlap start = Some ws ->
  Forall (fun w => 0 <= w.1 < strlen content
                   /\ w.1 < w.2 <= w.1 + maxChunkSize + 1) ws.
Proof.
  induction fuel as [|fuel IH]; intros start ws Hstart; simpl;
    destruct (start <? strlen content) eqn:Hlt; try discriminate;
    try (intros [= <-]; constructor).
  destruct (window_loop fuel _ _ _ _) as [tl|] eqn:Htl; [|discriminate].
  simpl. intros [= <-].
  apply Z.ltb_lt in Hlt.
  pose proof (next_start_advances content maxChunkSize overlap max_pos
                overlap_small start) as Hadv.
  unfold next_start in Hadv.
  pose proof (window_end_upper content maxChunkSize start Hstart ltac:(lia)) as Hup.
  constructor.
  - simpl. lia.
  - apply (IH (window_end content maxChunkSize start - overlap)); [lia|done].
Qed.
End Windows.

(** X1: with a positive chunk size and an overlap from 0 to under 80% of
    it, the chunks are the substrings cut at windows that start inside the
    content, and every position of the content lies in one of the windows:
    no character is left out of the chunks. *)
Theorem chunkContent_covers_content content maxChunkSize overlap fuel chunks :
  0 < maxChunkSize -> 0 <= overlap -> 5 * overlap < 4 * maxChunkSize ->
  chunkContent fuel content maxChunkSize overlap = Some chunks ->
  exists ws,
    chunkWindows fuel content maxChunkSize overlap = Some ws
    /\ chunks = map (fun w => js_substring content w.1 w.2) ws
    /\ Forall (fun w => 0 <= w.1 <= w.2) ws
    /\ forall p, 0 <= p < strlen content ->
         exists w, w ∈ ws /\ w.1 <= p < w.2.
Proof.
  intros Hmax Hov Hsmall. unfold chunkContent, chunkWindows.
  destruct (negb (needsChunking content maxChunkSize)) eqn:Hneeds.
  - intros [= <-]. exists [(0, strlen content)]. split_and!; try done.
    + simpl. by rewrite js_substring_whole.
    + constructor; [|constructor]. simpl. unfold strlen. lia.
    + intros p Hp. exists (0, strlen content).
      split; [apply elem_of_cons; by left|done].
  - rewrite chunk_loop_windows.
    destruct (window_loop fuel _ _ _ _) as [ws|] eqn:Hws; [|discriminate].
    simpl. intros [= <-]. exists ws. split_and!; try done.
    + pose proof (window_loop_bounds content maxChunkSize overlap Hov Hmax
                    Hsmall fuel 0 ws ltac:(lia) Hws) as Hb.
      eapply Forall_impl; [exact Hb|]. simpl. lia.
    + intros p Hp. by apply (window_loop_cover content maxChunkSize overlap
                               Hov fuel 0 ws p Hws).
Qed.

Lemma chunkContent_covers_content_witness :
  exists ws,
    chunkWindows 10 "aaaa.aaaaa" 4 1 = Some ws
    /\ ["aaaa."; ".aaa"; "aaa"]%string
       = map (fun w => js_substring "aaaa.aaaaa" w.1 w.2) ws
    /\ Forall (fun w => 0 <= w.1 <= w.2) ws
    /\ forall p, 0 <= p < strlen "aaaa.aaaaa" ->
         exists w, w ∈ ws /\ w.1 <= p < w.2.
Proof.
  apply (chunkContent_covers_content "aaaa.aaaaa" 4 1 10); [lia|lia|lia|].
  vm_compute. reflexivity.
Defined.

(** X2: under the same conditions no chunk is longer than
    [maxChunkSize + 1] characters, and when the content had to be split no
    chunk is empty. *)
Theorem chunkContent_chunk_lengths content maxChunkSize overlap fuel chunks :
  0 < maxChunkSize -> 0 <= overlap -> 5 * overlap < 4 * maxChunkSize ->
  chunkContent fuel content maxChunkSize overlap = Some chunks ->
  Forall (fun c => strlen c <= maxChunkSize + 1) chunks
  /\ (needsChunking content maxChunkSize = true ->
      Forall (fun c => 0 < strlen c) chunks).
Proof.
  intros Hmax Hov Hsmall. unfold chunkContent.
  destruct (needsChunking content maxChunkSize) eqn:Hneeds; simpl.
  - rewrite chunk_loop_windows.
    destruct (window_loop fuel _ _ _ _) as [ws|] eqn:Hws; [|discriminate].
    simpl. intros [= <-].
    pose proof (window_loop_bounds content maxChunkSize overlap Hov Hmax
                  Hsmall fuel 0 ws ltac:(lia) Hws) as Hb.
    split; [|intros _]; apply Forall_fmap; (eapply Forall_impl; [exact Hb|]);
      intros [s e]; simpl; intros [Hs He];
      rewrite js_substring_length by lia; unfold clamp; lia.
  - intros [= <-]. split; [|done]. constructor; [|constructor].
    unfold needsChunking, getSize in Hneeds. apply Z.ltb_ge in Hneeds. lia.
Qed.

Lemma chunkContent_chunk_lengths_witness :
  Forall (fun c => strlen c <= 4 + 1) ["aaaa."; ".aaa"; "aaa"]%string
  /\ (needsChunking "aaaa.aaaaa" 4 = true ->
      Forall (fun c => 0 < strlen c) ["aaaa."; ".aaa"; "aaa"]%string).
Proof.
  apply (chunkContent_chunk_lengths "aaaa.aaaaa" 4 1 10); [lia|lia|lia|].
  vm_compute. reflexivity.
Defined.

(** With an overlap above the chunk size a pass never leaves [start]
    beyond where it was. *)
Lemma window_end_upper_any content maxChunkSize start :
  window_end content maxChunkSize start
  <= Z.max (start + maxChunkSize) 0 + 1.
Proof.
  unfold window_end.
  destruct (_ <? strlen content); [|lia].
  destruct (_ <? 5 * _); [|lia].
  pose proof (lastIndexOf_upper content period (start + maxChunkSize)).
  pose proof (lastIndexOf_upper content newline (start + maxChunkSize)).
  lia.
Qed.

Lemma chunk_loop_stuck content maxChunkSize overlap fuel : forall start,
  0 < maxChunkSize -> maxChunkSize < overlap ->
  start <= 0 -> 0 < strlen content ->
  chunk_loop fuel content maxChunkSize overlap start = None.
Proof.
  induction fuel as [|fuel IH]; intros start Hmax Hov Hstart Hlen; simpl;
    destruct (start <? strlen content) eqn:Hlt; try done;
    try (apply Z.ltb_ge in Hlt; lia).
  rewrite IH; try done.
  pose proof (window_end_upper_any content maxChunkSize start). lia.
Qed.

(** When the overlap is larger than the chunk size and the content is
    longer than the chunk size, the loop condition of [chunkContent] is
    still true after any number of passes: [start] never gets past 0. *)
Lemma chunkContent_large_overlap_stuck content maxChunkSize overlap :
  0 < maxChunkSize -> maxChunkSize < overlap ->
  maxChunkSize < strlen content ->
  forall fuel, chunkContent fuel content maxChunkSize overlap = None.
Proof.
  intros Hmax Hov Hlen fuel. unfold chunkContent, needsChunking, getSize.
  rewrite (proj2 (Z.ltb_lt _ _) Hlen). simpl.
  apply chunk_loop_stuck; lia.
Qed.

End ChunkingFacts.

(* ===================================================================== *)
(** * createShards and createBatches: the slices of a list               *)
(* ===================================================================== *)

Module SlicingFacts.
Import Js JsFacts.

Lemma ceil_step n size :
  (0 < size)%nat -> (0 < n)%nat ->
  ((n + size - 1) / size = S ((n - size + size - 1) / size))%nat.
Proof.
  intros Hsize Hn. destruct (decide (size <= n)%nat) as [Hle|Hgt].
  - replace (n + size - 1)%nat with ((n - size + size - 1) + 1 * size)%nat by lia.
    rewrite Nat.div_add by lia. lia.
  - replace (n - size)%nat with 0%nat by lia. simpl.
    rewrite (Nat.div_small (size - 1) size) by lia.
    symmetry. apply (Nat.div_unique _ _ 1 (n - 1)); lia.
Qed.

Lemma ceil_bound k n size :
  (0 < size)%nat -> (k < (n + size - 1) / size)%nat -> (k * size < n)%nat.
Proof.
  intros Hsize Hk.
  pose proof (Nat.Div0.mul_div_le (n + size - 1) size) as Hle.
  nia.
Qed.

(** The loop gives the slices of width [size] taken every [size]
    positions, as many as it takes to reach the end of the list. *)
Lemma slices_from_spec {A} fuel (l : list A) size : forall i ss,
  (0 < size)%nat ->
  slices_from fuel l size i = Some ss ->
  length ss = ((length l - i + size - 1) / size)%nat
  /\ forall k, (k < length ss)%nat ->
       ss !! k = Some (take size (drop (i + k * size) l)).
Proof.
  induction fuel as [|fuel IH]; intros i ss Hsize; simpl;
    destruct (i <? length l)%nat eqn:Hlt; try discriminate.
  - intros [= <-]. apply Nat.ltb_ge in Hlt. split; [|simpl; lia].
    replace (length l - i)%nat with 0%nat by lia. simpl.
    symmetry. apply Nat.div_small. lia.
  - destruct (slices_from fuel l size (i + size)) as [tl|] eqn:Htl; [|discriminate].
    simpl. intros [= <-]. apply Nat.ltb_lt in Hlt.
    destruct (IH _ _ Hsize Htl) as [Hlen Hnth]. split.
    + simpl. rewrite Hlen, (ceil_step (length l - i) size) by lia.
      do 2 f_equal. lia.
    + intros [|k] Hk.
      * replace (i + 0 * size)%nat with i by lia. simpl. unfold slice.
        do 2 f_equal. lia.
      * replace (i + S k * size)%nat with (i + size + k * size)%nat by lia.
        simpl. apply Hnth. simpl in Hk. lia.
  - intros [= <-]. apply Nat.ltb_ge in Hlt. split; [|simpl; lia].
    replace (length l - i)%nat with 0%nat by lia. simpl.
    symmetry. apply Nat.div_small. lia.
Qed.

(** X4: for a positive shard size [createShards] returns, and the shards
    are a partition of the results in their order: put end to end they
    give the list back, there are [ceil(n / shardSize)] of them, none is
    empty or larger than [shardSize], and all but the last are full. *)
Theorem createShards_partition {A} (results : list A) shardSize :
  (0 < shardSize)%nat ->
  exists shards,
    Output.createShards results shardSize = Some shards
    /\ concat shards = results
    /\ length shards = ((length results + shardSize - 1) / shardSize)%nat
    /\ Forall (fun shard => (0 < length shard <= shardSize)%nat) shards
    /\ forall k shard,
         shards !! k = Some shard -> (S k < length shards)%nat ->
         length shard = shardSize.
Proof.
  intros Hsize. unfold Output.createShards.
  destruct (slices_total results shardSize Hsize) as [shards Hshards].
  exists shards. split; [done|]. split; [by eapply slices_concat|].
  destruct (slices_from_spec _ _ _ _ _ Hsize Hshards) as [Hlen Hnth].
  rewrite Nat.sub_0_r in Hlen. split; [done|]. split.
  - apply Forall_lookup_2. intros k shard Hk.
    pose proof (lookup_lt_Some _ _ _ Hk) as Hlt.
    rewrite (Hnth k Hlt) in Hk. injection Hk as <-.
    rewrite Hlen in Hlt. apply ceil_bound in Hlt; [|done].
    rewrite length_take, length_drop. simpl. lia.
  - intros k shard Hk Hnext.
    pose proof (lookup_lt_Some _ _ _ Hk) as Hlt.
    rewrite (Hnth k Hlt) in Hk. injection Hk as <-.
    rewrite Hlen in Hnext. apply ceil_bound in Hnext; [|done].
    rewrite length_take, length_drop. simpl. lia.
Qed.

Lemma createShards_partition_witness :
  exists shards,
    Output.createShards [1; 2; 3; 4; 5]%nat 2 = Some shards
    /\ concat shards = [1; 2; 3; 4; 5]%nat
    /\ length shards = ((5 + 2 - 1) / 2)%nat
    /\ Forall (fun shard => (0 < length shard <= 2)%nat) shards
    /\ forall k shard,
         shards !! k = Some shard -> (S k < length shards)%nat ->
         length shard = 2%nat.
Proof. apply (createShards_partition [1; 2; 3; 4; 5]%nat 2). lia. Defined.

End SlicingFacts.

(* ===================================================================== *)
(** * The job repository: reading back, lost locks, failed reads         *)
(* ===================================================================== *)

Module RepositoryFacts.
Import Runtime Observe RuntimeFacts.
Import Document (pending, processing, completed, failed).

Section Keys.
Context {A : Type} (key : A -> string).

Lemma upsert_keys x l k :
  k ∈ map key (upsert key x l) <-> k ∈ map key l \/ k = key x.
Proof.
  induction l as [|y l IH].
  - unfold upsert. simpl. rewrite elem_of_cons, elem_of_nil. tauto.
  - rewrite upsert_cons. destruct (decide (key y = key x)) as [Heq|Hne]; simpl.
    + rewrite !elem_of_cons, Heq. tauto.
    + rewrite !elem_of_cons, IH. tauto.
Qed.

(** Writing a record never makes two records share an id. *)
Lemma upsert_NoDup x l :
  NoDup (map key l) -> NoDup (map key (upsert key x l)).
Proof.
  induction l as [|y l IH]; intros Hnd.
  - unfold upsert. simpl. apply NoDup_singleton.
  - rewrite upsert_cons. simpl in Hnd. apply NoDup_cons in Hnd as [Hy Hl].
    destruct (decide (key y = key x)) as [Heq|Hne]; simpl.
    + apply NoDup_cons. by rewrite <- Heq.
    + apply NoDup_cons. split; [|by apply IH].
      rewrite upsert_keys. intros [?|?]; congruence.
Qed.

(** Writing a record puts it into the collection and leaves the records
    with another id where they are. *)
Lemma upsert_elem x l : x ∈ upsert key x l.
Proof.
  induction l as [|y l IH].
  - unfold upsert. simpl. apply elem_of_cons. by left.
  - rewrite upsert_cons. destruct (decide (key y = key x)).
    + apply elem_of_cons. by left.
    + apply elem_of_cons. by right.
Qed.

Lemma upsert_elem_other x l y :
  key y <> key x -> y ∈ upsert key x l <-> y ∈ l.
Proof.
  intros Hy. induction l as [|z l IH].
  - unfold upsert. simpl. rewrite elem_of_cons, elem_of_nil.
    split; [intros [->|[]]; congruence|by intros []].
  - rewrite upsert_cons. destruct (decide (key z = key x)) as [Hz|Hz].
    + rewrite !elem_of_cons. split; intros [->|H]; try congruence; by right.
    + rewrite !elem_of_cons, IH. done.
Qed.
End Keys.

(** X5: when no file-system call fails and the lock is free, [save]
    returns the job and frees the lock; [findById] then gives the saved job
    for its id and what it gave before for every other id; ids that were
    distinct stay distinct, and the document collection is not touched. *)
Theorem job_save_then_findById env job w :
  no_faults env ->
  jobsLock w = false ->
  exists w1,
    JobRepository.save env job w = (Returned job, w1)
    /\ jobsLock w1 = false
    /\ (JobRepository.findById env (Job.id job) w1).1 = Returned (Some job)
    /\ (forall id, id <> Job.id job ->
          (JobRepository.findById env id w1).1
          = (JobRepository.findById env id w).1)
    /\ (NoDup (map Job.id (jobsFile w)) -> NoDup (map Job.id (jobsFile w1)))
    /\ documentsFile w1 = documentsFile w.
Proof.
  intros Hnf Hlock. exists (job_saved job w).
  split; [by apply job_save_ok|]. split; [done|].
  rewrite !job_findById_ok by done. simpl. split_and!.
  - rewrite find_by_id_upsert. by rewrite decide_True.
  - intros id Hid. rewrite !job_findById_ok by done. simpl.
    rewrite find_by_id_upsert. destruct (decide (Job.id job = id)); congruence.
  - apply upsert_NoDup.
  - done.
Qed.

Lemma job_save_then_findById_witness :
  exists w1,
    JobRepository.save Samples.sample_env (Samples.one_job completed)
      (Samples.one_job_world pending)
    = (Returned (Samples.one_job completed), w1)
    /\ jobsLock w1 = false
    /\ (JobRepository.findById Samples.sample_env "j1" w1).1
       = Returned (Some (Samples.one_job completed)).
Proof.
  destruct (job_save_then_findById Samples.sample_env (Samples.one_job completed)
              (Samples.one_job_world pending))
    as (w1 & Hsave & Hlock & Hfind & _); [done|done|].
  by exists w1.
Defined.

(** X6: [releaseLock] swallows the error of a failing [unlink].  A save
    whose other calls go through then still returns the job, but the lock
    marker stays, and the next [save] waits for it without end. *)
Theorem job_save_unlink_failure_blocks_next_save env job w :
  jobsLock w = false ->
  io_fault env (ioCount w) = None ->
  io_fault env (S (ioCount w)) = None ->
  io_fault env (S (S (ioCount w))) = None ->
  is_Some (io_fault env (S (S (S (ioCount w))))) ->
  io_fault env (S (S (S (S (ioCount w))))) = None ->
  exists w1,
    JobRepository.save env job w = (Returned job, w1)
    /\ jobsLock w1 = true
    /\ find_by_id Job.id (Job.id job) (jobsFile w1) = Some job
    /\ forall job', exists w2,
         JobRepository.save env job' w1 = (Unfinished, w2).
Proof.
  intros Hlock H0 H1 H2 [msg H3] H4.
  destruct w as [jf jl df dl fs om io ec tr]. simpl in *. subst jl.
  eexists. split.
  { unfold JobRepository.save, JobRepository.acquireLock,
      JobRepository.getAllJobs, JobRepository.releaseLock.
    unfold_m. repeat (cbn -[upsert find_by_id]; rewrite ?H0, ?H1, ?H2, ?H3).
    reflexivity. }
  cbn -[upsert find_by_id]. split; [done|]. split.
  { rewrite find_by_id_upsert. by rewrite decide_True. }
  intros job'. eexists.
  unfold JobRepository.save, JobRepository.acquireLock.
  unfold_m. repeat (cbn; rewrite ?H4). reflexivity.
Qed.

Lemma job_save_unlink_failure_blocks_next_save_witness :
  let env :=
    mkEnv 3 100 10 50 4000 true "./output" "jsonl" true 2
      (fun k => if (k =? 3)%nat then Some "EPERM"%string else None)
      (fun _ _ chunk => inl (Json.JStr chunk))
      (fun vs => inl (Json.JArr vs)) (fun vs => vs)
      documentId documentId documentId (fun md => Output.jobId md) in
  exists w1,
    JobRepository.save env (Samples.one_job processing)
      (Samples.one_job_world pending)
    = (Returned (Samples.one_job processing), w1)
    /\ jobsLock w1 = true
    /\ exists w2,
         JobRepository.save env (Samples.one_job completed) w1 = (Unfinished, w2).
Proof.
  intros env.
  destruct (job_save_unlink_failure_blocks_next_save env
              (Samples.one_job processing) (Samples.one_job_world pending))
    as (w1 & Hsave & Hlock & _ & Hnext);
    [reflexivity|reflexivity|reflexivity|reflexivity|by eexists|reflexivity|].
  exists w1. split; [done|]. split; [done|apply Hnext].
Defined.

(** X7: [getAllJobs] answers a failing read with the empty array.  When
    that happens inside [save] and the write that follows goes through,
    the collection file is left holding the saved job alone: every other
    job that was stored is gone. *)
Theorem job_save_after_failed_read_keeps_one_record env job w :
  jobsLock w = false ->
  io_fault env (ioCount w) = None ->
  is_Some (io_fault env (S (ioCount w))) ->
  io_fault env (S (S (ioCount w))) = None ->
  exists w1,
    JobRepository.save env job w = (Returned job, w1)
    /\ jobsFile w1 = [job].
Proof.
  intros Hlock H0 [msg H1] H2.
  destruct w as [jf jl df dl fs om io ec tr]. simpl in *. subst jl.
  unfold JobRepository.save, JobRepository.acquireLock,
    JobRepository.getAllJobs, JobRepository.releaseLock.
  unfold_m. repeat (cbn; rewrite ?H0, ?H1, ?H2).
  destruct (io_fault env (S (S (S io)))); cbn; by eexists.
Qed.

Lemma job_save_after_failed_read_keeps_one_record_witness :
  let env :=
    mkEnv 3 100 10 50 4000 true "./output" "jsonl" true 2
      (fun k => if (k =? 1)%nat then Some "EIO"%string else None)
      (fun _ _ chunk => inl (Json.JStr chunk))
      (fun vs => inl (Json.JArr vs)) (fun vs => vs)
      documentId documentId documentId (fun md => Output.jobId md) in
  let w := mkWorld [Samples.one_job pending; Samples.job_with_ids []] false
             [] false ∅ ∅ 0 0 [] in
  let job := Job.mk "j9" "new" (Job.mkConfig None None) [] pending
               (Job.mkMetadata None None) in
  exists w1,
    JobRepository.save env job w = (Returned job, w1) /\ jobsFile w1 = [job].
Proof.
  intros env w job.
  apply (job_save_after_failed_read_keeps_one_record env job w);
    [reflexivity|reflexivity|by eexists|reflexivity].
Defined.

(** X8: a read of the collection that fails is answered by [getAllJobs]
    with the empty array, so [findById] reports the job as missing instead
    of rejecting, also when the job is stored; it takes no lock and leaves
    the collection as it was. *)
Theorem job_findById_failed_read_is_not_found env id w :
  is_Some (io_fault env (ioCount w)) ->
  exists w',
    JobRepository.findById env id w = (Returned None, w')
    /\ jobsFile w' = jobsFile w
    /\ jobsLock w' = jobsLock w.
Proof.
  intros [msg Hio]. destruct w as [jf jl df dl fs om io ec tr].
  unfold JobRepository.findById, JobRepository.getAllJobs. unfold_m. cbn.
  cbn in Hio. rewrite Hio. cbn. by eexists.
Qed.

Lemma job_findById_failed_read_is_not_found_witness :
  let env :=
    mkEnv 3 100 10 50 4000 true "./output" "jsonl" true 2
      (fun k => if (k =? 0)%nat then Some "EIO"%string else None)
      (fun _ _ chunk => inl (Json.JStr chunk))
      (fun vs => inl (Json.JArr vs)) (fun vs => vs)
      documentId documentId documentId (fun md => Output.jobId md) in
  is_Some (find_by_id Job.id "j1" (jobsFile (Samples.one_job_world pending)))
  /\ exists w',
       JobRepository.findById env "j1" (Samples.one_job_world pending)
       = (Returned None, w').
Proof.
  intros env. split; [by eexists|].
  destruct (job_findById_failed_read_is_not_found env "j1"
              (Samples.one_job_world pending))
    as (w' & Hrun & _); [by eexists|].
  by exists w'.
Defined.

(** X28: when no file-system call fails and the documents lock is free,
    [save] returns the document and frees the lock, and leaves the job
    collection alone.  A [findByIds] after it returns the saved document
    whenever its id is asked for, and returns a document with another id
    exactly when it was stored before and its id is asked for. *)
Theorem document_save_then_findByIds env d w :
  no_faults env ->
  documentsLock w = false ->
  exists w1,
    DocumentRepository.save env d w = (Returned d, w1)
    /\ documentsLock w1 = false
    /\ jobsFile w1 = jobsFile w
    /\ forall ids, exists found,
         (DocumentRepository.findByIds env ids w1).1 = Returned found
         /\ (Document.id d ∈ ids -> d ∈ found)
         /\ forall d', Document.id d' <> Document.id d ->
              (d' ∈ found <-> d' ∈ documentsFile w /\ Document.id d' ∈ ids).
Proof.
  intros Hnf Hlock. exists (document_saved d w).
  split; [by apply document_save_ok|]. split; [done|]. split; [done|].
  intros ids. eexists. rewrite (document_findByIds_ok env Hnf). simpl.
  split; [reflexivity|]. split.
  - intros Hd. apply list_elem_of_filter. split; [done|apply upsert_elem].
  - intros d' Hd'. rewrite list_elem_of_filter, upsert_elem_other by done.
    tauto.
Qed.

Lemma document_save_then_findByIds_witness :
  exists w1,
    DocumentRepository.save Samples.sample_env
      (Document.markProcessing Samples.one_document)
      (Samples.one_job_world pending)
    = (Returned (Document.markProcessing Samples.one_document), w1)
    /\ documentsLock w1 = false.
Proof.
  destruct (document_save_then_findByIds Samples.sample_env
              (Document.markProcessing Samples.one_document)
              (Samples.one_job_world pending))
    as (w1 & Hsave & Hlock & _); [done|done|].
  by exists w1.
Defined.

End RepositoryFacts.

(* ===================================================================== *)
(** * The read path: backups, and reading twice                          *)
(* ===================================================================== *)

Module RecoveryFacts.
Import Json StringFacts Store StoreFacts.

Lemma backupFile_fresh file now : backupFile file now <> file.
Proof.
  unfold backupFile. intros Heq.
  apply (f_equal String.length) in Heq.
  rewrite !append_length in Heq. simpl in Heq. lia.
Qed.

Lemma parse_empty_array : parse "[]" = Some (JArr []).
Proof. vm_compute. reflexivity. Qed.

(** X9: a file that is not blank, is not one JSON value and has no line
    that parses is copied, byte for byte, to the backup path named after
    the clock; the live file is reset to an empty array, which is also
    what the read returns; no other file changes. *)
Theorem getAll_backs_up_unreadable_file file now (fs : gmap string string) data :
  fs !! file = Some data ->
  blank data = false ->
  parse data = None ->
  validLines data = [] ->
  (getAll file now fs).1 = JArr []
  /\ (getAll file now fs).2 !! backupFile file now = Some data
  /\ (getAll file now fs).2 !! file = Some "[]"%string
  /\ forall path,
       path <> file -> path <> backupFile file now ->
       (getAll file now fs).2 !! path = fs !! path.
Proof.
  intros Hfile Hblank Hparse Hlines.
  rewrite (getAll_backup file now fs data Hfile Hblank Hparse Hlines). simpl.
  split; [done|]. split.
  { rewrite lookup_insert_ne by (apply not_eq_sym, backupFile_fresh).
    apply lookup_insert_eq. }
  split; [apply lookup_insert_eq|].
  intros path Hp Hb. by rewrite !lookup_insert_ne.
Qed.

Lemma getAll_backs_up_unreadable_file_witness :
  let fs : gmap string string := {[ jobsFile := "{oops"%string ]} in
  (getAllJobs 1700 fs).1 = JArr []
  /\ (getAllJobs 1700 fs).2 !! backupFile jobsFile 1700 = Some "{oops"%string
  /\ (getAllJobs 1700 fs).2 !! jobsFile = Some "[]"%string
  /\ forall path,
       path <> jobsFile -> path <> backupFile jobsFile 1700 ->
       (getAllJobs 1700 fs).2 !! path = fs !! path.
Proof.
  intros fs.
  apply (getAll_backs_up_unreadable_file jobsFile 1700 fs "{oops");
    vm_compute; reflexivity.
Defined.

(** X10: whatever the file holds (or if it is missing), reading the
    collection a second time returns what the first read returned and
    changes nothing more on disk: a missing file is created once, a backup
    is taken once. *)
Theorem getAll_second_read_is_stable file now now' (fs : gmap string string) :
  getAll file now' (getAll file now fs).2
  = ((getAll file now fs).1, (getAll file now fs).2).
Proof.
  assert (Hreset : forall fs' : gmap string string,
             getAll file now' (<[file := "[]"%string]> fs')
             = (JArr [], <[file := "[]"%string]> fs')).
  { intros fs'. unfold getAll. rewrite lookup_insert_eq.
    change (blank "[]") with false. cbv iota. by rewrite parse_empty_array. }
  unfold getAll at 2 3 4.
  destruct (fs !! file) as [data|] eqn:Hfile; [|apply Hreset].
  destruct (blank data) eqn:Hblank.
  { simpl. unfold getAll. by rewrite Hfile, Hblank. }
  destruct (parse data) as [v|] eqn:Hparse.
  { simpl. unfold getAll. by rewrite Hfile, Hblank, Hparse. }
  destruct (validLines data) as [|l ls] eqn:Hlines; [apply Hreset|].
  destruct (parse (recoveredData (l :: ls))) as [v|] eqn:Hrec;
    simpl; unfold getAll; by rewrite Hfile, Hblank, Hparse, Hlines, Hrec.
Qed.

End RecoveryFacts.

(* ===================================================================== *)
(** * writeResults for any number of results; scanning the directory     *)
(* ===================================================================== *)

Module WriterFacts.
Import Runtime Observe Written Vocabulary RuntimeFacts StringFacts.
Import Output OutputService OutputFacts.

(** ** Strings that end alike *)

Lemma append_eq_len a : forall b x y,
  a +:+ x = b +:+ y -> String.length x = String.length y -> a = b /\ x = y.
Proof.
  induction a as [|c a IH]; intros [|d b] x y Heq Hlen.
  - by rewrite !append_nil in Heq.
  - apply (f_equal String.length) in Heq.
    rewrite append_nil, append_length in Heq. simpl in Heq. lia.
  - apply (f_equal String.length) in Heq.
    rewrite append_nil, append_length in Heq. simpl in Heq. lia.
  - rewrite !append_cons in Heq. injection Heq as -> Heq.
    destruct (IH _ _ _ Heq Hlen) as [-> ->]. done.
Qed.

(** ** Shard indices and their four digits *)

Lemma of_uint_D0 d : Nat.of_uint (Decimal.D0 d) = Nat.of_uint d.
Proof. reflexivity. Qed.

Lemma decimal_value n :
  exists d, NilEmpty.uint_of_string (Js.decimal n) = Some d /\ Nat.of_uint d = n.
Proof.
  unfold Js.decimal.
  pose proof (DecimalNat.Unsigned.of_to n) as Hn.
  destruct (Nat.to_uint n) as [|d|d|d|d|d|d|d|d|d|d] eqn:Hd;
    try (eexists; split; [apply NilEmpty.usu|done]).
  exists (Decimal.D0 Decimal.Nil). by split.
Qed.

Lemma padded_value n :
  exists d,
    NilEmpty.uint_of_string (Js.padStart (Js.decimal n) 4 "0") = Some d
    /\ Nat.of_uint d = n.
Proof.
  destruct (decimal_value n) as (d & Hd & Hn). unfold Js.padStart.
  induction (4 - String.length (Js.decimal n))%nat as [|k IH]; simpl.
  - by exists d.
  - destruct IH as (d' & Hd' & Hn'). exists (Decimal.D0 d').
    rewrite Hd'. by split.
Qed.

Lemma padded_inj i j :
  Js.padStart (Js.decimal i) 4 "0" = Js.padStart (Js.decimal j) 4 "0" -> i = j.
Proof.
  intros Heq.
  destruct (padded_value i) as (di & Hdi & Hi).
  destruct (padded_value j) as (dj & Hdj & Hj).
  rewrite Heq, Hdj in Hdi. injection Hdi as <-. congruence.
Qed.

Lemma shardPath_inj jobId dir format compression i j :
  shardPath jobId dir format compression i
  = shardPath jobId dir format compression j ->
  i = j.
Proof.
  intros Heq. apply shardPath_inj_padded in Heq.
  apply append_eq_len in Heq as [Heq _]; [|done]. by apply padded_inj.
Qed.

(** X11: two shards of a job never share a file name, whatever their
    indices are (also beyond the four digits of the padding). *)
Theorem generateFileName_distinct jobId format compression i j :
  i <> j ->
  generateFileName jobId i format compression
  <> generateFileName jobId j format compression.
Proof.
  intros Hij Heq. apply Hij.
  apply (shardPath_inj jobId EmptyString format compression).
  unfold shardPath. by rewrite Heq.
Qed.

Lemma generateFileName_distinct_witness :
  generateFileName "j1" 7 "jsonl" true <> generateFileName "j1" 42 "jsonl" true.
Proof. apply (generateFileName_distinct "j1" "jsonl" true 7 42). lia. Defined.

(** ** What the loop over the shards records *)

Section Entries.
Variable env : Env.
Variables (jobId dir format : string) (compression : bool).

Lemma shardEntries_counts shards : forall i,
  map recordCount (shardEntries env jobId dir format compression i shards)
  = map length shards
  /\ map size (shardEntries env jobId dir format compression i shards)
     = map (fun shard => Js.byteLength (shardText env format shard)) shards.
Proof.
  induction shards as [|s rest IH]; intros i; [done|]. simpl.
  destruct (IH (S i)) as [-> ->]. done.
Qed.

Lemma shardEntries_names shards : forall i k entry,
  shardEntries env jobId dir format compression i shards !! k = Some entry ->
  fileName entry = generateFileName jobId (i + k) format compression.
Proof.
  induction shards as [|s rest IH]; intros i [|k] entry Hk; try done;
    simpl in Hk.
  - injection Hk as <-. simpl. by rewrite Nat.add_0_r.
  - rewrite (IH (S i) k entry Hk). f_equal. lia.
Qed.
End Entries.

(** X12: when no file-system call fails and the shard size in force is
    positive, [writeResults] returns for any list of results.  The shards
    put end to end are the results in their order; the metadata counts
    every result once and every shard once; entry [k] carries the file
    name of index [k], the number of records of shard [k] and, as its
    size, the number of bytes of the text of that shard; the metadata is
    in the writer's map under the job id. *)
Theorem writeResults_counts_every_result env jobId results options w :
  no_faults env ->
  (0 < resolvedShardSize env options)%nat ->
  let format := resolvedFormat env options in
  let compression := resolvedCompression env options in
  exists shards md w',
    writeResults env jobId results options w = (Returned md, w')
    /\ concat shards = results
    /\ totalRecords md = length results
    /\ totalFiles md = length shards
    /\ (forall k entry,
          outputFiles md !! k = Some entry ->
          fileName entry = generateFileName jobId k format compression)
    /\ map recordCount (outputFiles md) = map length shards
    /\ map size (outputFiles md)
       = map (fun shard => Js.byteLength (shardText env format shard)) shards
    /\ outputMetadata w' !! jobId = Some md.
Proof.
  intros Hnf Hsize format compression.
  destruct (JsFacts.slices_total results _ Hsize) as [shards Hshards].
  exists shards. do 2 eexists.
  split; [by apply writeResults_ok|].
  split; [by eapply JsFacts.slices_concat|].
  split; [done|]. split; [done|].
  destruct (shardEntries_counts env jobId (resolvedDirectory env jobId options)
              format compression shards 0) as [Hc Hs].
  split.
  { intros k entry Hk.
    apply (shardEntries_names env jobId _ _ _ shards 0 k entry Hk). }
  split; [exact Hc|]. split; [exact Hs|].
  unfold resultsWritten. simpl. apply lookup_insert_eq.
Qed.

Lemma writeResults_counts_every_result_witness :
  exists shards md w',
    writeResults Samples.sample_env "j1"
      (map Samples.sample_result ["a"; "b"; "c"]%string) no_options
      Samples.sample_world
    = (Returned md, w')
    /\ concat shards = map Samples.sample_result ["a"; "b"; "c"]%string
    /\ totalRecords md = 3%nat
    /\ totalFiles md = length shards.
Proof.
  destruct (writeResults_counts_every_result Samples.sample_env "j1"
              (map Samples.sample_result ["a"; "b"; "c"]%string) no_options
              Samples.sample_world)
    as (shards & md & w' & Hrun & Hconcat & Hrecords & Hfiles & _);
    [done|vm_compute; lia|].
  by exists shards, md, w'.
Defined.

(** ** A write that fails *)

Lemma fs_call_run env w o w' :
  fs_call env w = (o, w') ->
  w' = set_ioCount (S (ioCount w)) w
  /\ (o = Returned tt \/ exists msg, o = Thrown (IOError (ioCount w) msg)).
Proof.
  unfold fs_call. destruct (io_fault env (ioCount w)) as [msg|];
    intros [= <- <-]; (split; [done|]); [right; by exists msg|by left].
Qed.

Section Failure.
Variable env : Env.
Variables (jobId : string) (options : Options).

#[local] Abbreviation dir := (resolvedDirectory env jobId options).
#[local] Abbreviation format := (resolvedFormat env options).
#[local] Abbreviation compression := (resolvedCompression env options).

Lemma writeShards_run shards : forall i w o w',
  writeShards env jobId dir format compression i shards w = (o, w') ->
  outputMetadata w' = outputMetadata w
  /\ forall e, o = Thrown e -> exists k msg, e = IOError k msg.
Proof.
  induction shards as [|shard rest IH]; intros i w o w'.
  - intros [= <- <-]. split; done.
  - cbn [writeShards]. unfold writeShard, getFileSize. unfold_m.
    destruct (io_fault env (ioCount w)) as [msg|] eqn:Hio.
    { intros [= <- <-]. split; [by destruct w|].
      intros e [= <-]. by do 2 eexists. }
    cbn.
    destruct (writeShards env jobId dir format compression (S i) rest _)
      as [[entries|e|] w2] eqn:Hrest;
      intros [= <- <-];
      destruct (IH _ _ _ _ Hrest) as [Hmd Hio'];
      (split; [by rewrite Hmd|first [intros e' [= <-]; by apply Hio' | done]]).
Qed.

(** X13: the entry of a job in the writer's in-memory map is set last.
    A [writeResults] that is rejected was rejected by a file-system call
    or, when the shard size in force is 0, by the sharding loop that fills
    its array; either way the in-memory map is as it was before the call,
    so no entry is recorded for a job whose output was not written. *)
Theorem writeResults_failure_keeps_memory_map results w e w' :
  writeResults env jobId results options w = (Thrown e, w') ->
  outputMetadata w' = outputMetadata w
  /\ ((exists k msg, e = IOError k msg)
      \/ (e = invalidArrayLength /\ resolvedShardSize env options = 0%nat)).
Proof.
  unfold writeResults.
  fold (resolvedShardSize env options) format compression dir.
  intros Hrun.
  apply JobStatusFacts.bind_inv in Hrun
    as [(u1 & w1 & Hmk & Hrun)|[(e1 & Hmk & [= <-])|[_ [=]]]].
  2:{ apply fs_call_run in Hmk as [-> [[=]|[msg [= ->]]]].
      split; [by destruct w|left; by do 2 eexists]. }
  apply fs_call_run in Hmk as [-> _].
  apply JobStatusFacts.bind_inv in Hrun
    as [(shards & w2 & Hsh & Hrun)|[(e1 & Hsh & [= <-])|[_ [=]]]].
  2:{ destruct (createShards results _) as [shards|] eqn:Hshards;
        [discriminate|].
      injection Hsh as <- <-. split; [by destruct w|right]. split; [done|].
      destruct (resolvedShardSize env options) as [|n] eqn:Hsize; [done|].
      destruct (JsFacts.slices_total results (S n) ltac:(lia)) as [ss Hss].
      unfold createShards in Hshards. congruence. }
  assert (w2 = set_ioCount (S (ioCount w)) w) as ->
    by (destruct (createShards results _); by injection Hsh as _ <-).
  apply JobStatusFacts.bind_inv in Hrun
    as [(entries & w3 & Hws & Hrun)|[(e1 & Hws & [= <-])|[_ [=]]]].
  2:{ apply writeShards_run in Hws as [Hkept Hio].
      split; [rewrite Hkept; by destruct w|left; by apply Hio]. }
  apply writeShards_run in Hws as [Hkept _].
  apply JobStatusFacts.bind_inv in Hrun
    as [(u4 & w4 & Hmeta & Hrun)|[(e1 & Hmeta & [= <-])|[_ [=]]]].
  2:{ apply fs_call_run in Hmeta as [-> [[=]|[msg [= ->]]]].
      split; [|left; by do 2 eexists].
      transitivity (outputMetadata w3); [by destruct w3|].
      rewrite Hkept. by destruct w. }
  by unfold_m.
Qed.

End Failure.

Lemma writeResults_failure_keeps_memory_map_witness :
  let run :=
    writeResults Samples.mkdir_fails_env "j1"
      [Samples.sample_result "a"] no_options
      (set_ioCount 14 Samples.sample_world) in
  run.1 = Thrown (IOError 14 "ENOSPC")
  /\ outputMetadata run.2 = outputMetadata (set_ioCount 14 Samples.sample_world).
Proof.
  intros run.
  assert (Hrun : run = (Thrown (IOError 14 "ENOSPC"), run.2))
    by (vm_compute; reflexivity).
  split; [by rewrite Hrun|].
  apply (writeResults_failure_keeps_memory_map Samples.mkdir_fails_env "j1"
           no_options [Samples.sample_result "a"]
           (set_ioCount 14 Samples.sample_world) _ _ Hrun).
Defined.

End WriterFacts.

(* ===================================================================== *)
(** * scanOutputDirectory and the names of compressed shards             *)
(* ===================================================================== *)

Module ScanFacts.
Import Runtime Observe RuntimeFacts StringFacts.
Import Output OutputScan.

Lemma substring_split n : forall s,
  (n <= String.length s)%nat ->
  s = String.substring 0 n s +:+ String.substring n (String.length s - n) s.
Proof.
  induction n as [|n IH]; intros [|c s] Hn; simpl in *; try lia; try done.
  - by rewrite ChunkingFacts.substring_whole.
  - rewrite append_cons. f_equal. apply IH. lia.
Qed.

Lemma endsWith_suffix s suffix :
  endsWith s suffix = true -> exists p, s = p +:+ suffix.
Proof.
  unfold endsWith. intros [Hlen Heq]%andb_prop.
  apply Nat.leb_le in Hlen. apply String.eqb_eq in Heq.
  remember (String.length suffix) as m eqn:Hm.
  exists (String.substring 0 (String.length s - m) s).
  pose proof (substring_split (String.length s - m) s ltac:(lia)) as Hs.
  replace (String.length s - (String.length s - m))%nat with m in Hs by lia.
  by rewrite Heq in Hs.
Qed.

(** A name that ends in [.gz] does not end in any of the three
    extensions the scan looks for. *)
Lemma gz_not_scanned a :
  endsWith (a +:+ ".gz") ".jsonl" || endsWith (a +:+ ".gz") ".json"
  || endsWith (a +:+ ".gz") ".csv" = false.
Proof.
  assert (Hno : forall q last3,
             String.length last3 = 3%nat -> last3 <> ".gz"%string ->
             endsWith (a +:+ ".gz") (q +:+ last3) = false).
  { intros q last3 Hlen Hne.
    destruct (endsWith _ _) eqn:Hends; [|done].
    apply endsWith_suffix in Hends as [p Hp].
    rewrite <- append_assoc in Hp.
    apply WriterFacts.append_eq_len in Hp as [_ Hp]; [|by rewrite Hlen].
    by destruct Hne. }
  pose proof (Hno ".js" "onl" eq_refl ltac:(done)) as H1.
  pose proof (Hno ".j" "son" eq_refl ltac:(done)) as H2.
  pose proof (Hno "." "csv" eq_refl ltac:(done)) as H3.
  change (".js" +:+ "onl") with ".jsonl"%string in H1.
  change (".j" +:+ "son") with ".json"%string in H2.
  change ("." +:+ "csv") with ".csv"%string in H3.
  by rewrite H1, H2, H3.
Qed.

Lemma generateFileName_gz jobId i format :
  exists a, generateFileName jobId i format true = a +:+ ".gz".
Proof.
  unfold generateFileName. eexists.
  rewrite <- !append_assoc. reflexivity.
Qed.

(** X14: [writeResults] names the shards of a compressed output
    [....gz], and [scanOutputDirectory] only looks at names ending in
    [.jsonl], [.json] or [.csv].  A directory listing made of shard names
    written with compression on is therefore reported as holding no output
    file and no record, whether or not the directory can be read. *)
Theorem scanOutputDirectory_skips_compressed_shards env jobId listing w :
  (forall file, file ∈ listing ->
     exists job i format, file = generateFileName job i format true) ->
  scanOutputDirectory env jobId listing w
  = (Returned (emptyScan jobId), set_ioCount (S (ioCount w)) w).
Proof.
  intros Hnames.
  assert (Hscan : forall dir w1,
             scanFiles env dir listing w1 = (Returned [], w1)).
  { intros dir. induction listing as [|file rest IH]; intros w1; [done|].
    cbn [scanFiles].
    destruct (Hnames file) as (job & i & format & ->);
      [apply elem_of_cons; by left|].
    destruct (generateFileName_gz job i format) as [a ->].
    rewrite gz_not_scanned. apply IH.
    intros f Hf. apply Hnames. apply elem_of_cons. by right. }
  unfold scanOutputDirectory, try_catch.
  rewrite bind_run. unfold fs_call.
  destruct (io_fault env (ioCount w)); [done|].
  rewrite bind_run, Hscan. done.
Qed.

Lemma scanOutputDirectory_skips_compressed_shards_witness :
  scanOutputDirectory Samples.sample_env "j1"
    [generateFileName "j1" 0 "jsonl" true; generateFileName "j1" 1 "jsonl" true]
    Samples.sample_world
  = (Returned (emptyScan "j1"), set_ioCount 1 Samples.sample_world).
Proof.
  apply (scanOutputDirectory_skips_compressed_shards Samples.sample_env "j1").
  intros file Hfile.
  apply elem_of_cons in Hfile as [->|Hfile]; [by exists "j1"%string, 0%nat, "jsonl"%string|].
  apply elem_of_cons in Hfile as [->|Hfile]; [by exists "j1"%string, 1%nat, "jsonl"%string|].
  by apply elem_of_nil in Hfile.
Defined.

End ScanFacts.

(* ===================================================================== *)
(** * The use case at its edges                                          *)
(* ===================================================================== *)

Module PipelineFacts.
Import Runtime Observe Vocabulary RuntimeFacts FrameFacts UseCaseFrames.
Import ProcessJobUseCase RetryFacts BatchFacts ExecuteFacts JobRunFacts.
Import Document (pending, processing, completed, failed).

(** ** A retry budget below zero *)

Lemma processDocument_no_attempt env fuel job d w :
  maxRetries env < 0 ->
  processDocument env fuel job d w = (Thrown LastErrorUndefined, w).
Proof.
  intros Hneg. unfold processDocument.
  by replace (Z.to_nat (maxRetries env + 1)) with 0%nat by lia.
Qed.

Lemma processEach_no_attempt env fuel job documents w :
  maxRetries env < 0 ->
  processEach env fuel job documents w
  = (Returned (map (fun _ => None) documents), w).
Proof.
  intros Hneg. unfold processEach.
  induction documents as [|d ds IH]; [done|].
  rewrite for_each_cons_run. unfold settled at 1.
  rewrite processDocument_no_attempt by done.
  by rewrite mmap_run, IH.
Qed.

(** X15: with [maxRetries] below zero the retry loop is not entered, so
    [processDocument] is rejected on reading the message of an error that
    was never set, before the document is touched.  [processDocuments]
    absorbs the rejections: it returns no result and leaves the stores,
    the extractor and the trace as they were. *)
Theorem processDocuments_negative_maxRetries env fuel job documents w :
  maxRetries env < 0 ->
  (0 < maxBatchSize env)%nat ->
  (0 < maxConcurrentBatches env)%nat ->
  (0 < maxConcurrentWorkers env)%nat ->
  processDocuments env fuel job documents w = (Returned [], w)
  /\ forall d, processDocument env fuel job d w = (Thrown LastErrorUndefined, w).
Proof.
  intros Hneg Hb Hc Hw. split; [|intros d; by apply processDocument_no_attempt].
  rewrite processDocuments_flat by done.
  rewrite mmap_run, processEach_no_attempt by done.
  f_equal. f_equal. clear. by induction documents.
Qed.

Lemma processDocuments_negative_maxRetries_witness :
  processDocuments (Samples.failing_extractor_env (-1)) 10
    (Samples.one_job processing) [Samples.one_document]
    (Samples.one_job_world processing)
  = (Returned [], Samples.one_job_world processing).
Proof.
  apply (processDocuments_negative_maxRetries (Samples.failing_extractor_env (-1))
           10 (Samples.one_job processing) [Samples.one_document]
           (Samples.one_job_world processing));
    vm_compute; (reflexivity || lia).
Defined.

(** ** A batch size of zero *)

(** The run of [execute] up to the start of [processDocuments]. *)
Lemma executeBody_started env fuel jobId w job :
  no_faults env ->
  jobsLock w = false ->
  find_by_id Job.id jobId (jobsFile w) = Some job ->
  resolvedDocuments job w <> [] ->
  executeBody env fuel jobId w
  = (processDocuments env fuel (Job.markProcessing job)
       (resolvedDocuments job w) ≫=
     fun results =>
       outputMetadata ←
         OutputService.writeResults env jobId results OutputService.no_options;
       let processingResult :=
         Job.mkSummary jobId
           (Z.of_nat (length (resolvedDocuments job w)))
           (Z.of_nat (length results))
           (Z.of_nat (length (resolvedDocuments job w)) - Z.of_nat (length results))
           outputMetadata in
       _ ← JobRepository.save env
             (Job.markCompleted processingResult (Job.markProcessing job));
       mret processingResult)
      (processing_started job w).
Proof.
  intros Hnf Hlock Hfound Hne. unfold executeBody.
  rewrite (bind_returned _ _ _ _ _ (job_findById_ok env Hnf jobId w)).
  rewrite Hfound. cbv beta iota zeta.
  assert (Hlock1 : jobsLock (set_ioCount (S (ioCount w)) w) = false)
    by (by destruct w).
  rewrite (bind_returned _ _ _ _ _
             (job_save_ok env Hnf (Job.markProcessing job) _ Hlock1)).
  rewrite (bind_returned _ _ _ _ _
             (getDocumentsForJob_ok env Hnf (Job.markProcessing job) _)).
  change (filter _ _) with (resolvedDocuments job w).
  fold (processing_started job w).
  by rewrite (match_nonempty _ _ _ Hne).
Qed.

Lemma processing_started_job jobId job w :
  find_by_id Job.id jobId (jobsFile w) = Some job ->
  find_by_id Job.id jobId (jobsFile (processing_started job w))
  = Some (Job.markProcessing job).
Proof.
  intros Hfound. pose proof (find_by_id_key Job.id _ _ _ Hfound) as Hid.
  unfold processing_started. rewrite docs_world_jobsFile. simpl.
  rewrite find_by_id_upsert. simpl. by rewrite decide_True.
Qed.

Lemma processing_started_lock job w :
  jobsLock (processing_started job w) = false.
Proof. unfold processing_started. by rewrite docs_world_jobsLock. Qed.

(** X16: with [maxBatchSize] at zero the loop of [createBatches] never
    moves past the first document and pushes an empty batch at every
    pass, until the array is full.  Over a job that has documents,
    [execute] is then rejected with the RangeError of the push that no
    longer fits; when the store works, its [catch] block stores the job as
    failed with that message. *)
Theorem execute_zero_batch_size_is_rejected env fuel jobId w job :
  no_faults env ->
  jobsLock w = false ->
  find_by_id Job.id jobId (jobsFile w) = Some job ->
  resolvedDocuments job w <> [] ->
  maxBatchSize env = 0%nat ->
  (forall passes, Js.slices_from passes (resolvedDocuments job w) 0 0 = None)
  /\ exists w' stored,
       execute env fuel jobId w = (Thrown invalidArrayLength, w')
       /\ find_by_id Job.id jobId (jobsFile w') = Some stored
       /\ Job.status stored = failed
       /\ Job.error (Job.metadata stored) = Some "Invalid array length"%string.
Proof.
  intros Hnf Hlock Hfound Hne Hzero.
  assert (Hlen : (0 < length (resolvedDocuments job w))%nat).
  { destruct (resolvedDocuments job w); [done|simpl; lia]. }
  assert (Hstuck : createBatches (resolvedDocuments job w) 0 = None).
  { unfold createBatches, Js.slices. by apply JsFacts.slices_from_stuck. }
  split; [intros passes; by apply JsFacts.slices_from_stuck|].
  assert (Hbody : executeBody env fuel jobId w
                  = (Thrown invalidArrayLength, processing_started job w)).
  { rewrite (executeBody_started env fuel jobId w job) by done.
    rewrite bind_run. unfold processDocuments at 1.
    by rewrite bind_run, Hzero, Hstuck. }
  destruct (executeHandler_ok env jobId invalidArrayLength
              (processing_started job w) (Job.markProcessing job))
    as (w' & Hhandler & Hstored & _).
  - by apply processing_started_job.
  - apply processing_started_lock.
  - intros i _. apply Hnf.
  - exists w', (Job.markFailed (message invalidArrayLength)
                  (Job.markProcessing job)).
    split_and!; [|done..].
    unfold execute, try_catch. by rewrite Hbody.
Qed.

Lemma execute_zero_batch_size_is_rejected_witness :
  let env :=
    mkEnv 3 0 10 50 4000 true "./output" "jsonl" true 2
      (fun _ => None)
      (fun _ _ chunk => inl (Json.JStr chunk))
      (fun vs => inl (Json.JArr vs)) (fun vs => vs)
      documentId documentId documentId (fun md => Output.jobId md) in
  exists w' stored,
    execute env 10 "j1" (Samples.one_job_world pending)
    = (Thrown invalidArrayLength, w')
    /\ find_by_id Job.id "j1" (jobsFile w') = Some stored
    /\ Job.status stored = failed.
Proof.
  intros env.
  destruct (execute_zero_batch_size_is_rejected env 10 "j1"
              (Samples.one_job_world pending) (Samples.one_job pending))
    as (_ & w' & stored & Hrun & Hstored & Hstatus & _);
    [by intros k|reflexivity|reflexivity|discriminate|reflexivity|].
  exists w', stored. repeat split; assumption.
Defined.

(** ** A chunk size below the overlap *)

(** X3: [extractFromDocument] calls [chunkContent] with the default
    overlap of 200.  With chunking on and a [maxChunkSize] from 1 to 199,
    the loop over a document longer than [maxChunkSize] never gets its
    start position past 0, whatever number of passes it makes: it pushes
    chunk after chunk until the array is full, and [extractFromDocument]
    is rejected with the RangeError of the push that no longer fits,
    before any call to the extractor. *)
Theorem extractFromDocument_small_maxChunkSize env fuel job d w :
  enableChunking env = true ->
  0 < maxChunkSize env < Document.default_overlap ->
  maxChunkSize env < Document.strlen (Document.content d) ->
  (forall passes,
     Document.chunkContent passes (Document.content d) (maxChunkSize env)
       Document.default_overlap = None)
  /\ exists w',
       extractFromDocument env fuel job d w = (Thrown invalidArrayLength, w')
       /\ extractorCalls w' = extractorCalls w.
Proof.
  intros Hon [Hpos Hsmall] Hlong.
  assert (Hstuck : forall passes,
             Document.chunkContent passes (Document.content d)
               (maxChunkSize env) Document.default_overlap = None).
  { intros passes.
    by apply ChunkingFacts.chunkContent_large_overlap_stuck. }
  split; [exact Hstuck|].
  unfold extractFromDocument. rewrite Hon.
  unfold Document.needsChunking, Document.getSize.
  rewrite (proj2 (Z.ltb_lt _ _) Hlong). cbn [andb].
  rewrite Hstuck. eexists. by split; [reflexivity|destruct w].
Qed.

Lemma extractFromDocument_small_maxChunkSize_witness :
  let env :=
    mkEnv 3 100 10 50 100 true "./output" "jsonl" true 2
      (fun _ => None)
      (fun _ _ chunk => inl (Json.JStr chunk))
      (fun vs => inl (Json.JArr vs)) (fun vs => vs)
      documentId documentId documentId (fun md => Output.jobId md) in
  let d := Samples.text_document "d1" (Document.repeat_char "a" 150) in
  exists w',
    extractFromDocument env 1000 (Samples.one_job processing) d
      Samples.sample_world
    = (Thrown invalidArrayLength, w')
    /\ extractorCalls w' = 0%nat.
Proof.
  intros env d.
  destruct (extractFromDocument_small_maxChunkSize env 1000
              (Samples.one_job processing) d Samples.sample_world)
    as (_ & w' & Hrun & Hcalls).
  - reflexivity.
  - unfold Document.default_overlap. simpl. lia.
  - vm_compute. reflexivity.
  - exists w'. split; assumption.
Defined.

(** ** What a run that succeeds leaves in the job *)

(** X27: when the stores and the writer work, the summary that [execute]
    returns is the one it stored in the job as [metadata.result]; the job
    is stored as completed with its id, name and document ids unchanged;
    the output metadata inside the summary is the one the writer keeps for
    the job; and both locks are free again. *)
Theorem execute_stores_returned_summary env fuel jobId w job :
  no_faults env ->
  0 <= maxRetries env ->
  (0 < maxBatchSize env)%nat ->
  (0 < maxConcurrentBatches env)%nat ->
  (0 < maxConcurrentWorkers env)%nat ->
  (0 < shardSize env)%nat ->
  5 * Document.default_overlap < 4 * maxChunkSize env ->
  jobsLock w = false ->
  documentsLock w = false ->
  find_by_id Job.id jobId (jobsFile w) = Some job ->
  resolvedDocuments job w <> [] ->
  NoDup (map Document.id (resolvedDocuments job w)) ->
  Forall (fun d => (String.length (Document.content d) <= fuel)%nat)
    (resolvedDocuments job w) ->
  exists summary w',
    execute env fuel jobId w = (Returned summary, w')
    /\ find_by_id Job.id jobId (jobsFile w')
       = Some (Job.markCompleted summary (Job.markProcessing job))
    /\ Job.jobId summary = jobId
    /\ outputMetadata w' !! jobId = Some (Job.outputMetadata summary)
    /\ jobsLock w' = false
    /\ documentsLock w' = false.
Proof.
  intros Hnf Hretries Hbatch Hgroups Hworkers Hshard Hconfig Hjl Hdl Hfound
    Hne Hnodup Hfuel.
  pose proof (find_by_id_key Job.id _ _ _ Hfound) as Hid.
  set (documents := resolvedDocuments job w) in *.
  set (running := Job.markProcessing job).
  set (wA := processing_started job w).
  assert (HdlA : documentsLock wA = false).
  { unfold wA, processing_started, docs_world.
    destruct (Job.documentIds _); by destruct w. }
  destruct (processEach_ok env fuel Hnf Hconfig Hretries running documents wA
              Hnodup Hfuel HdlA)
    as (ss & wB & Heach & HdlB & (HjfB & HjlB & _) & _ & _).
  set (results := fulfilledResults ss).
  assert (Hdocs : processDocuments env fuel running documents wA
                  = (Returned results, wB)).
  { rewrite processDocuments_flat by done. by rewrite mmap_run, Heach. }
  destruct (JsFacts.slices_total results _ Hshard) as [shards Hshards].
  pose proof (OutputFacts.writeResults_ok env Hnf jobId OutputService.no_options
                results shards wB Hshards) as Hwrite.
  set (md := Written.metadataOf env jobId OutputService.no_options results shards)
    in *.
  set (wC := Written.resultsWritten env jobId OutputService.no_options
               results shards wB) in *.
  set (summary := Job.mkSummary jobId (Z.of_nat (length documents))
                    (Z.of_nat (length results))
                    (Z.of_nat (length documents) - Z.of_nat (length results)) md).
  assert (HjlC : jobsLock wC = false).
  { unfold wC, Written.resultsWritten. simpl. rewrite HjlB.
    unfold wA, processing_started. by rewrite docs_world_jobsLock. }
  exists summary, (job_saved (Job.markCompleted summary running) wC).
  split_and!.
  - unfold execute, try_catch.
    rewrite (executeBody_started env fuel jobId w job) by done.
    fold documents running wA.
    rewrite (bind_returned _ _ _ _ _ Hdocs).
    rewrite (bind_returned _ _ _ _ _ Hwrite).
    erewrite (bind_returned _ _ _ _ _ (job_save_ok env Hnf _ wC HjlC)).
    reflexivity.
  - simpl. rewrite find_by_id_upsert. simpl. by rewrite Hid, decide_True.
  - done.
  - simpl. unfold wC, Written.resultsWritten. simpl. apply lookup_insert_eq.
  - done.
  - simpl. unfold wC, Written.resultsWritten. simpl. exact HdlB.
Qed.

Lemma execute_stores_returned_summary_witness :
  exists summary w',
    execute Samples.picky_env 10 "j1" Samples.three_documents_world
    = (Returned summary, w')
    /\ find_by_id Job.id "j1" (jobsFile w')
       = Some (Job.markCompleted summary
                 (Job.markProcessing (Samples.job_with_ids ["d1"; "d2"; "d3"]%string)))
    /\ Job.jobId summary = "j1"%string.
Proof.
  destruct (execute_stores_returned_summary Samples.picky_env 10 "j1"
              Samples.three_documents_world
              (Samples.job_with_ids ["d1"; "d2"; "d3"]%string))
    as (summary & w' & Hrun & Hstored & Hid & _).
  - by intros k.
  - simpl. lia.
  - simpl. lia.
  - simpl. lia.
  - simpl. lia.
  - simpl. lia.
  - unfold Document.default_overlap. simpl. lia.
  - reflexivity.
  - reflexivity.
  - reflexivity.
  - vm_compute. discriminate.
  - apply (bool_decide_unpack _). vm_compute. exact I.
  - apply (bool_decide_unpack _). vm_compute. exact I.
  - exists summary, w'. split; [exact Hrun|]. split; [exact Hstored|exact Hid].
Defined.

(** ** A read of the job collection that fails *)

(** X17: [execute] cannot tell a job that is missing from a collection
    that could not be read.  When its first read fails and the calls of
    its [catch] block go through, it is rejected with [Job <id> not
    found], and the job, which does exist, is stored as failed with that
    message. *)
Theorem execute_failed_read_marks_job_not_found env fuel jobId w job :
  jobsLock w = false ->
  find_by_id Job.id jobId (jobsFile w) = Some job ->
  is_Some (io_fault env (ioCount w)) ->
  (forall i, (i < 4)%nat -> io_fault env (S (ioCount w) + i) = None) ->
  exists w',
    execute env fuel jobId w = (Thrown (JobNotFound jobId), w')
    /\ find_by_id Job.id jobId (jobsFile w')
       = Some (Job.markFailed ("Job " +:+ jobId +:+ " not found") job).
Proof.
  intros Hlock Hfound [msg Hio] Hrest.
  set (w1 := set_ioCount (S (ioCount w)) w).
  assert (Hbody : executeBody env fuel jobId w = (Thrown (JobNotFound jobId), w1)).
  { unfold executeBody, JobRepository.findById, JobRepository.getAllJobs.
    unfold_m. by rewrite Hio. }
  destruct (executeHandler_ok env jobId (JobNotFound jobId) w1 job)
    as (w' & Hhandler & Hstored & _); [by destruct w|by destruct w|done|].
  exists w'. split; [|exact Hstored].
  unfold execute, try_catch. by rewrite Hbody.
Qed.

Lemma execute_failed_read_marks_job_not_found_witness :
  let env :=
    mkEnv 3 100 10 50 4000 true "./output" "jsonl" true 2
      (fun k => if (k =? 0)%nat then Some "EMFILE"%string else None)
      (fun _ _ chunk => inl (Json.JStr chunk))
      (fun vs => inl (Json.JArr vs)) (fun vs => vs)
      documentId documentId documentId (fun md => Output.jobId md) in
  exists w',
    execute env 10 "j1" (Samples.one_job_world pending)
    = (Thrown (JobNotFound "j1"), w')
    /\ find_by_id Job.id "j1" (jobsFile w')
       = Some (Job.markFailed "Job j1 not found" (Samples.one_job pending)).
Proof.
  intros env.
  apply (execute_failed_read_marks_job_not_found env 10 "j1"
           (Samples.one_job_world pending) (Samples.one_job pending));
    [done|done|by eexists|done].
Defined.

(** ** The order of the results *)

Lemma fulfilledResults_sublist env fuel job w' documents ss :
  Forall2 (document_summary env fuel job w') documents ss ->
  map documentId (fulfilledResults ss) `sublist_of` map Document.id documents.
Proof.
  induction 1 as [|d s documents ss (d' & res & -> & _ & Hres & _) _ IH];
    [constructor|].
  unfold fulfilledResults in *. simpl.
  destruct res as [r|]; simpl.
  - destruct Hres as [_ <-]. by apply sublist_skip.
  - by apply sublist_cons.
Qed.

(** X18: batching and grouping keep the order of the documents.  When
    the stores work, [processDocuments] returns at most one result per
    document, and the results come in the order in which the documents
    were given. *)
Theorem processDocuments_keeps_document_order env fuel job documents w :
  no_faults env ->
  0 <= maxRetries env ->
  (0 < maxBatchSize env)%nat ->
  (0 < maxConcurrentBatches env)%nat ->
  (0 < maxConcurrentWorkers env)%nat ->
  5 * Document.default_overlap < 4 * maxChunkSize env ->
  documentsLock w = false ->
  NoDup (map Document.id documents) ->
  Forall (fun d => (String.length (Document.content d) <= fuel)%nat) documents ->
  exists results w',
    processDocuments env fuel job documents w = (Returned results, w')
    /\ map documentId results `sublist_of` map Document.id documents.
Proof.
  intros Hnf Hretries Hb Hc Hw Hconfig Hlock Hnodup Hfuel.
  destruct (processEach_ok env fuel Hnf Hconfig Hretries job documents w
              Hnodup Hfuel Hlock)
    as (ss & w' & Heach & _ & _ & _ & Hall).
  exists (fulfilledResults ss), w'. split.
  - rewrite processDocuments_flat by done. by rewrite mmap_run, Heach.
  - by eapply fulfilledResults_sublist.
Qed.

Lemma processDocuments_keeps_document_order_witness :
  exists results w',
    processDocuments Samples.picky_env 10 (Samples.job_with_ids [])
      [Samples.text_document "d1" "text one";
       Samples.text_document "d2" "bad text";
       Samples.text_document "d3" "text three"]
      Samples.three_documents_world
    = (Returned results, w')
    /\ map documentId results `sublist_of` ["d1"; "d2"; "d3"]%string.
Proof.
  apply (processDocuments_keeps_document_order Samples.picky_env 10
           (Samples.job_with_ids [])
           [Samples.text_document "d1" "text one";
            Samples.text_document "d2" "bad text";
            Samples.text_document "d3" "text three"]
           Samples.three_documents_world);
    first [ done
          | unfold Samples.picky_env, Document.default_overlap; simpl; lia
          | apply (bool_decide_unpack _); vm_compute; reflexivity
          | repeat constructor; simpl; lia ].
Defined.

(** ** The attempt a result reports *)

Lemma attemptLog_length env fuel job remaining : forall attempt d w,
  (length (attemptLog env fuel job remaining attempt d w) <= remaining)%nat.
Proof.
  induction remaining as [|remaining IH]; intros attempt d w; simpl; [lia|].
  destruct (attemptOnce env fuel job attempt d w) as [[d1 [r|e|]] w1]; simpl;
    try lia.
  specialize (IH (attempt + 1) d1 w1). lia.
Qed.

(** X19: the attempt number a result carries counts the passes of the
    retry loop up to the one that succeeded, so it lies between 1 and
    [maxRetries + 1]. *)
Theorem result_attempts_within_bounds env fuel job d w d' r w' :
  processDocument env fuel job d w = (Returned (d', Some r), w') ->
  1 <= attempts r <= maxRetries env + 1.
Proof.
  unfold processDocument. intros Hrun.
  destruct (retryLoop_success env fuel job _ _ _ _ _ _ _ _ Hrun)
    as (errors & Hlog & Hattempts).
  pose proof (attemptLog_length env fuel job (Z.to_nat (maxRetries env + 1))
                0 d w) as Hlen.
  rewrite Hlog, length_app, length_map in Hlen. simpl in Hlen. lia.
Qed.

Lemma result_attempts_within_bounds_witness :
  exists r,
    (processDocument Samples.sample_env 10 (Samples.one_job pending)
       Samples.one_document (Samples.one_job_world pending)).1
    = Returned (Document.markCompleted (Json.JStr "some text")
                  (Document.markProcessing Samples.one_document), Some r)
    /\ 1 <= attempts r <= 3 + 1.
Proof.
  eexists. split; [vm_compute; reflexivity|].
  eapply (result_attempts_within_bounds Samples.sample_env 10
            (Samples.one_job pending) Samples.one_document
            (Samples.one_job_world pending)).
  vm_compute. reflexivity.
Defined.

(** ** The calls made to the extractor *)

Lemma extractChunk_method env t method chunk :
  methodOf t = Some method ->
  extractChunk env t chunk = callExtractor env method chunk.
Proof.
  unfold methodOf, extractChunk.
  repeat (destruct (String.eqb t _); [by intros [= <-]|]). done.
Qed.

(** X20: a document that is not split (it is no longer than
    [maxChunkSize], or chunking is switched off) is handed to the
    extractor whole, in one call of the method of the job's extraction
    type; the answer of the extractor, value or rejection, is the outcome
    of [extractFromDocument]. *)
Theorem extractFromDocument_whole_document env fuel job d w method :
  methodOf (extractionTypeOf (Job.extractionConfig job)) = Some method ->
  enableChunking env
  && Document.needsChunking (Document.content d) (maxChunkSize env) = false ->
  let k := extractorCalls w in
  let w' :=
    set_trace
      (trace w ++ [EvExtract (Document.id d);
                   EvExtractorCall k method (Document.content d)])
      (set_extractorCalls (S k) w) in
  extractFromDocument env fuel job d w
  = match extractor env k method (Document.content d) with
    | inl v => (Returned v, w')
    | inr msg => (Thrown (ExtractorError k msg), w')
    end.
Proof.
  intros Hmethod Hwhole k w'. unfold extractFromDocument.
  rewrite Hwhole. unfold_m. cbn [extractChunks]. unfold_m.
  rewrite (extractChunk_method env _ method _ Hmethod).
  unfold callExtractor. destruct w as [jf jl df dl fs om io ec tr].
  subst k w'. cbn.
  destruct (extractor env ec method (Document.content d)) as [v|msg]; cbn;
    by rewrite <- app_assoc.
Qed.

Lemma extractFromDocument_whole_document_witness :
  extractFromDocument Samples.sample_env 10 (Samples.one_job pending)
    Samples.one_document Samples.sample_world
  = (Returned (Json.JStr "some text"),
     set_trace [EvExtract "d1"; EvExtractorCall 0 "extractEntities" "some text"]
       (set_extractorCalls 1 Samples.sample_world)).
Proof.
  apply (extractFromDocument_whole_document Samples.sample_env 10
           (Samples.one_job pending) Samples.one_document Samples.sample_world
           "extractEntities"); reflexivity.
Defined.

(** X21: the chunks are sent to the extractor one after the other, and the
    first rejection ends the loop: the chunks after it are not sent, and
    the rejection is the outcome. *)
Theorem extractChunks_stops_at_first_rejection env t method before chunk after msg :
  methodOf t = Some method ->
  forall i w,
    (forall n c, before !! n = Some c ->
       exists v, extractor env (extractorCalls w + n) method c = inl v) ->
    extractor env (extractorCalls w + length before) method chunk = inr msg ->
    exists w',
      extractChunks env t i (before ++ chunk :: after) w
      = (Thrown (ExtractorError (extractorCalls w + length before) msg), w')
      /\ extractorCalls w' = S (extractorCalls w + length before).
Proof.
  intros Hmethod. induction before as [|c before IH]; intros i w Hok Hbad.
  - simpl in *. rewrite Nat.add_0_r in *.
    rewrite (extractChunk_method env _ method _ Hmethod).
    unfold callExtractor. unfold_m. rewrite Hbad. by eexists.
  - simpl app. cbn [extractChunks].
    rewrite (extractChunk_method env _ method _ Hmethod).
    destruct (Hok 0%nat c eq_refl) as [v Hv]. rewrite Nat.add_0_r in Hv.
    rewrite bind_run. unfold callExtractor at 1. rewrite Hv.
    set (w1 := set_trace _ _).
    assert (Hw1 : extractorCalls w1 = S (extractorCalls w)) by (by destruct w).
    destruct (IH (S i) w1) as (w' & Hrun & Hcalls).
    + intros n c' Hn. destruct (Hok (S n) c' Hn) as [v' Hv']. exists v'.
      rewrite Hw1. by replace (S (extractorCalls w) + n)%nat
        with (extractorCalls w + S n)%nat by lia.
    + rewrite Hw1. simpl in Hbad.
      by replace (S (extractorCalls w) + length before)%nat
        with (extractorCalls w + S (length before))%nat by lia.
    + exists w'. rewrite bind_run, Hrun. rewrite Hw1 in *. simpl. split.
      * do 3 f_equal. lia.
      * rewrite Hcalls. lia.
Qed.

Lemma extractChunks_stops_at_first_rejection_witness :
  exists w',
    extractChunks Samples.picky_env "entities" 0
      ["fine"; "bad text"; "never sent"]%string Samples.sample_world
    = (Thrown (ExtractorError 1 "cannot extract"), w')
    /\ extractorCalls w' = 2%nat.
Proof.
  apply (extractChunks_stops_at_first_rejection Samples.picky_env "entities"
           "extractEntities" ["fine"%string] "bad text" ["never sent"%string]
           "cannot extract" eq_refl 0%nat Samples.sample_world);
    [|reflexivity].
  intros [|n] c Hc; [|done]. injection Hc as <-. by eexists.
Defined.

End PipelineFacts.

(* ===================================================================== *)
(** * JobController.processJob                                           *)
(* ===================================================================== *)

Module ControllerFacts.
Import Runtime Observe RuntimeFacts ProcessJobUseCase ExecuteFacts.
Import JobController.
Import Document (pending, processing, completed, failed).

(** X22: how [processJob] ends.  It answers 400 when no job id was given,
    404 when [findById] gave no job (the id is unknown, or the collection
    could not be read), and 200 with the summary when [execute] returned.
    When [execute] is rejected, the [catch] block calls
    [responses.internalError], whose parameter [error] hides the helper it
    means to call: the call throws, so [processJob] is itself rejected
    with the TypeError [error is not a function].  No run is answered
    with 500, and no rejection of [processJob] is anything else than that
    TypeError. *)
Theorem processJob_outcomes env fuel jobId w :
  (forall o w',
     processJob env fuel jobId w = (o, w') ->
     match o with
     | Unfinished => True
     | Thrown rejection => rejection = TypeError "error is not a function"
     | Returned r =>
         ((jobId = None \/ jobId = Some EmptyString)
          /\ r = Response.badRequest "Job ID is required" /\ w' = w)
         \/ (exists id,
               jobId = Some id
               /\ (JobRepository.findById env id w).1 = Returned None
               /\ r = Response.notFound "Job not found")
         \/ (exists id summary,
               jobId = Some id
               /\ execute env fuel id (JobRepository.findById env id w).2
                  = (Returned summary, w')
               /\ r = Response.ok summary
                        (Some "Job processed successfully"%string))
     end)
  /\ (forall id job w1 e w2,
        jobId = Some id ->
        id <> EmptyString ->
        JobRepository.findById env id w = (Returned (Some job), w1) ->
        execute env fuel id w1 = (Thrown e, w2) ->
        processJob env fuel jobId w
        = (Thrown (TypeError "error is not a function"), w2)).
Proof.
  split.
  - intros o w'. unfold processJob, try_catch. destruct jobId as [id|].
    2:{ intros [= <- <-]. left. by split; [left|]. }
    destruct (String.eqb id EmptyString) eqn:Hid.
    { apply String.eqb_eq in Hid as ->. intros [= <- <-]. left.
      by split; [right|]. }
    rewrite bind_run.
    destruct (JobRepository.findById env id w) as [[found|e|] w1] eqn:Hfind.
    + destruct found as [job|].
      * rewrite bind_run. simpl.
        destruct (execute env fuel id w1) as [[summary|e|] w2] eqn:Hrun;
          intros [= <- <-]; [|done|done].
        right. right. exists id, summary. by rewrite Hfind.
      * intros [= <- <-]. right. left. exists id. by rewrite Hfind.
    + by intros [= <- <-].
    + by intros [= <- <-].
  - intros id job w1 e w2 -> Hid Hfind Hrun.
    unfold processJob, try_catch.
    rewrite (proj2 (String.eqb_neq _ _) Hid).
    by rewrite bind_run, Hfind, bind_run, Hrun.
Qed.

Lemma processJob_outcomes_witness :
  let w := Samples.world_with_ids ["ghost"%string] in
  let found := JobRepository.findById Samples.sample_env "j1" w in
  let run := execute Samples.sample_env 10 "j1" found.2 in
  run.1 = Thrown (NoDocumentsFound "j1")
  /\ processJob Samples.sample_env 10 (Some "j1"%string) w
     = (Thrown (TypeError "error is not a function"), run.2).
Proof.
  intros w found run.
  assert (Hrun : run = (Thrown (NoDocumentsFound "j1"), run.2))
    by (vm_compute; reflexivity).
  split; [by rewrite Hrun|].
  apply (proj2 (processJob_outcomes Samples.sample_env 10 (Some "j1"%string) w)
           "j1"%string (Samples.job_with_ids ["ghost"%string]) found.2
           (NoDocumentsFound "j1") run.2);
    [reflexivity|discriminate|vm_compute; reflexivity|exact Hrun].
Defined.

(** The run of [execute] over a job whose documents are all missing. *)
Lemma execute_no_documents env fuel jobId w job :
  no_faults env ->
  jobsLock w = false ->
  find_by_id Job.id jobId (jobsFile w) = Some job ->
  resolvedDocuments job w = [] ->
  exists w',
    execute env fuel jobId w = (Thrown (NoDocumentsFound jobId), w')
    /\ find_by_id Job.id jobId (jobsFile w')
       = Some (Job.markFailed (message (NoDocumentsFound jobId))
                 (Job.markProcessing job)).
Proof.
  intros Hnf Hlock Hfound Hnone.
  pose proof (find_by_id_key Job.id _ _ _ Hfound) as Hid.
  set (w1 := processing_started job w).
  assert (Hbody : executeBody env fuel jobId w
                  = (Thrown (NoDocumentsFound jobId), w1)).
  { unfold executeBody.
    rewrite (bind_returned _ _ _ _ _ (job_findById_ok env Hnf jobId w)).
    rewrite Hfound. cbv beta iota zeta.
    assert (Hlock1 : jobsLock (set_ioCount (S (ioCount w)) w) = false)
      by (by destruct w).
    rewrite (bind_returned _ _ _ _ _
               (job_save_ok env Hnf (Job.markProcessing job) _ Hlock1)).
    rewrite (bind_returned _ _ _ _ _
               (getDocumentsForJob_ok env Hnf (Job.markProcessing job) _)).
    change (filter _ _) with (resolvedDocuments job w).
    by rewrite Hnone. }
  destruct (executeHandler_ok env jobId (NoDocumentsFound jobId) w1
              (Job.markProcessing job))
    as (w' & Hhandler & Hstored & _).
  - unfold w1, processing_started. rewrite docs_world_jobsFile. simpl.
    rewrite find_by_id_upsert. simpl. by rewrite decide_True.
  - unfold w1, processing_started. by rewrite docs_world_jobsLock.
  - intros i _. apply Hnf.
  - exists w'. split; [|exact Hstored].
    unfold execute, try_catch. by rewrite Hbody.
Qed.

(** X23: for a job that exists but resolves to no document, [execute]
    is rejected with [No documents found for job <id>] and leaves the job
    stored as failed with that message; [processJob] does not turn the
    rejection into a response: its [catch] block throws the TypeError
    [error is not a function], which is what the caller receives. *)
Theorem processJob_job_without_documents env fuel jobId w job :
  no_faults env ->
  jobsLock w = false ->
  jobId <> EmptyString ->
  find_by_id Job.id jobId (jobsFile w) = Some job ->
  resolvedDocuments job w = [] ->
  exists w' stored,
    processJob env fuel (Some jobId) w
    = (Thrown (TypeError "error is not a function"), w')
    /\ find_by_id Job.id jobId (jobsFile w') = Some stored
    /\ Job.status stored = failed
    /\ Job.error (Job.metadata stored)
       = Some ("No documents found for job " +:+ jobId).
Proof.
  intros Hnf Hlock Hid Hfound Hnone.
  set (w1 := set_ioCount (S (ioCount w)) w).
  destruct (execute_no_documents env fuel jobId w1 job Hnf)
    as (w' & Hrun & Hstored); [by destruct w|by destruct w|by destruct w|].
  exists w'. eexists.
  split; [|split_and!; try done; try exact Hstored; done].
  unfold processJob, try_catch.
  rewrite (proj2 (String.eqb_neq _ _) Hid).
  rewrite (bind_returned _ _ _ _ _ (job_findById_ok env Hnf jobId w)).
  rewrite Hfound. cbv beta iota. fold w1. by rewrite bind_run, Hrun.
Qed.

Lemma processJob_job_without_documents_witness :
  exists w',
    processJob Samples.sample_env 10 (Some "j1"%string)
      (Samples.world_with_ids ["ghost"%string])
    = (Thrown (TypeError "error is not a function"), w')
    /\ (Job.status <$> find_by_id Job.id "j1" (jobsFile w')) = Some failed.
Proof.
  destruct (processJob_job_without_documents Samples.sample_env 10 "j1"
              (Samples.world_with_ids ["ghost"%string])
              (Samples.job_with_ids ["ghost"%string]))
    as (w' & stored & Hrun & Hstored & Hstatus & _);
    try done.
  exists w'. split; [done|]. by rewrite Hstored; simpl; f_equal.
Defined.

End ControllerFacts.

(* ===================================================================== *)
(** * Job.js: what the mark methods keep                                 *)
(* ===================================================================== *)

Module EntityFacts.
Import Document (pending, processing, completed, failed).

Lemma apply_ops_snoc j ops o :
  Job.apply_ops j (ops ++ [o]) = Job.apply_op (Job.apply_ops j ops) o.
Proof. unfold Job.apply_ops. by rewrite foldl_app. Qed.

(** X24: whatever sequence of [markProcessing], [markCompleted] and
    [markFailed] is applied to a job, its id, name, extraction
    configuration and document ids stay as they were; a result or an error
    message once written into the metadata is never removed (a later
    [markCompleted] leaves the old error in place); and the status at the
    end is the one the last call sets, whatever came before. *)
Theorem job_marks_keep_identity j ops :
  Job.id (Job.apply_ops j ops) = Job.id j
  /\ Job.name (Job.apply_ops j ops) = Job.name j
  /\ Job.extractionConfig (Job.apply_ops j ops) = Job.extractionConfig j
  /\ Job.documentIds (Job.apply_ops j ops) = Job.documentIds j
  /\ (is_Some (Job.error (Job.metadata j)) ->
      is_Some (Job.error (Job.metadata (Job.apply_ops j ops))))
  /\ (is_Some (Job.result (Job.metadata j)) ->
      is_Some (Job.result (Job.metadata (Job.apply_ops j ops))))
  /\ forall o j0,
       Job.status (Job.apply_ops j (ops ++ [o]))
       = Job.status (Job.apply_op j0 o).
Proof.
  induction ops as [|o ops IH] using rev_ind.
  - split_and!; try done. intros o j0. by destruct o.
  - destruct IH as (Hid & Hname & Hcfg & Hdocs & Herr & Hres & _).
    rewrite apply_ops_snoc.
    split_and!;
      first [ by destruct o
            | intros Hset;
              first [specialize (Herr Hset) | specialize (Hres Hset)];
              destruct o; simpl; first [done | by eexists]
            | intros o' j0; rewrite apply_ops_snoc; by destruct o' ].
Qed.

End EntityFacts.

(* ===================================================================== *)
(** * Reading back what writeResults wrote                               *)
(* ===================================================================== *)

Module ReadBackFacts.
Import Runtime Observe Written Vocabulary RuntimeFacts StringFacts.
Import Output OutputService OutputFacts OutputScan.

(** X25: the metadata that [writeResults] returns is what
    [getOutputInfo] answers for the job afterwards, from the in-memory
    map: no file is read, nothing is scanned, and the state is left as it
    is, whatever the metadata file and the directory hold. *)
Theorem getOutputInfo_after_writeResults env jobId results options w :
  no_faults env ->
  (0 < resolvedShardSize env options)%nat ->
  exists md w1,
    writeResults env jobId results options w = (Returned md, w1)
    /\ forall parseMetadata listing,
         OutputInfo.getOutputInfo env parseMetadata jobId listing w1
         = (Returned md, w1).
Proof.
  intros Hnf Hsize.
  destruct (JsFacts.slices_total results _ Hsize) as [shards Hshards].
  do 2 eexists. split; [by apply writeResults_ok|].
  intros parseMetadata listing. unfold OutputInfo.getOutputInfo.
  rewrite bind_run. unfold gets at 1. unfold resultsWritten at 1.
  cbn [outputMetadata set_outputMetadata]. by rewrite lookup_insert_eq.
Qed.

Lemma getOutputInfo_after_writeResults_witness :
  exists md w1,
    writeResults Samples.sample_env "j1"
      (map Samples.sample_result ["a"; "b"; "c"]%string) no_options
      Samples.sample_world
    = (Returned md, w1)
    /\ forall parseMetadata listing,
         OutputInfo.getOutputInfo Samples.sample_env parseMetadata "j1" listing w1
         = (Returned md, w1).
Proof.
  apply (getOutputInfo_after_writeResults Samples.sample_env "j1"
           (map Samples.sample_result ["a"; "b"; "c"]%string) no_options
           Samples.sample_world); [done|vm_compute; lia].
Defined.

(** ** The lines of a shard file *)

Lemma trimStart_solid s : starts_solid s = true -> trimStart s = s.
Proof.
  destruct s as [|c s]; [done|]. simpl. intros H%negb_true_iff. by rewrite H.
Qed.

Lemma trimEnd_cons c s :
  trimEnd (String c s)
  = match trimEnd s with
    | EmptyString =>
        if Store.is_space c then EmptyString else String c EmptyString
    | t => String c t
    end.
Proof. reflexivity. Qed.

Lemma trimEnd_solid s : ends_solid s = true -> trimEnd s = s.
Proof.
  induction s as [|c s IH]; [done|]. rewrite trimEnd_cons.
  destruct s as [|c' s'].
  - simpl. intros H%negb_true_iff. by rewrite H.
  - intros H. by rewrite IH.
Qed.

Lemma ends_solid_app a b :
  b <> EmptyString -> ends_solid (a +:+ b) = ends_solid b.
Proof.
  intros Hb. induction a as [|c a IH]; [done|].
  rewrite append_cons. simpl.
  destruct (a +:+ b) as [|c' t] eqn:Hab; [|done].
  apply (f_equal String.length) in Hab. rewrite append_length in Hab.
  destruct b; [done|simpl in Hab; lia].
Qed.

Lemma starts_solid_app a b :
  a <> EmptyString -> starts_solid (a +:+ b) = starts_solid a.
Proof. by destruct a. Qed.

Lemma solid_nonempty s : ends_solid s = true -> s <> EmptyString.
Proof. by destruct s. Qed.

Lemma split_lines_line l :
  has_newline l = false -> Store.split_lines l = [l].
Proof.
  induction l as [|c l IH]; [done|]. simpl.
  intros [Hc Hl]%orb_false_iff. rewrite Hc. by rewrite IH.
Qed.

Lemma split_lines_app l rest :
  has_newline l = false ->
  Store.split_lines (l +:+ String "010" rest) = l :: Store.split_lines rest.
Proof.
  induction l as [|c l IH]; [done|]. rewrite append_cons. simpl.
  intros [Hc Hl]%orb_false_iff. rewrite Hc. by rewrite IH.
Qed.

Lemma blank_solid l : starts_solid l = true -> Store.blank l = false.
Proof.
  destruct l as [|c l]; [done|]. simpl. intros H%negb_true_iff. by rewrite H.
Qed.

Lemma record_line_parts l :
  record_line l = true ->
  starts_solid l = true /\ ends_solid l = true /\ has_newline l = false.
Proof.
  unfold record_line. intros [[H1 H2]%andb_prop H3%negb_true_iff]%andb_prop.
  done.
Qed.

Lemma join_lines lines :
  Forall (fun l => record_line l = true) lines ->
  lines <> [] ->
  let text := Js.join (String "010" EmptyString) lines in
  Store.split_lines text = lines
  /\ starts_solid text = true /\ ends_solid text = true.
Proof.
  induction 1 as [|l rest Hl Hrest IH]; [done|]. intros _.
  apply record_line_parts in Hl as (Hs & He & Hn).
  destruct rest as [|l' rest'].
  - simpl. by rewrite split_lines_line.
  - destruct IH as (Hsplit & Hstart & Hend); [done|].
    change (Js.join (String "010" EmptyString) (l :: l' :: rest'))
      with (l +:+ String "010" (Js.join (String "010" EmptyString) (l' :: rest'))).
    cbv zeta. split_and!.
    + rewrite split_lines_app by done. by rewrite Hsplit.
    + rewrite starts_solid_app; [done|by apply solid_nonempty].
    + rewrite ends_solid_app by done.
      destruct (Js.join _ (l' :: rest')) eqn:Hj; [done|exact Hend].
Qed.

(** X26: when every result of a shard is printed as one solid line (no
    line break inside, no white space at its ends), the count that
    [scanOutputDirectory] takes from the text [writeShard] wrote for the
    shard is the number of its results. *)
Theorem countRecords_of_written_shard env format shard :
  Forall (fun r => record_line (formatResult env r format) = true) shard ->
  countRecords (shardText env format shard) = length shard.
Proof.
  intros Hlines. unfold shardText.
  set (lines := map (fun r => formatResult env r format) shard).
  assert (Hall : Forall (fun l => record_line l = true) lines)
    by (by apply Forall_fmap).
  replace (length shard) with (length lines) by apply length_map.
  clearbody lines. clear Hlines.
  destruct lines as [|l rest]; [done|].
  destruct (join_lines (l :: rest) Hall ltac:(done)) as (Hsplit & Hs & He).
  unfold countRecords, trim.
  rewrite trimStart_solid, trimEnd_solid, Hsplit by done.
  f_equal. clear Hsplit Hs He. induction Hall as [|x xs Hx Hxs IH]; [done|].
  apply record_line_parts in Hx as (Hx & _ & _).
  rewrite filter_cons_True by (by rewrite (blank_solid x Hx)).
  by rewrite IH.
Qed.

Lemma countRecords_of_written_shard_witness :
  countRecords
    (shardText Samples.sample_env "jsonl"
       [Samples.sample_result "a"; Samples.sample_result "b"])
  = 2%nat.
Proof.
  apply (countRecords_of_written_shard Samples.sample_env "jsonl"
           [Samples.sample_result "a"; Samples.sample_result "b"]).
  repeat constructor.
Defined.

End ReadBackFacts.
